(** * AI-Based Traffic Management: decision core

    A shallow embedding of the decision core of the repository:

    - [web_processor.py]: [WebTrafficProcessor._classify_density],
      [_calculate_optimal_sequence], [_generate_signal_recommendations];
    - [src/vehicle_detector.py]: the tracking part of
      [VehicleDetector.detect_vehicles], [_assign_tracking_id],
      [cleanup_tracks];
    - [src/config.py]: the constants these functions read.

    Python [int] is [Z]; Python [str] is [string]; a [dict] whose iteration
    order is observable (the argument of [sorted], the track table scanned
    for the nearest track) is the list of its items in insertion order; a
    [dict] that is only read by key is a [gmap].  A numpy [float32] scalar
    is the rational it denotes, and every [float32] operation rounds its
    result to the nearest [float32] value. *)

From Stdlib Require Import Ascii ZArith QArith Qround Qabs Qpower Reals Lqa.
From stdpp Require Import base option list strings gmap fin_maps sorting.

Local Open Scope string_scope.
Local Open Scope list_scope.
Local Open Scope Z_scope.

(** ** Configuration ([src/config.py]) *)

Module config.

(** One value of [SIGNAL_TIMINGS]: a dict with the three fixed keys
    ['green'], ['yellow'], ['min_green']. *)
Record Timing := mkTiming { green : Z; yellow : Z; min_green : Z }.

Definition SIGNAL_TIMINGS : gmap string Timing :=
  <["LOW"      := mkTiming 15 3 10]>
 (<["MEDIUM"   := mkTiming 30 3 20]>
 (<["HIGH"     := mkTiming 45 3 30]>
 (<["CRITICAL" := mkTiming 60 3 40]> ∅))).

Definition VEHICLE_CLASSES : gmap Z string :=
  <[2 := "car"]> (<[3 := "motorcycle"]> (<[5 := "bus"]> (<[7 := "truck"]> ∅))).

Definition TRACKING_ENABLED : bool := true.
Definition TRACKING_MAX_DISTANCE : Z := 50.
Definition TRACKING_MAX_FRAMES_MISSING : Z := 10.

Definition MAX_GREEN_DURATION : Z := 90.
Definition MIN_GREEN_DURATION : Z := 10.

End config.

(** The four density level names the classifier produces. *)
Definition DENSITY_LEVELS : list string := ["LOW"; "MEDIUM"; "HIGH"; "CRITICAL"].

(** ** Python exceptions

    [d[k]] on a dict raises [KeyError] when [k] is absent; [d.get(k, v)]
    never raises. *)

Inductive result (A : Type) : Type :=
  | Ok (a : A)
  | KeyError (k : string).
Arguments Ok {A} a.
Arguments KeyError {A} k.

#[global] Instance result_ret : MRet result := λ A a, Ok a.
#[global] Instance result_bind : MBind result := λ A B f r,
  match r with
  | Ok a => f a
  | KeyError k => KeyError k
  end.

(** [d[k]] for a dict with string keys. *)
Definition subscript {V} (d : gmap string V) (k : string) : result V :=
  match d !! k with
  | Some v => Ok v
  | None => KeyError k
  end.

(** [d.get(k, default)]. *)
Definition dict_get_default {K V} `{Countable K} (d : gmap K V) (k : K) (default : V) : V :=
  match d !! k with
  | Some v => v
  | None => default
  end.

(** ** Density classifier ([web_processor.py], lines 247-264) *)

Definition _classify_density (vehicle_count : Z) : string :=
  if vehicle_count <=? 5 then "LOW"
  else if vehicle_count <=? 15 then "MEDIUM"
  else if vehicle_count <=? 25 then "HIGH"
  else "CRITICAL".

(** Classification returns one of the density level names. *)
Definition returns_level (vehicle_count : Z) : Prop :=
  _classify_density vehicle_count ∈ DENSITY_LEVELS.

(** ** Python's [sorted]

    [sorted(iterable, key=..., reverse=...)] returns a new list and is
    guaranteed stable, also with [reverse=True]: entries whose keys compare
    equal keep the order they have in the input.  The stable insertion sort
    below is that function; [lt] is the [<] of the key type. *)

Section sorted.
Context {A K : Type} (lt : K → K → bool) (key : A → K) (reverse : bool).

(** [x], which precedes [y] in the input, has to be placed after [y]. *)
Definition placed_after (x y : A) : bool :=
  if reverse then lt (key x) (key y) else lt (key y) (key x).

Fixpoint insert_stable (x : A) (l : list A) : list A :=
  match l with
  | [] => [x]
  | y :: l' => if placed_after x y then y :: insert_stable x l' else x :: y :: l'
  end.

Definition sorted (l : list A) : list A := foldr insert_stable [] l.
End sorted.

(** [<] on Python tuples of two ints: the first components that differ
    decide. *)
Definition tuple_lt (a b : Z * Z) : bool :=
  if a.1 =? b.1 then a.2 <? b.2 else a.1 <? b.1.

(** ** Sequence planner ([web_processor.py], lines 220-245) *)

(** One value of [traffic_analysis]: the dict
    [{'count': ..., 'density': ..., 'vehicles': []}]; the planner and the
    recommendations read ['count'] and ['density'] only. *)
Record Analysis := mkAnalysis { count : Z; density : string }.

(** [traffic_analysis] is a dict from direction name to [Analysis]; it is
    represented by [traffic_analysis.items()], its entries in insertion
    order, because [sorted] observes that order. *)
Definition TrafficAnalysis := list (string * Analysis).

Definition density_priority : gmap string Z :=
  <["CRITICAL" := 4]> (<["HIGH" := 3]> (<["MEDIUM" := 2]> (<["LOW" := 1]> ∅))).

(** The [key=lambda x: (...)] of the planner. *)
Definition sequence_key (x : string * Analysis) : Z * Z :=
  (dict_get_default density_priority (density x.2) 0, count x.2).

Definition _calculate_optimal_sequence (traffic_analysis : TrafficAnalysis) : list string :=
  let sorted_directions := sorted tuple_lt sequence_key true traffic_analysis in
  sorted_directions.*1.

(** ** Recommendations ([web_processor.py], lines 188-218) *)

Record Recommendation := mkRecommendation {
  density_level : string;
  vehicle_count : Z;
  green_duration : Z;
  yellow_duration : Z;
  total_duration : Z
}.

(** The values of the [recommendations] dict: one entry per direction and
    the list stored under ['optimal_sequence']. *)
Inductive RecValue : Type :=
  | RecEntry (r : Recommendation)
  | RecSequence (sequence : list string).

(** The body of the [for direction, data in traffic_analysis.items()] loop. *)
Definition recommend_direction (recommendations : gmap string RecValue)
    (item : string * Analysis) : result (gmap string RecValue) :=
  let '(direction, data) := item in
  let density := density data in
  low ← subscript config.SIGNAL_TIMINGS "LOW";
  let timing := dict_get_default config.SIGNAL_TIMINGS density low in
  mret (<[direction := RecEntry {|
          density_level := density;
          vehicle_count := count data;
          green_duration := config.green timing;
          yellow_duration := config.yellow timing;
          total_duration := config.green timing + config.yellow timing |}]>
        recommendations).

Fixpoint for_each {S X} (body : S → X → result S) (s : S) (l : list X) : result S :=
  match l with
  | [] => mret s
  | x :: l' => s' ← body s x; for_each body s' l'
  end.

Definition _generate_signal_recommendations (traffic_analysis : TrafficAnalysis)
    : result (gmap string RecValue) :=
  recommendations ← for_each recommend_direction ∅ traffic_analysis;
  let sequence := _calculate_optimal_sequence traffic_analysis in
  mret (<["optimal_sequence" := RecSequence sequence]> recommendations).

(** The entry the loop stores for one direction. *)
Definition entry_of (timing : config.Timing) (data : Analysis) : RecValue :=
  RecEntry {|
    density_level := density data;
    vehicle_count := count data;
    green_duration := config.green timing;
    yellow_duration := config.yellow timing;
    total_duration := config.green timing + config.yellow timing |}.

(** The summary as a mapping: what [traffic_analysis[direction]] reads. *)
Definition as_mapping (traffic_analysis : TrafficAnalysis) : gmap string Analysis :=
  list_to_map traffic_analysis.

(** [x] occurs before [y] in [l]. *)
Definition before {A} (x y : A) (l : list A) : Prop :=
  ∃ l1 l2 l3, l = l1 ++ x :: l2 ++ y :: l3.

(** ** Tracker ([src/vehicle_detector.py])

    [time.time()] is an input: every operation that reads the clock takes
    the reading as an argument.  Timestamps are exact rationals. *)

(** A value of [tracked_vehicles]. *)
Record Track := mkTrack {
  center : Z * Z;
  bbox : list Z;
  frames_missing : Z;
  last_seen : Q
}.

(** A detection dict; ['id'] is present once tracking has tagged it. *)
Record Detection := mkDetection {
  det_bbox : list Z;
  det_class : string;
  det_confidence : Q;
  det_class_id : Z;
  det_center : Z * Z;
  det_id : option Z
}.

(** The tracking fields and the detection counter of a [VehicleDetector];
    [tracked_vehicles] is the dict's items in insertion order, the order in
    which [_assign_tracking_id] scans them.  The model and the [fps]
    statistic, which no tracking operation reads, are left out. *)
Record VehicleDetector := mkVehicleDetector {
  tracked_vehicles : list (Z * Track);
  next_vehicle_id : Z;
  total_detections : Z
}.

(** The state [__init__] builds. *)
Definition init : VehicleDetector :=
  {| tracked_vehicles := []; next_vehicle_id := 0; total_detections := 0 |}.

(** [d[k] = v] on an insertion-ordered dict: an existing key keeps its
    position, a new key goes last. *)
Fixpoint odict_set {V} (k : Z) (v : V) (d : list (Z * V)) : list (Z * V) :=
  match d with
  | [] => [(k, v)]
  | (k', v') :: d' =>
      if decide (k = k') then (k, v) :: d' else (k', v') :: odict_set k v d'
  end.

(** [d.get(k)]. *)
Fixpoint odict_get {V} (k : Z) (d : list (Z * V)) : option V :=
  match d with
  | [] => None
  | (k', v') :: d' => if decide (k = k') then Some v' else odict_get k d'
  end.

(** [del d[k]], for a key of [d]. *)
Definition odict_del {V} (k : Z) (d : list (Z * V)) : list (Z * V) :=
  filter (λ e, e.1 ≠ k) d.

(** The values [min_distance] and [distance] range over: [float('inf')] or
    the root of a sum of two integer squares, kept as the radicand.  [<] on
    the roots is [<] on the radicands. *)
Inductive distance : Type :=
  | Inf
  | Sqrt (radicand : Z).

Definition distance_lt (a b : distance) : bool :=
  match a, b with
  | Sqrt x, Sqrt y => x <? y
  | Sqrt _, Inf => true
  | Inf, _ => false
  end.

Definition squared_distance (c t : Z * Z) : Z :=
  (c.1 - t.1) ^ 2 + (c.2 - t.2) ^ 2.


(** [np.sqrt((c[0] - t[0])**2 + (c[1] - t[1])**2)]. *)
Definition center_distance (c t : Z * Z) : distance :=
  Sqrt (squared_distance c t).

(** [config.TRACKING_MAX_DISTANCE] as a distance. *)
Definition max_distance : distance :=
  Sqrt (config.TRACKING_MAX_DISTANCE ^ 2).

(** One iteration of the scan over [tracked_vehicles.items()]. *)
Definition scan_track (c : Z * Z) (acc : distance * option Z)
    (item : Z * Track) : distance * option Z :=
  let '(min_distance, matched_id) := acc in
  let '(vehicle_id, track) := item in
  let track_center := center track in
  let distance := center_distance c track_center in
  if distance_lt distance max_distance && distance_lt distance min_distance
  then (distance, Some vehicle_id)
  else (min_distance, matched_id).

Definition find_closest (c : Z * Z) (tracks : list (Z * Track))
    : distance * option Z :=
  foldl (scan_track c) (Inf, None) tracks.

Definition _assign_tracking_id (self : VehicleDetector) (detection : Detection)
    (now : Q) : VehicleDetector * Z :=
  let center := det_center detection in
  let bbox := det_bbox detection in
  let track := {| center := center; bbox := bbox; frames_missing := 0; last_seen := now |} in
  match (find_closest center (tracked_vehicles self)).2 with
  | Some matched_id =>
      ({| tracked_vehicles := odict_set matched_id track (tracked_vehicles self);
          next_vehicle_id := next_vehicle_id self;
          total_detections := total_detections self |},
       matched_id)
  | None =>
      let new_id := next_vehicle_id self in
      ({| tracked_vehicles := odict_set new_id track (tracked_vehicles self);
          next_vehicle_id := new_id + 1;
          total_detections := total_detections self |},
       new_id)
  end.

(** [config.TRACKING_MAX_FRAMES_MISSING / 30], in seconds. *)
Definition eviction_window : Q :=
  inject_Z config.TRACKING_MAX_FRAMES_MISSING / inject_Z 30.

(** [current_time - track['last_seen'] > eviction_window]. *)
Definition expired (current_time : Q) (track : Track) : bool :=
  negb (Qle_bool (current_time - last_seen track) eviction_window).

Definition cleanup_tracks (self : VehicleDetector) (current_time : Q) : VehicleDetector :=
  let ids_to_remove :=
    (filter (λ item, expired current_time item.2 = true) (tracked_vehicles self)).*1 in
  {| tracked_vehicles := foldl (λ d vehicle_id, odict_del vehicle_id d)
                               (tracked_vehicles self) ids_to_remove;
     next_vehicle_id := next_vehicle_id self;
     total_detections := total_detections self |}.

(** *** numpy [float32]

    The corner coordinates [box.xyxy[0].cpu().numpy()] are numpy [float32]
    scalars, and so are [x1 + x2] and [(x1 + x2) / 2]: every operation
    rounds its exact result to the nearest [float32] value, ties to the
    even significand.  A finite [float32] value is modelled by the rational
    it denotes: an integer of magnitude below [2^24] times a power of two
    of exponent at least [-149].  [float32_round] is the rounding of all
    results of magnitude up to [float32_max]; beyond it numpy gives [inf],
    on which [int] raises [OverflowError]: see [box_in_range]. *)

(** [floor(log2(abs(x)))] of a number that is not zero. *)
Definition Qlog2 (x : Q) : Z :=
  let k := Z.log2 (Z.abs (Qnum x)) - Z.log2 (Z.pos (Qden x)) in
  if Qle_bool (2 ^ k) (Qabs x) then k else k - 1.

(** The exponent of the last place of the [float32] values around [x]:
    24 significant bits, and [-149] in the subnormal range. *)
Definition float32_exponent (x : Q) : Z := Z.max (Qlog2 x - 23) (-149).

(** The nearest integer, a tie going to the even one. *)
Definition round_half_even (x : Q) : Z :=
  let f := Qfloor x in
  match (x - inject_Z f ?= 1 # 2)%Q with
  | Lt => f
  | Eq => if Z.even f then f else f + 1
  | Gt => f + 1
  end.

(** The [float32] value nearest to [x]: [x] in units of its last place,
    rounded to an integer. *)
Definition float32_round (x : Q) : Q :=
  if Qeq_bool x 0 then 0%Q
  else
    let e := float32_exponent x in
    (inject_Z (round_half_even (x / 2 ^ e)) * 2 ^ e)%Q.

(** [x + y] and [x / y] on [float32] scalars; in [x / 2] the Python [int]
    takes the scalar's type. *)
Definition float32_add (x y : Q) : Q := float32_round (x + y).

Definition float32_div (x y : Q) : Q := float32_round (x / y).

(** The largest finite [float32] value. *)
Definition float32_max : Q := (inject_Z (2 ^ 24 - 1) * 2 ^ 104)%Q.

(** [x] is the value of a finite [float32]: zero, or a multiple of its last
    place, and of magnitude at most [float32_max]. *)
Definition is_float32 (x : Q) : bool :=
  (Qeq_bool x 0
   || let scaled := (x / 2 ^ float32_exponent x)%Q in
      Qeq_bool (inject_Z (Qfloor scaled)) scaled)
  && Qle_bool (Qabs x) float32_max.

(** A box of the detector's result: corner coordinates, confidence, class.
    The coordinates are [float32] values. *)
Record Box := mkBox { xyxy : Q * Q * Q * Q; conf : Q; cls : Z }.

(** [int(x)] on a number: truncation toward zero. *)
Definition py_int (x : Q) : Z := Z.quot (Qnum x) (Z.pos (Qden x)).

(** One iteration of [for box in boxes] in [detect_vehicles]; [now] is the
    clock reading of the tracking call. *)
Definition detect_box (acc : VehicleDetector * list Detection) (input : Box * Q)
    : VehicleDetector * list Detection :=
  let '(self, detections) := acc in
  let '(box, now) := input in
  let '(x1, y1, x2, y2) := xyxy box in
  let confidence := conf box in
  let class_id := cls box in
  match config.VEHICLE_CLASSES !! class_id with
  | Some name =>
      let detection :=
        {| det_bbox := [py_int x1; py_int y1; py_int x2; py_int y2];
           det_class := name;
           det_confidence := confidence;
           det_class_id := class_id;
           det_center := (py_int (float32_div (float32_add x1 x2) 2),
                          py_int (float32_div (float32_add y1 y2) 2));
           det_id := None |} in
      let '(self, detection) :=
        if config.TRACKING_ENABLED then
          let '(self', tracking_id) := _assign_tracking_id self detection now in
          (self', {| det_bbox := det_bbox detection;
                     det_class := det_class detection;
                     det_confidence := det_confidence detection;
                     det_class_id := det_class_id detection;
                     det_center := det_center detection;
                     det_id := Some tracking_id |})
        else (self, detection) in
      ({| tracked_vehicles := tracked_vehicles self;
          next_vehicle_id := next_vehicle_id self;
          total_detections := total_detections self + 1 |},
       detections ++ [detection])
  | None => (self, detections)
  end.

(** The tracking part of [detect_vehicles]: the boxes of one frame, each
    with the clock reading of its tracking call. *)
Definition detect_vehicles (self : VehicleDetector) (boxes : list (Box * Q))
    : VehicleDetector * list Detection :=
  foldl detect_box (self, []) boxes.

(** The operations that change a tracker. *)
Inductive operation : Type :=
  | Assign (detection : Detection) (now : Q)
  | Detect (boxes : list (Box * Q))
  | Cleanup (current_time : Q).

Definition apply_operation (self : VehicleDetector) (op : operation) : VehicleDetector :=
  match op with
  | Assign detection now => (_assign_tracking_id self detection now).1
  | Detect boxes => (detect_vehicles self boxes).1
  | Cleanup current_time => cleanup_tracks self current_time
  end.

Definition run (self : VehicleDetector) (ops : list operation) : VehicleDetector :=
  foldl apply_operation self ops.

(** The identities an operation hands out, in order. *)
Definition issued_by (self : VehicleDetector) (op : operation) : list Z :=
  match op with
  | Assign detection now => [(_assign_tracking_id self detection now).2]
  | Detect boxes => omap det_id (detect_vehicles self boxes).2
  | Cleanup _ => []
  end.

Fixpoint issued (self : VehicleDetector) (ops : list operation) : list Z :=
  match ops with
  | [] => []
  | op :: ops' => issued_by self op ++ issued (apply_operation self op) ops'
  end.

(** The largest identity of a list; [-1] when there is none. *)
Definition largest (ids : list Z) : Z := foldr Z.max (-1) ids.

(** The track a detection is stored as. *)
Definition track_of (detection : Detection) (now : Q) : Track :=
  {| center := det_center detection; bbox := det_bbox detection;
     frames_missing := 0; last_seen := now |}.

(** A track is strictly within the matching threshold of a center. *)
Definition within_threshold (c : Z * Z) (track : Track) : Prop :=
  squared_distance c (center track) < config.TRACKING_MAX_DISTANCE ^ 2.

(** The identities of the live tracks, in enumeration order. *)
Definition live_ids (self : VehicleDetector) : list Z := (tracked_vehicles self).*1.

(** The tracker invariant: the live identities are distinct and below the
    counter, which is not negative. *)
Definition tracker_inv (self : VehicleDetector) : Prop :=
  NoDup (live_ids self) ∧
  0 ≤ next_vehicle_id self ∧
  ∀ vehicle_id, vehicle_id ∈ live_ids self → vehicle_id < next_vehicle_id self.

(** A detection as the detector produces it, before tracking. *)
Definition detection_at (x y : Z) : Detection :=
  {| det_bbox := [x - 10; y - 10; x + 10; y + 10];
     det_class := "car";
     det_confidence := 9 # 10;
     det_class_id := 2;
     det_center := (x, y);
     det_id := None |}.

(** The severity rank the planner gives a density value. *)
Definition density_rank (d : string) : Z := dict_get_default density_priority d 0.

(** An entry that may precede another in the planned sequence: higher rank,
    or equal rank and at least as many vehicles. *)
Definition ranks_before (a b : Analysis) : Prop :=
  density_rank (density b) < density_rank (density a) ∨
  (density_rank (density b) = density_rank (density a) ∧ count b ≤ count a).

(** The summary of the spec's planner example. *)
Definition example_summary : TrafficAnalysis :=
  [("NORTH", mkAnalysis 30 "CRITICAL"); ("SOUTH", mkAnalysis 2 "LOW");
   ("EAST", mkAnalysis 10 "HIGH"); ("WEST", mkAnalysis 8 "MEDIUM")].

(** The timings [SIGNAL_TIMINGS.get(density, SIGNAL_TIMINGS['LOW'])] selects. *)
Definition timing_for (density : string) : config.Timing :=
  dict_get_default config.SIGNAL_TIMINGS density (config.mkTiming 15 3 10).

(** A box of class car with the given corners, and the frames of the
    in-frame matching example: a first frame with one vehicle, a second
    frame with two. *)
Definition car_box (x1 y1 x2 y2 : Z) : Box :=
  {| xyxy := (inject_Z x1, inject_Z y1, inject_Z x2, inject_Z y2);
     conf := 9 # 10; cls := 2 |}.

Definition first_frame : list (Box * Q) := [(car_box 90 90 110 110, 0%Q)].

Definition second_frame : list (Box * Q) :=
  [(car_box 130 90 150 110, 1%Q); (car_box 170 90 190 110, 1%Q)].

(** ** Definitions for further properties of the tracker *)

(** The detection dict [detect_vehicles] builds for a box before tracking;
    [None] when the box's class is not a vehicle class. *)
Definition detection_of (box : Box) : option Detection :=
  let '(x1, y1, x2, y2) := xyxy box in
  name ← config.VEHICLE_CLASSES !! cls box;
  Some {| det_bbox := [py_int x1; py_int y1; py_int x2; py_int y2];
          det_class := name;
          det_confidence := conf box;
          det_class_id := cls box;
          det_center := (py_int (float32_div (float32_add x1 x2) 2),
                         py_int (float32_div (float32_add y1 y2) 2));
          det_id := None |}.

(** [detection['id'] = tracking_id]. *)
Definition tagged (detection : Detection) (tracking_id : Z) : Detection :=
  {| det_bbox := det_bbox detection;
     det_class := det_class detection;
     det_confidence := det_confidence detection;
     det_class_id := det_class_id detection;
     det_center := det_center detection;
     det_id := Some tracking_id |}.

(** A detection without its ['id']. *)
Definition untagged (detection : Detection) : Detection :=
  {| det_bbox := det_bbox detection;
     det_class := det_class detection;
     det_confidence := det_confidence detection;
     det_class_id := det_class_id detection;
     det_center := det_center detection;
     det_id := None |}.

(** [self.total_detections += 1]. *)
Definition counted (self : VehicleDetector) : VehicleDetector :=
  {| tracked_vehicles := tracked_vehicles self;
     next_vehicle_id := next_vehicle_id self;
     total_detections := total_detections self + 1 |}.

(** The centers of the live tracks, in table order. *)
Definition track_centers (self : VehicleDetector) : list (Z * Z) :=
  (λ item, center item.2) <$> tracked_vehicles self.

(** The operations of the public interface: whole frames and cleanups. *)
Definition is_public (op : operation) : Prop :=
  match op with
  | Assign _ _ => False
  | Detect _ | Cleanup _ => True
  end.

(** The track table lists the identities in strictly increasing order. *)
Definition table_sorted (self : VehicleDetector) : Prop :=
  StronglySorted Z.lt (live_ids self).

(** No two live tracks have the same center. *)
Definition centers_distinct (self : VehicleDetector) : Prop :=
  NoDup (track_centers self).

(** A tracker with two tracks, at (0,0) and (60,0). *)
Definition two_tracks : VehicleDetector :=
  run init [Assign (detection_at 0 0) 0%Q; Assign (detection_at 60 0) 0%Q].

(** A box whose corners are in order: [x1 <= x2] and [y1 <= y2]. *)
Definition corners_ordered (box : Box) : Prop :=
  let '(x1, y1, x2, y2) := xyxy box in (x1 <= x2)%Q ∧ (y1 <= y2)%Q.

(** A box as the model predicts it on a frame: its coordinates are finite
    [float32] values and the two sums of [detect_vehicles] stay within
    [float32_max], so that [int] is applied to finite numbers. *)
Definition box_in_range (box : Box) : Prop :=
  let '(x1, y1, x2, y2) := xyxy box in
  Forall (λ x, is_float32 x = true) [x1; y1; x2; y2] ∧
  (Qabs (float32_add x1 x2) <= float32_max)%Q ∧
  (Qabs (float32_add y1 y2) <= float32_max)%Q.

(** A frame all of whose boxes are in range. *)
Definition frame_in_range (frame : list (Box * Q)) : Prop :=
  Forall (λ input, box_in_range input.1) frame.

(** [x] is an integer of magnitude below [2^24] times a power of two of
    exponent at least [-149]. *)
Definition representable (x : Q) : Prop :=
  ∃ m e : Z, (x == inject_Z m * 2 ^ e)%Q ∧ Z.abs m < 2 ^ 24 ∧ -149 ≤ e.

(** A box of class car with corners that are not whole pixels, and a frame
    that holds it. *)
Definition subpixel_box : Box :=
  {| xyxy := (629 # 2, 100, 10338303 # 32768, 120)%Q; conf := 9 # 10; cls := 2 |}.

Definition subpixel_frame : list (Box * Q) := [(subpixel_box, 0%Q)].

(** The number of live tracks never exceeds the number of identities
    handed out, which never exceeds the number of detections counted. *)
Definition tracks_bounded (self : VehicleDetector) : Prop :=
  Z.of_nat (length (tracked_vehicles self)) ≤ next_vehicle_id self ∧
  next_vehicle_id self ≤ total_detections self.

(** ** Definitions for further properties of the planner *)

(** Every entry's density level is the classification of its count, as in
    the results of [process_direction_image]. *)
Definition classified (traffic_analysis : TrafficAnalysis) : Prop :=
  Forall (λ item, density item.2 = _classify_density (count item.2)) traffic_analysis.

(** The summary with its entries re-inserted in planned order. *)
Definition in_planned_order (traffic_analysis : TrafficAnalysis) : TrafficAnalysis :=
  sorted tuple_lt sequence_key true traffic_analysis.

(** ** Processing of uploads ([web_processor.py], [app.py]) *)

(** The exceptions these functions raise. *)
Inductive exception : Type :=
  | ValueError (message : string)
  | ZeroDivisionError
  | IndexError.

Inductive outcome (A : Type) : Type :=
  | Return (a : A)
  | Raise (e : exception).
Arguments Return {A} a.
Arguments Raise {A} e.

#[global] Instance outcome_ret : MRet outcome := λ A a, Return a.
#[global] Instance outcome_bind : MBind outcome := λ A B f r,
  match r with
  | Return a => f a
  | Raise e => Raise e
  end.

(** A frame, as far as the processing looks at it: the boxes the model
    predicts on it, each with the clock reading of its tracking call. *)
Definition Frame : Type := list (Box * Q).

(** The dict [process_direction_image] returns, without the annotated
    picture. *)
Record ImageResult := mkImageResult {
  image_direction : string;
  image_vehicle_count : Z;
  image_density_level : string;
  image_detections : list Detection
}.

(** [process_direction_image] ([web_processor.py], lines 112-149);
    [frame] is what [cv2.imread(image_path)] returned, [None] for a file
    that cannot be read.  The detector is the processor's only one, shared
    by all directions.  The analyzer the function creates on first use and
    the drawing of the boxes do not enter the result's count and level and
    are left out. *)
Definition process_direction_image (detector : VehicleDetector)
    (frame : option Frame) (image_path direction : string)
    : outcome (VehicleDetector * ImageResult) :=
  match frame with
  | None => Raise (ValueError (String.append "Cannot read image: " image_path))
  | Some frame =>
      let '(detector, detections) := detect_vehicles detector frame in
      let vehicle_count := Z.of_nat (length detections) in
      let density := _classify_density vehicle_count in
      Return (detector,
              {| image_direction := direction;
                 image_vehicle_count := vehicle_count;
                 image_density_level := density;
                 image_detections := detections |})
  end.

(** The values of [direction_results] that [aggregate_results] reads: of a
    video result ['average_vehicles'] and ['density_level'], of an image
    result ['vehicle_count'] and ['density_level']. *)
Inductive DirectionResult : Type :=
  | FromVideo (average_vehicles : Q) (density_level : string)
  | FromImage (result : ImageResult).

(** [d[k] = v] on an insertion-ordered dict with keys of any type. *)
Fixpoint dict_setitem {K V} `{EqDecision K} (k : K) (v : V) (d : list (K * V))
    : list (K * V) :=
  match d with
  | [] => [(k, v)]
  | (k', v') :: d' =>
      if decide (k = k') then (k, v) :: d' else (k', v') :: dict_setitem k v d'
  end.

(** The body of the loop of [aggregate_results] ([web_processor.py], lines
    164-174). *)
Definition analyse_direction (traffic_analysis : TrafficAnalysis)
    (item : string * DirectionResult) : TrafficAnalysis :=
  let '(direction, result) := item in
  let count :=
    match result with
    | FromVideo average_vehicles _ => py_int average_vehicles
    | FromImage r => image_vehicle_count r
    end in
  let density_level :=
    match result with
    | FromVideo _ density_level => density_level
    | FromImage r => image_density_level r
    end in
  dict_setitem direction {| count := count; density := density_level |} traffic_analysis.

(** The [traffic_analysis] that [aggregate_results] builds and hands to
    the controller and to [_generate_signal_recommendations]. *)
Definition build_traffic_analysis (direction_results : list (string * DirectionResult))
    : TrafficAnalysis :=
  foldl analyse_direction [] direction_results.

(** An uploaded image: its path and what reading it gives. *)
Definition Upload : Type := string * option Frame.

(** The loop of [process_simulation] ([app.py], lines 165-176) in image
    mode, over [uploaded_files.items()]. *)
Fixpoint process_images (detector : VehicleDetector)
    (direction_results : list (string * DirectionResult))
    (uploaded_files : list (string * Upload))
    : outcome (VehicleDetector * list (string * DirectionResult)) :=
  match uploaded_files with
  | [] => mret (detector, direction_results)
  | (direction, (filepath, frame)) :: rest =>
      '(detector, result) ← process_direction_image detector frame filepath direction;
      process_images detector
        (dict_setitem direction (FromImage result) direction_results) rest
  end.

(** The number of boxes of a frame that are of a vehicle class. *)
Definition vehicles_in (frame : Frame) : Z :=
  Z.of_nat (length (omap detection_of frame.*1)).

(** The entry of the traffic analysis that belongs to a readable image. *)
Definition analysis_of_frame (frame : Frame) : Analysis :=
  {| count := vehicles_in frame; density := _classify_density (vehicles_in frame) |}.

(** The uploads that can be read, with their frames. *)
Definition readable (uploaded_files : list (string * Upload))
    : list (string * Frame) :=
  omap (λ item : string * Upload, frame ← item.2.2; Some (item.1, frame)) uploaded_files.

(** The entry [aggregate_results] stores for a direction's result. *)
Definition analysis_entry (result : DirectionResult) : Analysis :=
  match result with
  | FromVideo average_vehicles density_level =>
      {| count := py_int average_vehicles; density := density_level |}
  | FromImage r =>
      {| count := image_vehicle_count r; density := image_density_level r |}
  end.

(** The directions [upload_file] accepts ([app.py], line 98). *)
Definition DIRECTIONS : list string := ["NORTH"; "SOUTH"; "EAST"; "WEST"].

(** ** The frame loop of [process_direction_video] ([web_processor.py],
    lines 46-93) *)

(** An opened capture, as far as the loop looks at it: whether it opened,
    [int(cap.get(cv2.CAP_PROP_FRAME_COUNT))], and the frames that
    successive [cap.read()] calls return before the first failing one. *)
Record VideoCapture := mkVideoCapture {
  is_opened : bool;
  total_frames : Z;
  frames : list Frame
}.

(** The variables of the loop; a sample frame is recorded by its index. *)
Record FrameLoop := mkFrameLoop {
  loop_detector : VehicleDetector;
  all_detections : list Detection;
  vehicle_counts : list Z;
  frame_count : Z;
  sample_frames : list Z
}.

(** The [while frame_count < max_frames] loop.  An exhausted capture
    ([cap.read()] returning [ret = False]) and a false loop condition both
    end it with the variables as they are. *)
Fixpoint frame_loop (max_frames frame_skip : Z) (remaining : list Frame)
    (st : FrameLoop) : FrameLoop :=
  match remaining with
  | [] => st
  | frame :: remaining' =>
      if frame_count st <? max_frames then
        let ret := true in
        if negb (frame_count st `mod` frame_skip =? 0) then
          frame_loop max_frames frame_skip remaining'
            {| loop_detector := loop_detector st;
               all_detections := all_detections st;
               vehicle_counts := vehicle_counts st;
               frame_count := frame_count st + 1;
               sample_frames := sample_frames st |}
        else
          let '(detector, detections) := detect_vehicles (loop_detector st) frame in
          frame_loop max_frames frame_skip remaining'
            {| loop_detector := detector;
               all_detections := all_detections st ++ detections;
               vehicle_counts := vehicle_counts st ++ [Z.of_nat (length detections)];
               frame_count := frame_count st + 1;
               sample_frames :=
                 if (frame_count st =? 0) || (frame_count st =? max_frames `div` 2)
                    || negb ret
                 then sample_frames st ++ [frame_count st]
                 else sample_frames st |}
      else st
  end.

(** [process_direction_video] up to [cap.release()]: the check that the
    capture opened, [frame_skip = max(1, total_frames // max_frames)] and
    the loop.  The statistics computed afterwards from [vehicle_counts]
    with [np.mean] are floating-point and are not part of this function. *)
Definition process_video_frames (detector : VehicleDetector) (cap : VideoCapture)
    (video_path : string) (max_frames : Z) : outcome FrameLoop :=
  if negb (is_opened cap)
  then Raise (ValueError (String.append "Cannot open video: " video_path))
  else
    quotient ← (if max_frames =? 0 then Raise ZeroDivisionError
                else Return (total_frames cap `div` max_frames));
    let frame_skip := Z.max 1 quotient in
    Return (frame_loop max_frames frame_skip (frames cap)
              {| loop_detector := detector;
                 all_detections := [];
                 vehicle_counts := [];
                 frame_count := 0;
                 sample_frames := [] |}).

(** [max(vehicle_counts) if vehicle_counts else 0]. *)
Definition max_vehicles (vehicle_counts : list Z) : Z :=
  match vehicle_counts with
  | [] => 0
  | first :: rest => foldl Z.max first rest
  end.

(** The frames whose index, counted from [index], is a multiple of
    [frame_skip]. *)
Fixpoint every_nth (frame_skip index : Z) (remaining : list Frame) : list Frame :=
  match remaining with
  | [] => []
  | frame :: remaining' =>
      if index `mod` frame_skip =? 0
      then frame :: every_nth frame_skip (index + 1) remaining'
      else every_nth frame_skip (index + 1) remaining'
  end.

(** The sum of a list of counts. *)
Definition sum_counts (vehicle_counts : list Z) : Z := foldr Z.add 0 vehicle_counts.

(** ** Allowed uploads ([app.py], lines 23-48)

    A [str] is its sequence of bytes; [lower] lowers the ASCII letters,
    which is what [str.lower] does on a string of ASCII characters. *)

Definition ALLOWED_VIDEO_EXTENSIONS : list string := ["mp4"; "avi"; "mov"; "mkv"].
Definition ALLOWED_IMAGE_EXTENSIONS : list string := ["jpg"; "jpeg"; "png"; "bmp"].

(** ['.' in s]. *)
Fixpoint contains_dot (s : string) : bool :=
  match s with
  | EmptyString => false
  | String c s' => Ascii.eqb c "."%char || contains_dot s'
  end.

(** The parts of [s] before and after its last ['.'], if it has one. *)
Fixpoint rpartition_dot (s : string) : option (string * string) :=
  match s with
  | EmptyString => None
  | String c s' =>
      match rpartition_dot s' with
      | Some (before, after) => Some (String c before, after)
      | None => if Ascii.eqb c "."%char then Some (EmptyString, s') else None
      end
  end.

(** [s.rsplit('.', 1)]. *)
Definition rsplit_dot (s : string) : list string :=
  match rpartition_dot s with
  | Some (before, after) => [before; after]
  | None => [s]
  end.

(** [l[i]] on a list. *)
Definition list_index {A} (l : list A) (i : nat) : outcome A :=
  match l !! i with
  | Some x => Return x
  | None => Raise IndexError
  end.

Definition lower_char (c : Ascii.ascii) : Ascii.ascii :=
  let n := Ascii.nat_of_ascii c in
  if (65 <=? n)%nat && (n <=? 90)%nat then Ascii.ascii_of_nat (n + 32) else c.

(** [s.lower()]. *)
Fixpoint lower (s : string) : string :=
  match s with
  | EmptyString => EmptyString
  | String c s' => String (lower_char c) (lower s')
  end.

(** Every character of the string is an ASCII character. *)
Fixpoint is_ascii (s : string) : bool :=
  match s with
  | EmptyString => true
  | String c s' => (Ascii.nat_of_ascii c <? 128)%nat && is_ascii s'
  end.

Definition allowed_file (filename file_type : string) : outcome bool :=
  if negb (contains_dot filename) then Return false
  else
    ext ← list_index (rsplit_dot filename) 1;
    let ext := lower ext in
    if String.eqb file_type "video"
    then Return (bool_decide (ext ∈ ALLOWED_VIDEO_EXTENSIONS))
    else if String.eqb file_type "image"
    then Return (bool_decide (ext ∈ ALLOWED_IMAGE_EXTENSIONS))
    else Return (bool_decide (ext ∈ ALLOWED_VIDEO_EXTENSIONS)
                 || bool_decide (ext ∈ ALLOWED_IMAGE_EXTENSIONS)).


(** ** Theorems: density classifier *)

(** C1: for every non-negative count the classifier returns LOW up to 5,
    MEDIUM from 6 to 15, HIGH from 16 to 25 and CRITICAL from 26 on; the
    seven boundary values of the spec are instances. *)
Theorem classify_density_boundaries (count : Z) (Hnonneg : 0 ≤ count) :
  (count ≤ 5 → _classify_density count = "LOW") ∧
  (6 ≤ count ≤ 15 → _classify_density count = "MEDIUM") ∧
  (16 ≤ count ≤ 25 → _classify_density count = "HIGH") ∧
  (26 ≤ count → _classify_density count = "CRITICAL") ∧
  _classify_density 0 = "LOW" ∧
  _classify_density 5 = "LOW" ∧
  _classify_density 6 = "MEDIUM" ∧
  _classify_density 15 = "MEDIUM" ∧
  _classify_density 16 = "HIGH" ∧
  _classify_density 25 = "HIGH" ∧
  _classify_density 26 = "CRITICAL".
Proof.
  unfold _classify_density.
  repeat split; try reflexivity; intros Hc;
    repeat (case_match; try lia); reflexivity.
Qed.

Lemma classify_density_boundaries_witness :
  0 ≤ 7 ∧ _classify_density 7 = "MEDIUM".
Proof.
  split; [lia |].
  apply (classify_density_boundaries 7); lia.
Defined.

(** The classifier has no failing path: every integer, negative ones
    included, is mapped to a level. *)
Lemma classify_density_total (count : Z) : returns_level count.
Proof.
  unfold returns_level, _classify_density, DENSITY_LEVELS.
  repeat case_match; set_solver.
Qed.

(** C9 (as stated, refuted): it is not the case that classification of a
    negative count fails to return a density level; [-1] is classified. *)
Lemma classify_density_negative_not_rejected :
  ¬ (∀ count : Z, count < 0 → ¬ returns_level count).
Proof.
  intros Hclaim. apply (Hclaim (-1)); [lia |].
  apply classify_density_total.
Qed.

(** C9 (amended): the classifier is total over all integers and every
    negative count is classified LOW, exactly like the counts 0 to 5. *)
Theorem classify_density_negative_is_low (count : Z) (Hneg : count < 0) :
  _classify_density count = "LOW" ∧ returns_level count.
Proof.
  split; [| apply classify_density_total].
  unfold _classify_density. case_match; [reflexivity | lia].
Qed.

Lemma classify_density_negative_is_low_witness :
  -1 < 0 ∧ _classify_density (-1) = "LOW".
Proof.
  split; [lia |].
  apply (classify_density_negative_is_low (-1)); lia.
Defined.


(** ** Theorems: [sorted] *)

Lemma before_cons {A} (a b x : A) (l : list A) :
  before a b l → before a b (x :: l).
Proof.
  intros (l1 & l2 & l3 & ->). exists (x :: l1), l2, l3. reflexivity.
Qed.

Lemma before_head {A} (a b : A) (l : list A) : b ∈ l → before a b (a :: l).
Proof.
  intros Hin. destruct (list_elem_of_split _ _ Hin) as (l2 & l3 & ->).
  exists [], l2, l3. reflexivity.
Qed.

Lemma before_inv_cons {A} (a b x : A) (l : list A) :
  before a b (x :: l) → (a = x ∧ b ∈ l) ∨ before a b l.
Proof.
  intros (l1 & l2 & l3 & Heq). destruct l1 as [| z l1]; simplify_eq/=.
  - left. split; [reflexivity | set_solver].
  - right. exists l1, l2, l3. reflexivity.
Qed.

Lemma before_middle {A} (a b x : A) (l1 l2 : list A) :
  before a b (l1 ++ l2) → before a b (l1 ++ x :: l2).
Proof.
  revert l2. induction l1 as [| z l1 IH]; intros l2 Hb; simpl in *.
  - apply before_cons, Hb.
  - apply before_inv_cons in Hb as [[-> Hin] | Hb].
    + apply before_head.
      rewrite elem_of_app in Hin. rewrite elem_of_app, elem_of_cons. tauto.
    + apply before_cons, IH, Hb.
Qed.

Lemma before_fmap {A B} (f : A → B) (a b : A) (l : list A) :
  before a b l → before (f a) (f b) (f <$> l).
Proof.
  intros (l1 & l2 & l3 & ->).
  exists (f <$> l1), (f <$> l2), (f <$> l3).
  rewrite !fmap_app, !fmap_cons, !fmap_app, !fmap_cons. reflexivity.
Qed.

Lemma StronglySorted_lookup {A} (R : A → A → Prop) (l : list A) i j x y :
  StronglySorted R l → (i < j)%nat → l !! i = Some x → l !! j = Some y → R x y.
Proof.
  intros Hs. revert i j. induction Hs as [| z l Hs IH Hall]; intros i j Hij Hi Hj.
  - rewrite lookup_nil in Hi. discriminate.
  - destruct j as [| j]; [lia |]. destruct i as [| i]; simplify_eq/=.
    + rewrite Forall_forall in Hall. apply Hall.
      eapply list_elem_of_lookup_2, Hj.
    + apply (IH i j); [lia | assumption..].
Qed.

Section sorted_facts.
Context {A K : Type} (lt : K → K → bool) (key : A → K) (reverse : bool).

(** [lt] is a strict weak order: asymmetric and negatively transitive. *)
Hypothesis lt_asym : ∀ a b, lt a b = true → lt b a = false.
Hypothesis lt_negtrans : ∀ a b c, lt a b = false → lt b c = false → lt a c = false.

Abbreviation after := (placed_after lt key reverse).
Abbreviation insert := (insert_stable lt key reverse).

Lemma placed_after_asym x y : after x y = true → after y x = false.
Proof. unfold placed_after. destruct reverse; apply lt_asym. Qed.

Lemma placed_after_negtrans x y z :
  after x y = false → after y z = false → after x z = false.
Proof. unfold placed_after. destruct reverse; eauto. Qed.

(** Insertion puts [x] behind the entries it has to follow and in front
    of all the others. *)
Lemma insert_stable_split x l :
  ∃ l1 l2, l = l1 ++ l2 ∧ insert x l = l1 ++ x :: l2 ∧
    Forall (λ y, after x y = true) l1 ∧
    (∀ y, head l2 = Some y → after x y = false).
Proof.
  induction l as [| y l IH]; simpl.
  - exists [], []. repeat split; [constructor | intros ? [=]].
  - destruct (after x y) eqn:Hxy.
    + destruct IH as (l1 & l2 & -> & -> & Hall & Hhd).
      exists (y :: l1), l2. repeat split; [constructor; assumption | assumption].
    + exists [], (y :: l). repeat split; [constructor |].
      intros ? [= <-]. assumption.
Qed.

Lemma insert_stable_Permutation x l : insert x l ≡ₚ x :: l.
Proof.
  destruct (insert_stable_split x l) as (l1 & l2 & -> & -> & _).
  symmetry. apply Permutation_middle.
Qed.

Lemma sorted_Permutation l : sorted lt key reverse l ≡ₚ l.
Proof.
  induction l as [| x l IH]; simpl; [reflexivity |].
  rewrite insert_stable_Permutation. f_equiv. exact IH.
Qed.

Lemma insert_stable_StronglySorted x l :
  StronglySorted (λ a b, after a b = false) l →
  StronglySorted (λ a b, after a b = false) (insert x l).
Proof.
  intros Hs. destruct (insert_stable_split x l) as (l1 & l2 & -> & -> & Hall & Hhd).
  apply StronglySorted_app in Hs as (Hcross & Hs1 & Hs2).
  apply StronglySorted_app. split_and!; [| assumption |].
  - intros a b Ha Hb. apply elem_of_cons in Hb as [-> | Hb].
    + rewrite Forall_forall in Hall. apply placed_after_asym, Hall, Ha.
    + apply Hcross; assumption.
  - apply StronglySorted_cons. split; [| assumption].
    destruct l2 as [| y l2]; [constructor |].
    specialize (Hhd y eq_refl).
    apply StronglySorted_cons in Hs2 as [Hy _].
    constructor; [assumption |].
    eapply Forall_impl; [exact Hy |]. simpl. intros z Hyz.
    eapply placed_after_negtrans; eassumption.
Qed.

(** The result is ordered: no entry has to follow a later one. *)
Lemma sorted_StronglySorted l :
  StronglySorted (λ a b, after a b = false) (sorted lt key reverse l).
Proof.
  induction l as [| x l IH]; simpl; [constructor |].
  apply insert_stable_StronglySorted, IH.
Qed.

Lemma insert_stable_before_new x y l :
  y ∈ l → StronglySorted (λ a b, after a b = false) l →
  after x y = false → before x y (insert x l).
Proof.
  intros Hin Hs Hxy.
  destruct (insert_stable_split x l) as (l1 & l2 & -> & -> & Hall & _).
  apply elem_of_app in Hin as [Hin | Hin].
  - rewrite Forall_forall in Hall. specialize (Hall y Hin). congruence.
  - destruct (list_elem_of_split _ _ Hin) as (l3 & l4 & ->).
    exists l1, l3, l4. reflexivity.
Qed.

Lemma insert_stable_before_old a b x l :
  before a b l → before a b (insert x l).
Proof.
  intros Hb. destruct (insert_stable_split x l) as (l1 & l2 & -> & -> & _).
  apply before_middle, Hb.
Qed.

(** Stability: an entry that does not have to follow a later one stays in
    front of it. *)
Lemma sorted_stable a b l :
  before a b l → after a b = false → before a b (sorted lt key reverse l).
Proof.
  intros Hb Hab. induction l as [| x l IH]; simpl.
  - destruct Hb as (l1 & l2 & l3 & Heq). destruct l1; discriminate.
  - apply before_inv_cons in Hb as [[-> Hin] | Hb].
    + apply insert_stable_before_new; [| apply sorted_StronglySorted | assumption].
      rewrite sorted_Permutation. assumption.
    + apply insert_stable_before_old, IH, Hb.
Qed.
End sorted_facts.

Lemma tuple_lt_asym a b : tuple_lt a b = true → tuple_lt b a = false.
Proof.
  unfold tuple_lt. destruct a as [a1 a2], b as [b1 b2]; simpl.
  repeat case_match; lia.
Qed.

Lemma tuple_lt_negtrans a b c :
  tuple_lt a b = false → tuple_lt b c = false → tuple_lt a c = false.
Proof.
  unfold tuple_lt. destruct a as [a1 a2], b as [b1 b2], c as [c1 c2]; simpl.
  repeat case_match; lia.
Qed.

(** ** Theorems: sequence planner *)

Lemma sequence_key_ranks_before (x y : string * Analysis) :
  placed_after tuple_lt sequence_key true x y = false → ranks_before x.2 y.2.
Proof.
  unfold placed_after, tuple_lt, sequence_key, ranks_before, density_rank. simpl.
  repeat case_match; lia.
Qed.

Lemma as_mapping_lookup (ta : TrafficAnalysis) direction data :
  NoDup ta.*1 → (direction, data) ∈ ta → as_mapping ta !! direction = Some data.
Proof. intros Hnd Hin. apply elem_of_list_to_map_1; assumption. Qed.

(** C2: for a non-empty summary the planner returns a permutation of
    exactly the directions present, ordered by density rank descending
    (CRITICAL > HIGH > MEDIUM > LOW) and then by vehicle count descending;
    the spec's example is planned as NORTH, EAST, WEST, SOUTH. *)
Theorem calculate_optimal_sequence_sorted (ta : TrafficAnalysis)
    (Hnonempty : ta ≠ []) (Hkeys : NoDup ta.*1) :
  let sequence := _calculate_optimal_sequence ta in
  sequence ≡ₚ ta.*1 ∧
  length sequence = length ta ∧
  (∀ i j di dj ai aj,
     (i < j)%nat → sequence !! i = Some di → sequence !! j = Some dj →
     as_mapping ta !! di = Some ai → as_mapping ta !! dj = Some aj →
     ranks_before ai aj) ∧
  density_rank "LOW" < density_rank "MEDIUM" < density_rank "HIGH" ∧
  density_rank "HIGH" < density_rank "CRITICAL" ∧
  _calculate_optimal_sequence example_summary = ["NORTH"; "EAST"; "WEST"; "SOUTH"].
Proof.
  intros sequence. subst sequence. unfold _calculate_optimal_sequence.
  pose proof (sorted_Permutation tuple_lt sequence_key true ta) as Hperm.
  split_and!.
  - rewrite Hperm. reflexivity.
  - rewrite length_fmap, Hperm. reflexivity.
  - intros i j di dj ai aj Hij Hi Hj Hai Haj.
    apply list_lookup_fmap_Some_1 in Hi as ([di' ai'] & -> & Hi).
    apply list_lookup_fmap_Some_1 in Hj as ([dj' aj'] & -> & Hj).
    simpl in *.
    assert (as_mapping ta !! di' = Some ai') as Hai'.
    { apply as_mapping_lookup; [assumption |].
      rewrite <- Hperm. eapply list_elem_of_lookup_2, Hi. }
    assert (as_mapping ta !! dj' = Some aj') as Haj'.
    { apply as_mapping_lookup; [assumption |].
      rewrite <- Hperm. eapply list_elem_of_lookup_2, Hj. }
    simplify_eq.
    apply (sequence_key_ranks_before (di', ai) (dj', aj)).
    eapply (StronglySorted_lookup
              (λ a b, placed_after tuple_lt sequence_key true a b = false) _ i j);
      [| exact Hij | exact Hi | exact Hj].
    apply sorted_StronglySorted; [apply tuple_lt_asym | apply tuple_lt_negtrans].
  - vm_compute. split; reflexivity.
  - vm_compute. reflexivity.
  - vm_compute. reflexivity.
  - vm_compute. reflexivity.
Qed.

Lemma calculate_optimal_sequence_sorted_witness :
  let ta := [("EAST", mkAnalysis 7 "MEDIUM"); ("WEST", mkAnalysis 12 "MEDIUM")] in
  ta ≠ [] ∧ NoDup ta.*1 ∧ _calculate_optimal_sequence ta ≡ₚ ["EAST"; "WEST"].
Proof.
  intros ta.
  assert (ta ≠ []) as Hnonempty by discriminate.
  assert (NoDup ta.*1) as Hkeys by compute_done.
  split_and!; [assumption.. |].
  exact (proj1 (calculate_optimal_sequence_sorted ta Hnonempty Hkeys)).
Defined.

(** C3 (as stated, refuted): two summaries that are equal as mappings are
    planned differently when their entries were inserted in a different
    order and tie on level and count. *)
Lemma calculate_optimal_sequence_depends_on_insertion_order :
  ¬ (∀ ta1 ta2 : TrafficAnalysis,
       NoDup ta1.*1 → NoDup ta2.*1 → as_mapping ta1 = as_mapping ta2 →
       _calculate_optimal_sequence ta1 = _calculate_optimal_sequence ta2).
Proof.
  intros Hclaim.
  specialize (Hclaim
    [("NORTH", mkAnalysis 2 "LOW"); ("SOUTH", mkAnalysis 2 "LOW")]
    [("SOUTH", mkAnalysis 2 "LOW"); ("NORTH", mkAnalysis 2 "LOW")]).
  assert (["NORTH"; "SOUTH"] = ["SOUTH"; "NORTH"]) as Heq; [| discriminate Heq].
  apply Hclaim.
  - compute_done.
  - compute_done.
  - vm_compute. reflexivity.
Qed.

(** C3 (amended): the planner is a function of the summary's entries in
    their insertion order, and a tie on both density rank and count is
    broken by that order: of two tied directions, the one inserted first
    is planned first. *)
Theorem calculate_optimal_sequence_stable (ta : TrafficAnalysis)
    (d1 d2 : string) (a1 a2 : Analysis)
    (Horder : before (d1, a1) (d2, a2) ta)
    (Hrank : density_rank (density a1) = density_rank (density a2))
    (Hcount : count a1 = count a2) :
  before d1 d2 (_calculate_optimal_sequence ta).
Proof.
  unfold _calculate_optimal_sequence.
  apply (before_fmap fst (d1, a1) (d2, a2)).
  apply sorted_stable; [apply tuple_lt_asym | apply tuple_lt_negtrans | assumption |].
  unfold placed_after, tuple_lt, sequence_key. simpl.
  fold (density_rank (density a1)). fold (density_rank (density a2)).
  rewrite Hrank, Hcount, Z.eqb_refl. apply Z.ltb_irrefl.
Qed.

Lemma calculate_optimal_sequence_stable_witness :
  before "SOUTH" "NORTH"
    (_calculate_optimal_sequence
       [("SOUTH", mkAnalysis 2 "LOW"); ("EAST", mkAnalysis 9 "MEDIUM");
        ("NORTH", mkAnalysis 2 "LOW")]).
Proof.
  apply (calculate_optimal_sequence_stable _ "SOUTH" "NORTH"
           (mkAnalysis 2 "LOW") (mkAnalysis 2 "LOW")).
  - exists [], [("EAST", mkAnalysis 9 "MEDIUM")], []. reflexivity.
  - reflexivity.
  - reflexivity.
Defined.

(** ** Theorems: recommendations *)

Lemma subscript_low :
  subscript config.SIGNAL_TIMINGS "LOW" = Ok (config.mkTiming 15 3 10).
Proof. vm_compute. reflexivity. Qed.

Lemma recommend_direction_ok recommendations direction data :
  recommend_direction recommendations (direction, data)
  = Ok (<[direction := entry_of (timing_for (density data)) data]> recommendations).
Proof.
  unfold recommend_direction. rewrite subscript_low. reflexivity.
Qed.

(** The loop never raises, and it stores one entry per direction. *)
Lemma for_each_recommend_direction (ta : TrafficAnalysis) (start : gmap string RecValue) :
  NoDup ta.*1 →
  ∃ recs, for_each recommend_direction start ta = Ok recs ∧
    ∀ k, recs !! k =
         match as_mapping ta !! k with
         | Some data => Some (entry_of (timing_for (density data)) data)
         | None => start !! k
         end.
Proof.
  revert start. induction ta as [| [direction data] ta IH]; intros start Hnd.
  - exists start. split; [reflexivity |]. intros k.
    unfold as_mapping. simpl. rewrite lookup_empty. reflexivity.
  - rewrite fmap_cons in Hnd. apply NoDup_cons in Hnd as [Hfresh Hnd].
    cbn [for_each]. rewrite recommend_direction_ok.
    destruct (IH (<[direction := entry_of (timing_for (density data)) data]> start) Hnd)
      as (recs & Hrun & Hrecs).
    exists recs. split; [exact Hrun |]. intros k. rewrite Hrecs.
    unfold as_mapping. cbn [list_to_map foldr fst snd]. fold (as_mapping ta).
    destruct (decide (direction = k)) as [<- | Hne].
    + assert (as_mapping ta !! direction = None) as ->
        by (apply not_elem_of_list_to_map_1; assumption).
      rewrite !lookup_insert_eq. reflexivity.
    + rewrite !lookup_insert_ne by assumption. reflexivity.
Qed.

Lemma generate_signal_recommendations_ok (ta : TrafficAnalysis) :
  NoDup ta.*1 →
  ∃ recs, _generate_signal_recommendations ta = Ok recs ∧
    recs !! "optimal_sequence" = Some (RecSequence (_calculate_optimal_sequence ta)) ∧
    ∀ direction, direction ≠ "optimal_sequence" →
      recs !! direction
      = (λ data, entry_of (timing_for (density data)) data) <$> as_mapping ta !! direction.
Proof.
  intros Hnd. destruct (for_each_recommend_direction ta ∅ Hnd) as (recs & Hrun & Hrecs).
  exists (<["optimal_sequence" := RecSequence (_calculate_optimal_sequence ta)]> recs).
  unfold _generate_signal_recommendations. rewrite Hrun. split_and!.
  - reflexivity.
  - apply lookup_insert_eq.
  - intros direction Hne. rewrite lookup_insert_ne by congruence.
    rewrite Hrecs. destruct (as_mapping ta !! direction); [reflexivity |].
    apply lookup_empty.
Qed.

Lemma timing_for_level density timing :
  config.SIGNAL_TIMINGS !! density = Some timing → timing_for density = timing.
Proof. unfold timing_for, dict_get_default. intros ->. reflexivity. Qed.

Lemma unexpected_density_absent density :
  density ∉ DENSITY_LEVELS →
  config.SIGNAL_TIMINGS !! density = None ∧ density_priority !! density = None.
Proof.
  unfold DENSITY_LEVELS. rewrite !not_elem_of_cons. intros (Hl & Hm & Hh & Hc & _).
  unfold config.SIGNAL_TIMINGS, density_priority.
  rewrite !lookup_insert_ne, !lookup_empty by congruence. split; reflexivity.
Qed.

(** C7: for a non-empty input with any number of directions, the
    recommendations are produced without error, have an entry for exactly
    the directions present, each with the green and yellow durations of
    the timing table at its density level and their sum as total, and
    carry the planner's sequence. *)
Theorem generate_signal_recommendations_entries (ta : TrafficAnalysis)
    (Hnonempty : ta ≠ []) (Hkeys : NoDup ta.*1) :
  ∃ recs, _generate_signal_recommendations ta = Ok recs ∧
    recs !! "optimal_sequence" = Some (RecSequence (_calculate_optimal_sequence ta)) ∧
    (∀ direction, direction ≠ "optimal_sequence" →
       (is_Some (recs !! direction) ↔ direction ∈ ta.*1)) ∧
    (∀ direction data timing,
       direction ≠ "optimal_sequence" →
       as_mapping ta !! direction = Some data →
       config.SIGNAL_TIMINGS !! density data = Some timing →
       recs !! direction = Some (RecEntry {|
         density_level := density data;
         vehicle_count := count data;
         green_duration := config.green timing;
         yellow_duration := config.yellow timing;
         total_duration := config.green timing + config.yellow timing |})) ∧
    (∀ direction r, recs !! direction = Some (RecEntry r) →
       total_duration r = green_duration r + yellow_duration r).
Proof.
  destruct (generate_signal_recommendations_ok ta Hkeys) as (recs & Hrun & Hseq & Hrecs).
  exists recs. split_and!; [assumption.. | | |].
  - intros direction Hne. rewrite (Hrecs direction Hne), fmap_is_Some.
    unfold as_mapping. rewrite <- elem_of_dom, dom_list_to_map_L, elem_of_list_to_set.
    reflexivity.
  - intros direction data timing Hne Hdata Htiming.
    rewrite (Hrecs direction Hne), Hdata. simpl.
    rewrite (timing_for_level _ _ Htiming). reflexivity.
  - intros direction r Hr.
    destruct (decide (direction = "optimal_sequence")) as [-> | Hne]; [congruence |].
    rewrite (Hrecs direction Hne) in Hr.
    destruct (as_mapping ta !! direction) as [data |]; [| discriminate Hr].
    unfold entry_of in Hr. simpl in Hr. injection Hr as <-. reflexivity.
Qed.

Lemma generate_signal_recommendations_entries_witness :
  let ta := [("NORTH", mkAnalysis 18 "HIGH"); ("WEST", mkAnalysis 3 "LOW")] in
  ta ≠ [] ∧ NoDup ta.*1 ∧
  ∃ recs, _generate_signal_recommendations ta = Ok recs ∧
    recs !! "optimal_sequence" = Some (RecSequence (_calculate_optimal_sequence ta)).
Proof.
  intros ta.
  assert (ta ≠ []) as Hnonempty by discriminate.
  assert (NoDup ta.*1) as Hkeys by compute_done.
  split_and!; [assumption.. |].
  destruct (generate_signal_recommendations_entries ta Hnonempty Hkeys)
    as (recs & Hrun & Hseq & _).
  exists recs. split; assumption.
Defined.

(** C8 (as stated, refuted): an input whose density value is none of the
    four level names is not rejected; the recommendations are returned. *)
Lemma unexpected_density_not_rejected :
  ¬ (∀ ta : TrafficAnalysis,
       NoDup ta.*1 →
       (∃ direction data, (direction, data) ∈ ta ∧ density data ∉ DENSITY_LEVELS) →
       ∃ k, _generate_signal_recommendations ta = KeyError k).
Proof.
  intros Hclaim.
  destruct (Hclaim [("NORTH", mkAnalysis 3 "BOGUS")]) as (k & Herr).
  - compute_done.
  - exists "NORTH", (mkAnalysis 3 "BOGUS"). split; [set_solver |].
    unfold DENSITY_LEVELS. simpl. rewrite !not_elem_of_cons.
    split_and!; [discriminate.. | apply not_elem_of_nil].
  - vm_compute in Herr. discriminate Herr.
Qed.

(** C8 (amended): a density value that is none of the four level names is
    treated like an absent key: its direction gets the LOW timings (green
    15, yellow 3, total 18) and the planner ranks it 0, below LOW; no
    input is rejected. *)
Theorem unexpected_density_defaults_to_low (ta : TrafficAnalysis)
    (direction : string) (data : Analysis)
    (Hkeys : NoDup ta.*1)
    (Hdirection : direction ≠ "optimal_sequence")
    (Hdata : as_mapping ta !! direction = Some data)
    (Hunexpected : density data ∉ DENSITY_LEVELS) :
  density_rank (density data) = 0 ∧
  density_rank (density data) < density_rank "LOW" ∧
  ∃ recs, _generate_signal_recommendations ta = Ok recs ∧
    recs !! direction = Some (RecEntry {|
      density_level := density data;
      vehicle_count := count data;
      green_duration := 15;
      yellow_duration := 3;
      total_duration := 18 |}).
Proof.
  destruct (unexpected_density_absent _ Hunexpected) as [Htiming Hpriority].
  assert (density_rank (density data) = 0) as Hrank.
  { unfold density_rank, dict_get_default. rewrite Hpriority. reflexivity. }
  split_and!; [exact Hrank | rewrite Hrank; reflexivity |].
  destruct (generate_signal_recommendations_ok ta Hkeys) as (recs & Hrun & _ & Hrecs).
  exists recs. split; [exact Hrun |].
  rewrite (Hrecs direction Hdirection), Hdata. simpl.
  unfold entry_of, timing_for, dict_get_default. rewrite Htiming. reflexivity.
Qed.

Lemma unexpected_density_defaults_to_low_witness :
  ∃ recs, _generate_signal_recommendations [("NORTH", mkAnalysis 3 "BOGUS")] = Ok recs ∧
    recs !! "NORTH" = Some (RecEntry {|
      density_level := "BOGUS";
      vehicle_count := 3;
      green_duration := 15;
      yellow_duration := 3;
      total_duration := 18 |}).
Proof.
  refine (proj2 (proj2 (unexpected_density_defaults_to_low
    [("NORTH", mkAnalysis 3 "BOGUS")] "NORTH" (mkAnalysis 3 "BOGUS") _ _ _ _))).
  - compute_done.
  - discriminate.
  - vm_compute. reflexivity.
  - unfold DENSITY_LEVELS. simpl. rewrite !not_elem_of_cons.
    split_and!; [discriminate.. | apply not_elem_of_nil].
Defined.

(** ** Theorems: insertion-ordered dicts *)

Section odict_facts.
Context {V : Type}.
Implicit Types (d : list (Z * V)) (k : Z) (v : V).

Lemma odict_get_set_eq k v d : odict_get k (odict_set k v d) = Some v.
Proof.
  induction d as [| [k' v'] d IH]; simpl.
  - rewrite decide_True by reflexivity. reflexivity.
  - destruct (decide (k = k')) as [-> | Hne]; simpl.
    + rewrite decide_True by reflexivity. reflexivity.
    + rewrite decide_False by assumption. exact IH.
Qed.


Lemma odict_set_keys_old k v d : k ∈ d.*1 → (odict_set k v d).*1 = d.*1.
Proof.
  induction d as [| [k' v'] d IH]; intros Hin.
  - apply elem_of_nil in Hin as [].
  - cbn [odict_set]. rewrite fmap_cons in Hin.
    destruct (decide (k = k')) as [-> | Hne]; [reflexivity |].
    apply elem_of_cons in Hin as [Heq | Hin]; [contradiction |].
    rewrite !fmap_cons, IH by assumption. reflexivity.
Qed.

Lemma odict_set_new k v d : k ∉ d.*1 → odict_set k v d = d ++ [(k, v)].
Proof.
  induction d as [| [k' v'] d IH]; intros Hnin; [reflexivity |].
  rewrite fmap_cons in Hnin. apply not_elem_of_cons in Hnin as [Hne Hnin].
  cbn [odict_set]. rewrite decide_False by assumption.
  rewrite IH by assumption. reflexivity.
Qed.

Lemma odict_get_None k d : odict_get k d = None ↔ k ∉ d.*1.
Proof.
  induction d as [| [k' v'] d IH].
  - split; [intros _; apply not_elem_of_nil | reflexivity].
  - cbn [odict_get]. rewrite fmap_cons, not_elem_of_cons. cbn [fst].
    destruct (decide (k = k')) as [-> | Hne].
    + split; [discriminate | intros [Hne _]; contradiction].
    + rewrite IH. tauto.
Qed.

Lemma odict_get_elem_of k v d : odict_get k d = Some v → (k, v) ∈ d.
Proof.
  induction d as [| [k' v'] d IH]; simpl; [discriminate |].
  destruct (decide (k = k')) as [-> | Hne].
  - intros [= ->]. apply list_elem_of_here.
  - intros Hget. apply list_elem_of_further, IH, Hget.
Qed.

Lemma elem_of_odict_get k v d : NoDup d.*1 → (k, v) ∈ d → odict_get k d = Some v.
Proof.
  induction d as [| [k' v'] d IH]; intros Hnd Hin.
  - apply elem_of_nil in Hin as [].
  - rewrite fmap_cons in Hnd. cbn [odict_get fst].
    apply NoDup_cons in Hnd as [Hfresh Hnd].
    apply elem_of_cons in Hin as [[= -> ->] | Hin].
    + rewrite decide_True by reflexivity. reflexivity.
    + rewrite decide_False; [apply IH; assumption |].
      intros ->. apply Hfresh. apply (list_elem_of_fmap_2 fst _ _ Hin).
Qed.

Lemma odict_del_all (ids : list Z) d :
  foldl (λ d' k, odict_del k d') d ids = filter (λ e, e.1 ∉ ids) d.
Proof.
  revert d. induction ids as [| k ids IH]; intros d; simpl.
  - symmetry. induction d as [| e d IHd]; [reflexivity |].
    rewrite filter_cons_True by apply not_elem_of_nil. rewrite IHd at 1. reflexivity.
  - rewrite IH. unfold odict_del. rewrite list_filter_filter.
    apply list_filter_iff. intros e. rewrite not_elem_of_cons. tauto.
Qed.
End odict_facts.

Lemma filter_ext_elem_of {A} (P1 P2 : A → Prop)
    `{∀ x, Decision (P1 x)} `{∀ x, Decision (P2 x)} (l : list A) :
  (∀ x, x ∈ l → (P1 x ↔ P2 x)) → filter P1 l = filter P2 l.
Proof.
  induction l as [| x l IH]; intros Hext; [reflexivity |].
  rewrite !filter_cons.
  rewrite IH by (intros y Hy; apply Hext, list_elem_of_further, Hy).
  pose proof (Hext x (list_elem_of_here _ _)) as Hx.
  repeat case_decide; tauto.
Qed.

(** ** Theorems: nearest-track matching *)

Lemma squared_distance_nonneg c t : 0 ≤ squared_distance c t.
Proof. unfold squared_distance. nia. Qed.



Lemma distance_lt_max sq :
  distance_lt (Sqrt sq) max_distance = true ↔ sq < config.TRACKING_MAX_DISTANCE ^ 2.
Proof. unfold max_distance. simpl. apply Z.ltb_lt. Qed.

(** What the scan over the live tracks returns: nothing when no track is
    strictly within the threshold, otherwise a nearest track, which is
    within the threshold. *)
Lemma find_closest_spec c (tracks : list (Z * Track)) :
  (find_closest c tracks = (Inf, None) ∧
   ∀ id t, (id, t) ∈ tracks → ¬ within_threshold c t) ∨
  (∃ id t, find_closest c tracks = (Sqrt (squared_distance c (center t)), Some id) ∧
     (id, t) ∈ tracks ∧ within_threshold c t ∧
     ∀ id' t', (id', t') ∈ tracks →
       squared_distance c (center t) ≤ squared_distance c (center t')).
Proof.
  unfold find_closest, within_threshold.
  induction tracks as [| [id1 t1] tracks IH] using rev_ind.
  - left. split; [reflexivity |]. intros id t Hin. apply elem_of_nil in Hin as [].
  - rewrite foldl_snoc.
    destruct IH as [[-> Hnone] | (id & t & -> & Hin & Hwithin & Hmin)];
      cbn [scan_track]; unfold center_distance;
      destruct (distance_lt (Sqrt (squared_distance c (center t1))) max_distance) eqn:Hmax;
      cbn [andb distance_lt].
    + apply distance_lt_max in Hmax. right. exists id1, t1. split_and!.
      * reflexivity.
      * apply elem_of_app. right. apply list_elem_of_here.
      * exact Hmax.
      * intros id' t' [Hin' | Hin']%elem_of_app.
        -- specialize (Hnone _ _ Hin'). lia.
        -- apply list_elem_of_singleton in Hin' as [= -> ->]. lia.
    + left. split; [reflexivity |].
      intros id' t' [Hin' | Hin']%elem_of_app; [eapply Hnone, Hin' |].
      apply list_elem_of_singleton in Hin' as [= -> ->].
      intros Hlt%distance_lt_max. congruence.
    + apply distance_lt_max in Hmax. right.
      destruct (squared_distance c (center t1) <? squared_distance c (center t)) eqn:Hlt.
      * apply Z.ltb_lt in Hlt. exists id1, t1. split_and!.
        -- reflexivity.
        -- apply elem_of_app. right. apply list_elem_of_here.
        -- exact Hmax.
        -- intros id' t' [Hin' | Hin']%elem_of_app.
           ++ specialize (Hmin _ _ Hin'). lia.
           ++ apply list_elem_of_singleton in Hin' as [= -> ->]. lia.
      * apply Z.ltb_ge in Hlt. exists id, t. split_and!.
        -- reflexivity.
        -- apply elem_of_app. left. exact Hin.
        -- exact Hwithin.
        -- intros id' t' [Hin' | Hin']%elem_of_app; [eapply Hmin, Hin' |].
           apply list_elem_of_singleton in Hin' as [= -> ->]. exact Hlt.
    + right. exists id, t. split_and!.
      * reflexivity.
      * apply elem_of_app. left. exact Hin.
      * exact Hwithin.
      * intros id' t' [Hin' | Hin']%elem_of_app; [eapply Hmin, Hin' |].
        apply list_elem_of_singleton in Hin' as [= -> ->].
        assert (¬ squared_distance c (center t1) < config.TRACKING_MAX_DISTANCE ^ 2).
        { intros Hlt%distance_lt_max. congruence. }
        lia.
Qed.

Lemma assign_tracking_id_matched self detection now matched_id :
  (find_closest (det_center detection) (tracked_vehicles self)).2 = Some matched_id →
  _assign_tracking_id self detection now =
    ({| tracked_vehicles :=
          odict_set matched_id (track_of detection now) (tracked_vehicles self);
        next_vehicle_id := next_vehicle_id self;
        total_detections := total_detections self |}, matched_id).
Proof. unfold _assign_tracking_id. intros ->. reflexivity. Qed.

Lemma assign_tracking_id_new self detection now :
  (find_closest (det_center detection) (tracked_vehicles self)).2 = None →
  _assign_tracking_id self detection now =
    ({| tracked_vehicles :=
          odict_set (next_vehicle_id self) (track_of detection now) (tracked_vehicles self);
        next_vehicle_id := next_vehicle_id self + 1;
        total_detections := total_detections self |}, next_vehicle_id self).
Proof. unfold _assign_tracking_id. intros ->. reflexivity. Qed.

Lemma tracker_inv_fresh self :
  tracker_inv self → next_vehicle_id self ∉ live_ids self.
Proof. intros (_ & _ & Hbound) Hin. specialize (Hbound _ Hin). lia. Qed.

(** One assignment either re-uses a live identity or hands out the
    counter, and keeps the invariant. *)
Lemma assign_tracking_id_step self detection now :
  tracker_inv self →
  let r := _assign_tracking_id self detection now in
  tracker_inv r.1 ∧ total_detections r.1 = total_detections self ∧
  ((r.2 ∈ live_ids self ∧ next_vehicle_id r.1 = next_vehicle_id self ∧
    live_ids r.1 = live_ids self) ∨
   (r.2 = next_vehicle_id self ∧ next_vehicle_id r.1 = next_vehicle_id self + 1 ∧
    live_ids r.1 = live_ids self ++ [next_vehicle_id self])).
Proof.
  intros Hinv r. subst r.
  destruct (find_closest_spec (det_center detection) (tracked_vehicles self))
    as [[Hfind _] | (id & t & Hfind & Hin & _)].
  - rewrite assign_tracking_id_new by (rewrite Hfind; reflexivity).
    pose proof (tracker_inv_fresh _ Hinv) as Hfresh.
    unfold tracker_inv, live_ids in *. cbn [fst snd tracked_vehicles next_vehicle_id total_detections].
    rewrite odict_set_new by assumption. rewrite fmap_app. cbn [fmap list_fmap fst].
    destruct Hinv as (Hnd & Hpos & Hbound). split_and!.
    + apply NoDup_app. split_and!; [assumption | | apply NoDup_singleton].
      intros x Hx ->%list_elem_of_singleton. contradiction.
    + lia.
    + intros x [Hx | ->%list_elem_of_singleton]%elem_of_app.
      * specialize (Hbound _ Hx). lia.
      * lia.
    + reflexivity.
    + right. split_and!; reflexivity.
  - rewrite (assign_tracking_id_matched _ _ _ id) by (rewrite Hfind; reflexivity).
    assert (id ∈ live_ids self) as Hlive by apply (list_elem_of_fmap_2 fst _ _ Hin).
    unfold tracker_inv, live_ids in *.
    cbn [fst snd tracked_vehicles next_vehicle_id total_detections].
    rewrite odict_set_keys_old by assumption.
    split_and!; [apply Hinv.. | reflexivity |]. left. split_and!; done.
Qed.

(** ** Theorems: eviction *)

Lemma expired_iff current_time track :
  expired current_time track = true ↔
  (eviction_window < current_time - last_seen track)%Q.
Proof.
  unfold expired. rewrite negb_true_iff, <- not_true_iff_false, Qle_bool_iff.
  split; [apply Qnot_le_lt | apply Qlt_not_le].
Qed.

(** Deleting the collected identities one by one keeps exactly the tracks
    that have not expired, in their order. *)
Lemma cleanup_tracks_filter self current_time :
  NoDup (live_ids self) →
  tracked_vehicles (cleanup_tracks self current_time)
  = filter (λ item, expired current_time item.2 = false) (tracked_vehicles self).
Proof.
  unfold live_ids, cleanup_tracks. cbn [tracked_vehicles]. intros Hnd.
  rewrite odict_del_all. apply filter_ext_elem_of. intros [id track] Hin. cbn [fst snd].
  rewrite list_elem_of_fmap. split.
  - intros Hkeep. destruct (expired current_time track) eqn:Hexp; [| reflexivity].
    destruct Hkeep. exists (id, track). split; [reflexivity |].
    apply list_elem_of_filter. split; assumption.
  - intros Hlive ([id' track'] & Heq & [Hexp Hin']%list_elem_of_filter).
    cbn [fst snd] in *. subst id'.
    assert (track' = track) as ->.
    { apply (elem_of_odict_get _ _ _ Hnd) in Hin, Hin'. congruence. }
    congruence.
Qed.

Lemma cleanup_tracks_inv self current_time :
  tracker_inv self →
  tracker_inv (cleanup_tracks self current_time) ∧
  next_vehicle_id (cleanup_tracks self current_time) = next_vehicle_id self ∧
  total_detections (cleanup_tracks self current_time) = total_detections self ∧
  live_ids (cleanup_tracks self current_time) ⊆ live_ids self.
Proof.
  intros (Hnd & Hpos & Hbound).
  assert (live_ids (cleanup_tracks self current_time) `sublist_of` live_ids self) as Hsub.
  { unfold live_ids at 1. rewrite cleanup_tracks_filter by assumption.
    apply fmap_sublist, sublist_filter. }
  split_and!; [| reflexivity.. |].
  - split_and!; [eapply sublist_NoDup; eassumption | exact Hpos |].
    intros id Hin. apply Hbound. eapply elem_of_sublist; eassumption.
  - intros id Hin. eapply elem_of_sublist; eassumption.
Qed.

(** ** Theorems: one frame and whole runs *)

Lemma largest_app ids1 ids2 :
  largest (ids1 ++ ids2) = Z.max (largest ids1) (largest ids2).
Proof.
  unfold largest. induction ids1 as [| id ids1 IH]; simpl.
  - induction ids2 as [| id ids2 IH]; simpl; lia.
  - rewrite IH. lia.
Qed.

(** One box is either skipped or tracked, counted and appended. *)
Lemma detect_box_cases self detections box now :
  detect_box (self, detections) (box, now) = (self, detections) ∨
  ∃ d tagged,
    det_id tagged = Some (_assign_tracking_id self d now).2 ∧
    detect_box (self, detections) (box, now)
    = ({| tracked_vehicles := tracked_vehicles (_assign_tracking_id self d now).1;
          next_vehicle_id := next_vehicle_id (_assign_tracking_id self d now).1;
          total_detections := total_detections (_assign_tracking_id self d now).1 + 1 |},
       detections ++ [tagged]).
Proof.
  unfold detect_box. destruct (xyxy box) as [[[x1 y1] x2] y2].
  destruct (config.VEHICLE_CLASSES !! cls box) as [name |]; [| left; reflexivity].
  right. cbn [config.TRACKING_ENABLED].
  match goal with
  | |- context [_assign_tracking_id self ?d now] =>
      exists d; destruct (_assign_tracking_id self d now) as [self1 id1]
  end.
  eexists. split; [| reflexivity]. reflexivity.
Qed.

(** The loop of [detect_vehicles] from any accumulator: the invariant is
    kept, no track disappears, and every identity it hands out is either
    live before the frame or a counter value of the frame. *)
Lemma detect_box_fold boxes self detections :
  tracker_inv self →
  let r := foldl detect_box (self, detections) boxes in
  tracker_inv r.1 ∧ live_ids self ⊆ live_ids r.1 ∧
  (∀ id, id ∈ live_ids r.1 → id ∈ live_ids self ∨ next_vehicle_id self ≤ id) ∧
  ∃ new, r.2 = detections ++ new ∧
    next_vehicle_id r.1
    = Z.max (next_vehicle_id self - 1) (largest (omap det_id new)) + 1 ∧
    ∀ id, id ∈ omap det_id new →
      id ∈ live_ids r.1 ∧ (id ∈ live_ids self ∨ next_vehicle_id self ≤ id).
Proof.
  revert self detections.
  induction boxes as [| [box now] boxes IH]; intros self detections Hinv; cbn [foldl].
  - split_and!; [assumption | reflexivity | intros id Hid; left; exact Hid |].
    exists []. rewrite app_nil_r.
    split_and!; [reflexivity | destruct Hinv as (_ & Hpos & _); unfold largest; simpl; lia |].
    intros id Hid. apply elem_of_nil in Hid as [].
  - destruct (detect_box_cases self detections box now)
      as [-> | (d & tagged & Htag & ->)]; [apply IH, Hinv |].
    pose proof (assign_tracking_id_step self d now Hinv) as Hstep.
    destruct (_assign_tracking_id self d now) as [self1 id1] eqn:Hassign.
    cbn [fst snd] in Hstep, Htag |- *. destruct Hstep as (Hinv1 & _ & Hcases).
    match goal with
    | |- context [foldl detect_box (?s, _) boxes] =>
        specialize (IH s (detections ++ [tagged])); set (self2 := s) in *
    end.
    assert (tracker_inv self2) as Hinv2 by exact Hinv1.
    destruct (IH Hinv2) as (Hinv' & Hsub & Horigin & new & Hnew & Hnext & Hids).
    change (live_ids self2) with (live_ids self1) in *.
    change (next_vehicle_id self2) with (next_vehicle_id self1) in *.
    assert (live_ids self ⊆ live_ids self1 ∧
            next_vehicle_id self1 = Z.max (next_vehicle_id self - 1) id1 + 1 ∧
            id1 ∈ live_ids self1 ∧
            (id1 ∈ live_ids self ∨ next_vehicle_id self ≤ id1)) as (Hsub1 & Hnext1 & Hlive1 & Horigin1).
    { destruct Hcases as [(Hin & Hn & Hl) | (Hid & Hn & Hl)].
      - destruct Hinv as (_ & _ & Hbound). specialize (Hbound _ Hin).
        rewrite Hl. split_and!; [reflexivity | lia | assumption | left; assumption].
      - rewrite Hl. split_and!.
        + intros x Hx. apply elem_of_app. left. exact Hx.
        + lia.
        + apply elem_of_app. right. apply list_elem_of_singleton. exact Hid.
        + right. lia. }
    assert (∀ id, id ∈ live_ids self1 ∨ next_vehicle_id self1 ≤ id →
                  id ∈ live_ids self ∨ next_vehicle_id self ≤ id) as Hback.
    { intros id [Hold | Hge]; [| right; lia].
      destruct Hcases as [(_ & _ & Hl) | (_ & Hn & Hl)]; rewrite Hl in Hold.
      - left. exact Hold.
      - apply elem_of_app in Hold as [Hold | Hold]; [left; exact Hold |].
        right. apply list_elem_of_singleton in Hold. lia. }
    split_and!; [assumption | etrans; eassumption | intros id Hid; apply Hback, Horigin, Hid |].
    exists (tagged :: new). split_and!.
    + rewrite Hnew, <- app_assoc. reflexivity.
    + rewrite Hnext. cbn [omap list_omap]. rewrite Htag. unfold largest at 2.
      cbn [foldr]. fold (largest (omap det_id new)). lia.
    + intros id Hid. cbn [omap list_omap] in Hid. rewrite Htag in Hid.
      apply elem_of_cons in Hid as [-> | Hid].
      * split; [apply Hsub, Hlive1 | exact Horigin1].
      * destruct (Hids id Hid) as [Hlive Horigin']. split; [exact Hlive |].
        apply Hback, Horigin'.
Qed.

Lemma detect_vehicles_step self boxes :
  tracker_inv self →
  let r := detect_vehicles self boxes in
  tracker_inv r.1 ∧ live_ids self ⊆ live_ids r.1 ∧
  (∀ id, id ∈ live_ids r.1 → id ∈ live_ids self ∨ next_vehicle_id self ≤ id) ∧
  next_vehicle_id r.1
  = Z.max (next_vehicle_id self - 1) (largest (omap det_id r.2)) + 1 ∧
  ∀ id, id ∈ omap det_id r.2 →
    id ∈ live_ids r.1 ∧ (id ∈ live_ids self ∨ next_vehicle_id self ≤ id).
Proof.
  intros Hinv. unfold detect_vehicles.
  destruct (detect_box_fold boxes self [] Hinv)
    as (Hinv' & Hsub & Horigin & new & -> & Hnext & Hids).
  split_and!; assumption.
Qed.

(** Every operation keeps the invariant, never lowers the counter, moves
    it just past the largest identity it hands out, and hands out only
    identities that are live or fresh. *)
Lemma apply_operation_step self op :
  tracker_inv self →
  tracker_inv (apply_operation self op) ∧
  next_vehicle_id (apply_operation self op)
  = Z.max (next_vehicle_id self - 1) (largest (issued_by self op)) + 1 ∧
  (∀ id, id ∈ live_ids (apply_operation self op) →
     id ∈ live_ids self ∨ next_vehicle_id self ≤ id) ∧
  (∀ id, id ∈ issued_by self op → id ∈ live_ids self ∨ next_vehicle_id self ≤ id).
Proof.
  intros Hinv. destruct op as [detection now | boxes | current_time];
    cbn [apply_operation issued_by].
  - destruct (assign_tracking_id_step self detection now Hinv) as (Hinv' & _ & Hcases).
    cbn zeta in Hcases. split; [exact Hinv' |].
    unfold largest. cbn [foldr]. destruct Hinv as (_ & Hpos & Hbound).
    destruct Hcases as [(Hin & Hn & Hl) | (Hid & Hn & Hl)]; rewrite Hl.
    + specialize (Hbound _ Hin). split_and!.
      * lia.
      * intros id Hid. left. exact Hid.
      * intros id ->%list_elem_of_singleton. left. exact Hin.
    + split_and!.
      * lia.
      * intros id [Hold | ->%list_elem_of_singleton]%elem_of_app; [left; exact Hold | right; lia].
      * intros id ->%list_elem_of_singleton. right. lia.
  - destruct (detect_vehicles_step self boxes Hinv)
      as (Hinv' & Hsub & Horigin & Hnext & Hids).
    cbn zeta in *. split_and!; [assumption.. |].
    intros id Hid. apply Hids, Hid.
  - destruct (cleanup_tracks_inv self current_time Hinv) as (Hinv' & Hnext & _ & Hsub).
    split_and!; [assumption | | |].
    + rewrite Hnext. destruct Hinv as (_ & Hpos & _). unfold largest. cbn [foldr]. lia.
    + intros id Hid. left. apply Hsub, Hid.
    + intros id Hid. apply elem_of_nil in Hid as [].
Qed.

Lemma largest_lower_bound ids : -1 ≤ largest ids.
Proof. unfold largest. induction ids as [| id ids IH]; simpl; lia. Qed.

Lemma init_inv : tracker_inv init.
Proof.
  unfold tracker_inv, live_ids, init. simpl. split_and!.
  - apply NoDup_nil_2.
  - lia.
  - intros id Hid. apply elem_of_nil in Hid as [].
Qed.

Lemma run_step ops self :
  tracker_inv self →
  tracker_inv (run self ops) ∧
  next_vehicle_id (run self ops)
  = Z.max (next_vehicle_id self - 1) (largest (issued self ops)) + 1 ∧
  (∀ id, id ∈ live_ids (run self ops) →
     id ∈ live_ids self ∨ next_vehicle_id self ≤ id) ∧
  (∀ id, id ∈ issued self ops → id ∈ live_ids self ∨ next_vehicle_id self ≤ id).
Proof.
  revert self. induction ops as [| op ops IH]; intros self Hinv.
  - cbn [run foldl issued]. split_and!.
    + exact Hinv.
    + destruct Hinv as (_ & Hpos & _). unfold largest. simpl. lia.
    + intros id Hid. left. exact Hid.
    + intros id Hid. apply elem_of_nil in Hid as [].
  - destruct (apply_operation_step self op Hinv) as (Hinv1 & Hnext1 & Hlive1 & Hissued1).
    destruct (IH _ Hinv1) as (Hinv' & Hnext' & Hlive' & Hissued').
    change (run self (op :: ops)) with (run (apply_operation self op) ops).
    cbn [issued].
    pose proof (largest_lower_bound (issued_by self op)) as Hlow.
    assert (∀ id, id ∈ live_ids (apply_operation self op) ∨
                  next_vehicle_id (apply_operation self op) ≤ id →
                  id ∈ live_ids self ∨ next_vehicle_id self ≤ id) as Hback.
    { intros id [Hid | Hge]; [apply Hlive1, Hid | right; lia]. }
    split_and!.
    + exact Hinv'.
    + rewrite Hnext', Hnext1, largest_app. lia.
    + intros id Hid. apply Hback, Hlive', Hid.
    + intros id [Hid | Hid]%elem_of_app; [apply Hissued1, Hid | apply Hback, Hissued', Hid].
Qed.

(** ** Theorems: tracker *)



(** C5: cleanup removes exactly the live tracks whose time since
    [last_seen] exceeds the eviction window and leaves every other track
    as it is; after it such a track is absent from the track table and its
    enumeration; assignment and detection never remove a track. *)
Theorem cleanup_tracks_evicts (self : VehicleDetector) (current_time : Q)
    (Hkeys : NoDup (live_ids self)) :
  let elapsed track := (current_time - last_seen track)%Q in
  let self' := cleanup_tracks self current_time in
  tracked_vehicles self'
  = filter (λ item, expired current_time item.2 = false) (tracked_vehicles self) ∧
  next_vehicle_id self' = next_vehicle_id self ∧
  (∀ id track, odict_get id (tracked_vehicles self) = Some track →
     (eviction_window < elapsed track)%Q →
     odict_get id (tracked_vehicles self') = None ∧ id ∉ live_ids self') ∧
  (∀ id track, odict_get id (tracked_vehicles self) = Some track →
     ¬ (eviction_window < elapsed track)%Q →
     odict_get id (tracked_vehicles self') = Some track) ∧
  (∀ id, id ∉ live_ids self → id ∉ live_ids self') ∧
  (∀ detection now id,
     id ∈ live_ids self → id ∈ live_ids (_assign_tracking_id self detection now).1) ∧
  (tracker_inv self → ∀ boxes id,
     id ∈ live_ids self → id ∈ live_ids (detect_vehicles self boxes).1) ∧
  (eviction_window == 1 # 3)%Q.
Proof.
  intros elapsed self'. subst elapsed self'.
  pose proof (cleanup_tracks_filter self current_time Hkeys) as Hfilter.
  assert (NoDup (tracked_vehicles (cleanup_tracks self current_time)).*1) as Hkeys'.
  { rewrite Hfilter. eapply sublist_NoDup; [exact Hkeys | apply fmap_sublist, sublist_filter]. }
  split_and!.
  - exact Hfilter.
  - reflexivity.
  - intros id track Hget Hexp. apply expired_iff in Hexp.
    assert (id ∉ live_ids (cleanup_tracks self current_time)) as Hgone.
    { unfold live_ids. rewrite Hfilter.
      intros ([id' track'] & Heq & [Hkeep Hin]%list_elem_of_filter)%list_elem_of_fmap.
      cbn [fst snd] in *. subst id'.
      apply (elem_of_odict_get _ _ _ Hkeys) in Hin. congruence. }
    split; [apply odict_get_None, Hgone | exact Hgone].
  - intros id track Hget Hfresh. apply elem_of_odict_get; [exact Hkeys' |].
    rewrite Hfilter. apply list_elem_of_filter. split.
    + cbn [snd]. destruct (expired current_time track) eqn:Hexp; [| reflexivity].
      apply expired_iff in Hexp. contradiction.
    + apply odict_get_elem_of, Hget.
  - intros id Hnot Hin. apply Hnot. unfold live_ids in *. rewrite Hfilter in Hin.
    eapply elem_of_sublist; [exact Hin |]. apply fmap_sublist, sublist_filter.
  - intros detection now id Hin.
    unfold _assign_tracking_id.
    destruct (find_closest (det_center detection) (tracked_vehicles self)).2 as [matched |];
      cbn [fst]; unfold live_ids in *; cbn [tracked_vehicles].
    + destruct (decide (matched ∈ (tracked_vehicles self).*1)) as [Hold | Hnew].
      * rewrite odict_set_keys_old by assumption. exact Hin.
      * rewrite odict_set_new, fmap_app by assumption. apply elem_of_app. left. exact Hin.
    + destruct (decide (next_vehicle_id self ∈ (tracked_vehicles self).*1)) as [Hold | Hnew].
      * rewrite odict_set_keys_old by assumption. exact Hin.
      * rewrite odict_set_new, fmap_app by assumption. apply elem_of_app. left. exact Hin.
  - intros Hinv boxes id Hin.
    destruct (detect_vehicles_step self boxes Hinv) as (_ & Hsub & _).
    apply Hsub, Hin.
  - reflexivity.
Qed.

Lemma cleanup_tracks_evicts_witness :
  let self := (_assign_tracking_id init (detection_at 100 100) 0).1 in
  NoDup (live_ids self) ∧ tracked_vehicles (cleanup_tracks self 1) = [].
Proof.
  intros self.
  assert (NoDup (live_ids self)) as Hkeys by compute_done.
  split; [exact Hkeys |].
  rewrite (proj1 (cleanup_tracks_evicts self 1 Hkeys)). reflexivity.
Defined.

(** C6: a fresh tracker satisfies the invariant that the live identities
    are distinct and strictly below the counter; assignment, detection of
    a frame and cleanup keep it and never lower the counter; a new track
    gets the counter as identity, above every live one; and an identity
    that was live and has been evicted is never handed out or live
    again. *)
Theorem track_identities_monotone (self : VehicleDetector) (Hinv : tracker_inv self) :
  tracker_inv init ∧
  (∀ detection now,
     let r := _assign_tracking_id self detection now in
     tracker_inv r.1 ∧ next_vehicle_id self ≤ next_vehicle_id r.1 ∧
     (r.2 ∈ live_ids self ∨
      (r.2 = next_vehicle_id self ∧ next_vehicle_id r.1 = r.2 + 1 ∧
       ∀ id, id ∈ live_ids self → id < r.2))) ∧
  (∀ boxes,
     tracker_inv (detect_vehicles self boxes).1 ∧
     next_vehicle_id self ≤ next_vehicle_id (detect_vehicles self boxes).1) ∧
  (∀ current_time,
     tracker_inv (cleanup_tracks self current_time) ∧
     next_vehicle_id (cleanup_tracks self current_time) = next_vehicle_id self) ∧
  (∀ ops,
     tracker_inv (run self ops) ∧
     next_vehicle_id self ≤ next_vehicle_id (run self ops)) ∧
  (∀ ops ops' id,
     id ∈ live_ids self → id ∉ live_ids (run self ops) →
     (id ∉ issued (run self ops) ops') ∧ (id ∉ live_ids (run (run self ops) ops'))).
Proof.
  split_and!.
  - exact init_inv.
  - intros detection now r. subst r.
    destruct (assign_tracking_id_step self detection now Hinv) as (Hinv' & _ & Hcases).
    cbn zeta in Hcases. split; [exact Hinv' |].
    destruct Hcases as [(Hin & Hn & _) | (Hid & Hn & _)].
    + split; [lia | left; exact Hin].
    + split; [lia | right]. split_and!; [exact Hid | lia |].
      intros id Hlive. destruct Hinv as (_ & _ & Hbound). specialize (Hbound _ Hlive). lia.
  - intros boxes.
    destruct (detect_vehicles_step self boxes Hinv) as (Hinv' & _ & _ & Hnext & _).
    cbn zeta in Hnext. split; [exact Hinv' | lia].
  - intros current_time.
    destruct (cleanup_tracks_inv self current_time Hinv) as (Hinv' & Hnext & _).
    split; assumption.
  - intros ops. destruct (run_step ops self Hinv) as (Hinv' & Hnext & _).
    split; [exact Hinv' | lia].
  - intros ops ops' id Hlive Hgone.
    destruct (run_step ops self Hinv) as (Hinv1 & Hnext1 & _).
    destruct (run_step ops' (run self ops) Hinv1) as (_ & _ & Hlive2 & Hissued2).
    assert (id < next_vehicle_id (run self ops)) as Hbelow.
    { destruct Hinv as (_ & _ & Hbound). specialize (Hbound _ Hlive). lia. }
    split.
    + intros [Hin | Hge]%Hissued2; [contradiction | lia].
    + intros [Hin | Hge]%Hlive2; [contradiction | lia].
Qed.

Lemma track_identities_monotone_witness :
  let self := run init [Assign (detection_at 100 100) 0%Q] in
  let evicting := [Cleanup 1%Q] in
  let later := [Assign (detection_at 100 100) 2%Q; Detect second_frame] in
  tracker_inv self ∧
  live_ids self = [0] ∧
  live_ids (run self evicting) = [] ∧
  issued (run self evicting) later = [1; 1; 1] ∧
  (0 ∉ issued (run self evicting) later) ∧
  (0 ∉ live_ids (run (run self evicting) later)) ∧
  tracker_inv (run (run self evicting) later) ∧
  (let r := _assign_tracking_id self (detection_at 300 300) 0%Q in
   r.2 = 1 ∧ next_vehicle_id r.1 = 2 ∧ ∀ id, id ∈ live_ids self → id < r.2).
Proof.
  intros self evicting later.
  assert (tracker_inv self) as Hinv.
  { split_and!; [compute_done | compute_done |].
    intros id [= ->]%list_elem_of_singleton. reflexivity. }
  destruct (track_identities_monotone self Hinv)
    as (_ & Hassign & _ & _ & Hrun & Hevicted).
  assert (0 ∈ live_ids self) as Hlive by apply list_elem_of_here.
  assert (0 ∉ live_ids (run self evicting)) as Hgone by apply not_elem_of_nil.
  destruct (Hevicted evicting later 0 Hlive Hgone) as [Hissued Hlater].
  split_and!; [exact Hinv | reflexivity | reflexivity | reflexivity | exact Hissued
              | exact Hlater | exact (proj1 (Hrun (evicting ++ later))) |].
  destruct (Hassign (detection_at 300 300) 0%Q) as (_ & _ & [Hin | (Hnew & Hnext & Habove)]).
  - apply list_elem_of_singleton in Hin. discriminate Hin.
  - cbn zeta. split_and!; [reflexivity | reflexivity | exact Habove].
Defined.

(** C10: identities assigned within one frame need not be distinct.
    After a first frame with one vehicle at (100,100), a frame with two
    detections at (140,100) and (180,100) gives both the identity 0: the
    first moves track 0 to (140,100), which brings the second, 80 pixels
    from the track's old center, within the threshold.  The number of
    distinct identities of the frame, 1, is below its 2 detections. *)
Theorem same_identity_within_one_frame :
  ∃ (self : VehicleDetector) (boxes : list (Box * Q)) (d1 d2 : Detection) (old : Track),
    self = (detect_vehicles init first_frame).1 ∧
    tracker_inv self ∧
    tracked_vehicles self = [(0, old)] ∧
    (detect_vehicles self boxes).2 = [d1; d2] ∧
    det_center d1 ≠ det_center d2 ∧
    det_id d1 = Some 0 ∧ det_id d2 = Some 0 ∧
    within_threshold (det_center d1) old ∧
    ¬ within_threshold (det_center d2) old ∧
    (length (remove_dups (omap det_id (detect_vehicles self boxes).2))
     < length (detect_vehicles self boxes).2)%nat.
Proof.
  eexists _, second_frame, _, _, _. split_and!.
  - reflexivity.
  - apply detect_vehicles_step, init_inv.
  - vm_compute. reflexivity.
  - vm_compute. reflexivity.
  - discriminate.
  - reflexivity.
  - reflexivity.
  - unfold within_threshold. vm_compute. reflexivity.
  - unfold within_threshold. vm_compute. discriminate.
  - vm_compute. lia.
Qed.

(** * Further properties of the code *)

(** ** The scan picks the first nearest track *)

Lemma squared_distance_zero c t : squared_distance c t = 0 ↔ c = t.
Proof.
  unfold squared_distance. destruct c as [c1 c2], t as [t1 t2]. cbn [fst snd]. split.
  - intros Hsq. assert (c1 - t1 = 0 ∧ c2 - t2 = 0) as [? ?] by nia.
    f_equal; lia.
  - intros [= -> ->]. lia.
Qed.

(** The track the scan returns is the first one, in table order, at the
    smallest distance: every track before it is strictly farther. *)
Lemma find_closest_first c (tracks : list (Z * Track)) id :
  (find_closest c tracks).2 = Some id →
  ∃ l1 t l2, tracks = l1 ++ (id, t) :: l2 ∧
    find_closest c tracks = (Sqrt (squared_distance c (center t)), Some id) ∧
    within_threshold c t ∧
    (∀ id' t', (id', t') ∈ l1 →
       squared_distance c (center t) < squared_distance c (center t')) ∧
    (∀ id' t', (id', t') ∈ l2 →
       squared_distance c (center t) ≤ squared_distance c (center t')).
Proof.
  unfold find_closest, within_threshold. revert id.
  induction tracks as [| [id1 t1] tracks IH] using rev_ind; intros id.
  - discriminate.
  - rewrite foldl_snoc.
    destruct (foldl (scan_track c) (Inf, None) tracks) as [min_distance matched] eqn:Hscan.
    cbn [scan_track]. unfold center_distance.
    destruct (distance_lt (Sqrt (squared_distance c (center t1))) max_distance
              && distance_lt (Sqrt (squared_distance c (center t1))) min_distance)
      eqn:Hbetter; cbn [snd].
    + intros [= <-]. apply andb_true_iff in Hbetter as [Hmax Hmin].
      apply distance_lt_max in Hmax.
      exists tracks, t1, []. split_and!; [reflexivity.. | exact Hmax | |].
      * intros id' t' Hin. destruct matched as [id0 |].
        -- destruct (IH id0 eq_refl) as (l1 & t0 & l2 & -> & [= ->] & _ & Hbefore & Hafter).
           cbn [distance_lt] in Hmin. apply Z.ltb_lt in Hmin.
           apply elem_of_app in Hin as [Hin | Hin].
           ++ specialize (Hbefore _ _ Hin). lia.
           ++ apply elem_of_cons in Hin as [[= -> ->] | Hin]; [lia |].
              specialize (Hafter _ _ Hin). lia.
        -- destruct (find_closest_spec c tracks) as [[_ Hnone] | (? & ? & Hsome & _)].
           ++ specialize (Hnone _ _ Hin). unfold within_threshold in Hnone. lia.
           ++ unfold find_closest in Hsome. rewrite Hscan in Hsome. discriminate.
      * intros id' t' Hin. apply elem_of_nil in Hin as [].
    + intros ->.
      destruct (IH id eq_refl) as (l1 & t & l2 & -> & [= ->] & Hwithin & Hbefore & Hafter).
      exists l1, t, (l2 ++ [(id1, t1)]). split_and!.
      * rewrite <- app_assoc. reflexivity.
      * reflexivity.
      * exact Hwithin.
      * exact Hbefore.
      * intros id' t' [Hin | Hin]%elem_of_app; [apply (Hafter _ _ Hin) |].
        apply list_elem_of_singleton in Hin as [= -> ->].
        apply andb_false_iff in Hbetter as [Hmax | Hmin].
        -- assert (¬ squared_distance c (center t1) < config.TRACKING_MAX_DISTANCE ^ 2).
           { intros Hlt%distance_lt_max. congruence. }
           lia.
        -- cbn [distance_lt] in Hmin. apply Z.ltb_ge in Hmin. exact Hmin.
Qed.

Lemma scan_track_zero c id l :
  foldl (scan_track c) (Sqrt 0, Some id) l = (Sqrt 0, Some id).
Proof.
  induction l as [| [id' t'] l IH]; [reflexivity |].
  cbn [foldl scan_track]. unfold center_distance. cbn [distance_lt].
  pose proof (squared_distance_nonneg c (center t')) as Hsq.
  apply Z.ltb_ge in Hsq. rewrite Hsq, andb_false_r. exact IH.
Qed.

Lemma scan_track_positive c l acc :
  (∀ id' t', (id', t') ∈ l → center t' ≠ c) →
  distance_lt (Sqrt 0) acc.1 = true →
  distance_lt (Sqrt 0) (foldl (scan_track c) acc l).1 = true.
Proof.
  revert acc. induction l as [| [id' t'] l IH]; intros [min_distance matched] Hl Hacc;
    [exact Hacc |].
  cbn [foldl]. apply IH.
  - intros id'' t'' Hin. apply (Hl id'' t''). apply list_elem_of_further, Hin.
  - cbn [scan_track]. unfold center_distance.
    destruct (_ && _); [| exact Hacc].
    cbn [fst distance_lt]. apply Z.ltb_lt.
    pose proof (squared_distance_nonneg c (center t')) as Hsq.
    assert (squared_distance c (center t') ≠ 0); [| lia].
    intros Hzero%squared_distance_zero. apply (Hl id' t'); [apply list_elem_of_here | congruence].
Qed.

(** A track at the detection's own center is matched when no earlier track
    is there. *)
Lemma find_closest_zero c (l1 l2 : list (Z * Track)) id t :
  center t = c →
  (∀ id' t', (id', t') ∈ l1 → center t' ≠ c) →
  (find_closest c (l1 ++ (id, t) :: l2)).2 = Some id.
Proof.
  intros Hcenter Hbefore. unfold find_closest. rewrite foldl_app. cbn [foldl].
  pose proof (scan_track_positive c l1 (Inf, None) Hbefore eq_refl) as Hpos.
  destruct (foldl (scan_track c) (Inf, None) l1) as [min_distance matched].
  cbn [fst] in Hpos. cbn [scan_track]. unfold center_distance.
  rewrite Hcenter, (proj2 (squared_distance_zero c c) eq_refl), Hpos.
  cbn [distance_lt max_distance andb].
  replace (0 <? config.TRACKING_MAX_DISTANCE ^ 2) with true by reflexivity.
  cbn [andb]. rewrite scan_track_zero. reflexivity.
Qed.

(** ** The two outcomes of an assignment, on the table itself *)

Lemma odict_set_middle {V} (k : Z) (v v' : V) (l1 l2 : list (Z * V)) :
  k ∉ l1.*1 → odict_set k v' (l1 ++ (k, v) :: l2) = l1 ++ (k, v') :: l2.
Proof.
  induction l1 as [| [k1 v1] l1 IH]; intros Hnin.
  - cbn [app odict_set]. rewrite decide_True by reflexivity. reflexivity.
  - rewrite fmap_cons in Hnin. apply not_elem_of_cons in Hnin as [Hne Hnin].
    cbn [app odict_set]. rewrite decide_False by assumption.
    rewrite IH by assumption. reflexivity.
Qed.

Lemma NoDup_keys_middle {V} (k : Z) (v : V) (l1 l2 : list (Z * V)) :
  NoDup (l1 ++ (k, v) :: l2).*1 → (k ∉ l1.*1) ∧ (k ∉ l2.*1).
Proof.
  rewrite fmap_app, fmap_cons. cbn [fst].
  intros (_ & Hdisj & [Hnin _]%NoDup_cons)%NoDup_app. split; [| exact Hnin].
  intros Hin. apply (Hdisj k Hin). apply list_elem_of_here.
Qed.

(** An assignment either overwrites, in place, the first nearest track
    strictly within the threshold, or appends a track under the counter. *)
Lemma assign_tracking_id_shape self detection now :
  tracker_inv self →
  let c := det_center detection in
  (∃ l1 id t l2,
     tracked_vehicles self = l1 ++ (id, t) :: l2 ∧
     _assign_tracking_id self detection now =
       ({| tracked_vehicles := l1 ++ (id, track_of detection now) :: l2;
           next_vehicle_id := next_vehicle_id self;
           total_detections := total_detections self |}, id) ∧
     within_threshold c t ∧
     (∀ id' t', (id', t') ∈ l1 →
        squared_distance c (center t) < squared_distance c (center t')) ∧
     (∀ id' t', (id', t') ∈ l2 →
        squared_distance c (center t) ≤ squared_distance c (center t'))) ∨
  (_assign_tracking_id self detection now =
     ({| tracked_vehicles :=
           tracked_vehicles self ++ [(next_vehicle_id self, track_of detection now)];
         next_vehicle_id := next_vehicle_id self + 1;
         total_detections := total_detections self |}, next_vehicle_id self) ∧
   ∀ id t, (id, t) ∈ tracked_vehicles self → ¬ within_threshold c t).
Proof.
  intros Hinv c. subst c.
  destruct (find_closest (det_center detection) (tracked_vehicles self)).2 as [id |] eqn:Hfind.
  - left. destruct (find_closest_first _ _ _ Hfind)
      as (l1 & t & l2 & Htracks & _ & Hwithin & Hbefore & Hafter).
    exists l1, id, t, l2. split_and!; try assumption.
    rewrite (assign_tracking_id_matched _ _ _ id Hfind), Htracks.
    rewrite odict_set_middle; [reflexivity |].
    destruct Hinv as (Hnd & _). unfold live_ids in Hnd. rewrite Htracks in Hnd.
    apply (NoDup_keys_middle _ _ _ _ Hnd).
  - right.
    destruct (find_closest_spec (det_center detection) (tracked_vehicles self))
      as [[_ Hnone] | (id & t & Hsome & _)]; [| rewrite Hsome in Hfind; discriminate].
    split; [| exact Hnone].
    rewrite (assign_tracking_id_new _ _ _ Hfind).
    rewrite odict_set_new by apply tracker_inv_fresh, Hinv. reflexivity.
Qed.

(** ** Properties kept by every operation *)

Lemma detect_box_eq self detections box now :
  detect_box (self, detections) (box, now) =
  match detection_of box with
  | Some detection =>
      let r := _assign_tracking_id self detection now in
      (counted r.1, detections ++ [tagged detection r.2])
  | None => (self, detections)
  end.
Proof.
  unfold detect_box, detection_of. destruct (xyxy box) as [[[x1 y1] x2] y2].
  destruct (config.VEHICLE_CLASSES !! cls box) as [name |]; [| reflexivity].
  cbn [mbind option_bind config.TRACKING_ENABLED].
  destruct (_assign_tracking_id _ _ now) as [self1 id1]. reflexivity.
Qed.

Section preservation.
Context (P : VehicleDetector → Prop).
Hypothesis P_assign : ∀ self detection now,
  P self → P (_assign_tracking_id self detection now).1.
Hypothesis P_counted : ∀ self, P self → P (counted self).
Hypothesis P_cleanup : ∀ self current_time, P self → P (cleanup_tracks self current_time).

Lemma detect_box_fold_preserves boxes self detections :
  P self → P (foldl detect_box (self, detections) boxes).1.
Proof.
  revert self detections. induction boxes as [| [box now] boxes IH];
    intros self detections HP; [exact HP |].
  cbn [foldl]. rewrite detect_box_eq.
  destruct (detection_of box) as [detection |]; [| apply IH, HP].
  apply IH, P_counted, P_assign, HP.
Qed.

Lemma apply_operation_preserves self op : P self → P (apply_operation self op).
Proof.
  intros HP. destruct op as [detection now | boxes | current_time]; cbn [apply_operation].
  - apply P_assign, HP.
  - apply detect_box_fold_preserves, HP.
  - apply P_cleanup, HP.
Qed.

Lemma run_preserves ops self : P self → P (run self ops).
Proof.
  revert self. induction ops as [| op ops IH]; intros self HP; [exact HP |].
  apply IH, apply_operation_preserves, HP.
Qed.
End preservation.

(** The invariant together with the order of the table and the
    distinctness of the centers. *)
Lemma tracker_wf_assign self detection now :
  tracker_inv self ∧ table_sorted self ∧ centers_distinct self →
  let r := _assign_tracking_id self detection now in
  tracker_inv r.1 ∧ table_sorted r.1 ∧ centers_distinct r.1.
Proof.
  intros (Hinv & Hsorted & Hcenters) r. subst r.
  split; [apply assign_tracking_id_step, Hinv |].
  unfold table_sorted, centers_distinct, live_ids, track_centers in *.
  destruct (assign_tracking_id_shape self detection now Hinv)
    as [(l1 & id & t & l2 & Htracks & -> & Hwithin & Hbefore & Hafter) | [-> Hnone]];
    cbn [fst tracked_vehicles].
  - rewrite Htracks in Hsorted, Hcenters.
    rewrite fmap_app, fmap_cons in Hsorted. rewrite fmap_app, fmap_cons in Hcenters.
    rewrite !fmap_app, !fmap_cons. cbn [fst snd track_of center] in *.
    split; [exact Hsorted |].
    apply NoDup_app in Hcenters as (Hnd1 & Hdisj & [Hnin2 Hnd2]%NoDup_cons).
    apply NoDup_app. split_and!; [exact Hnd1 | | apply NoDup_cons; split; [| exact Hnd2]].
    + intros c Hin1 [-> | Hin2]%elem_of_cons.
      * apply list_elem_of_fmap in Hin1 as ([id' t'] & Heq & Hin1). cbn [snd] in Heq.
        specialize (Hbefore _ _ Hin1). rewrite <- Heq in Hbefore.
        rewrite (proj2 (squared_distance_zero _ _) eq_refl) in Hbefore.
        pose proof (squared_distance_nonneg (det_center detection) (center t)). lia.
      * apply (Hdisj c Hin1). apply list_elem_of_further, Hin2.
    + intros Hin2. pose proof Hin2 as Hin2'.
      apply list_elem_of_fmap in Hin2 as ([id' t'] & Heq & Hin2). cbn [snd] in Heq.
      specialize (Hafter _ _ Hin2). rewrite <- Heq in Hafter.
      rewrite (proj2 (squared_distance_zero _ _) eq_refl) in Hafter.
      pose proof (squared_distance_nonneg (det_center detection) (center t)) as Hsq.
      assert (det_center detection = center t) as Hsame
        by (apply squared_distance_zero; lia).
      apply Hnin2. rewrite <- Hsame. exact Hin2'.
  - rewrite !fmap_app. cbn [fmap list_fmap fst snd track_of center]. split.
    + apply StronglySorted_app. split_and!; [| exact Hsorted | repeat constructor].
      intros x y Hx ->%list_elem_of_singleton.
      destruct Hinv as (_ & _ & Hbound). apply Hbound, Hx.
    + apply NoDup_app. split_and!; [exact Hcenters | | apply NoDup_singleton].
      intros c Hin ->%list_elem_of_singleton.
      apply list_elem_of_fmap in Hin as ([id' t'] & Heq & Hin). cbn [snd] in Heq.
      apply (Hnone _ _ Hin). unfold within_threshold. rewrite <- Heq.
      rewrite (proj2 (squared_distance_zero _ _) eq_refl).
      unfold config.TRACKING_MAX_DISTANCE. lia.
Qed.

Lemma StronglySorted_sublist {A} (R : A → A → Prop) (l1 l2 : list A) :
  l1 `sublist_of` l2 → StronglySorted R l2 → StronglySorted R l1.
Proof.
  intros Hsub. induction Hsub as [| x l1 l2 Hsub IH | x l1 l2 Hsub IH]; intros Hs.
  - constructor.
  - apply StronglySorted_cons in Hs as [Hall Hs].
    apply StronglySorted_cons. split; [| apply IH, Hs].
    rewrite Forall_forall in Hall |- *. intros y Hy. apply Hall.
    eapply elem_of_sublist; eassumption.
  - apply StronglySorted_cons in Hs as [_ Hs]. apply IH, Hs.
Qed.

Lemma tracker_wf_cleanup self current_time :
  tracker_inv self ∧ table_sorted self ∧ centers_distinct self →
  tracker_inv (cleanup_tracks self current_time) ∧
  table_sorted (cleanup_tracks self current_time) ∧
  centers_distinct (cleanup_tracks self current_time).
Proof.
  intros (Hinv & Hsorted & Hcenters).
  split; [apply cleanup_tracks_inv, Hinv |].
  unfold table_sorted, centers_distinct, live_ids, track_centers in *.
  rewrite cleanup_tracks_filter by apply Hinv. split.
  - eapply StronglySorted_sublist; [| exact Hsorted]. apply fmap_sublist, sublist_filter.
  - eapply sublist_NoDup; [exact Hcenters |]. apply fmap_sublist, sublist_filter.
Qed.

Lemma tracker_wf_init :
  tracker_inv init ∧ table_sorted init ∧ centers_distinct init.
Proof.
  split; [exact init_inv |].
  split; [constructor | apply NoDup_nil_2].
Qed.

Lemma tracker_wf_run ops :
  tracker_inv (run init ops) ∧ table_sorted (run init ops) ∧
  centers_distinct (run init ops).
Proof.
  apply (run_preserves (λ s, tracker_inv s ∧ table_sorted s ∧ centers_distinct s)).
  - intros self detection now. apply tracker_wf_assign.
  - intros self H. exact H.
  - intros self current_time. apply tracker_wf_cleanup.
  - exact tracker_wf_init.
Qed.

(** ** Properties of the tracker *)

(** X1: in every state a fresh tracker reaches through assignments, frames
    and cleanups, the track table lists the identities in strictly
    increasing order, the order in which the tracks were created. *)
Theorem tracked_vehicles_in_creation_order (ops : list operation) :
  StronglySorted Z.lt (live_ids (run init ops)).
Proof. apply tracker_wf_run. Qed.

(** X2: in every state a fresh tracker reaches, no two live tracks have the
    same center. *)
Theorem track_centers_never_coincide (ops : list operation) :
  NoDup (track_centers (run init ops)).
Proof. apply tracker_wf_run. Qed.

(** X3: a tie between equally near tracks goes to the smallest identity:
    when the table is in creation order, no live track at most as far from
    the detection as the matched one has a smaller identity. *)
Theorem assign_tracking_id_tie_to_smallest (self : VehicleDetector)
    (detection : Detection) (now : Q)
    (Hinv : tracker_inv self) (Hsorted : table_sorted self) :
  let c := det_center detection in
  let r := _assign_tracking_id self detection now in
  ∀ t id' t',
    (r.2, t) ∈ tracked_vehicles self → (id', t') ∈ tracked_vehicles self →
    squared_distance c (center t') ≤ squared_distance c (center t) →
    r.2 ≤ id'.
Proof.
  intros c r t id' t' Hin Hin' Hle. subst c r.
  destruct (assign_tracking_id_shape self detection now Hinv)
    as [(l1 & id & t0 & l2 & Htracks & Heq & _ & Hbefore & _) | [Heq _]];
    rewrite Heq in Hin |- *; cbn [snd] in *.
  - assert (t = t0) as ->.
    { destruct Hinv as (Hnd & _). unfold live_ids in Hnd.
      apply (elem_of_odict_get _ _ _ Hnd) in Hin.
      assert ((id, t0) ∈ tracked_vehicles self) as Hin0.
      { rewrite Htracks. apply elem_of_app. right. apply list_elem_of_here. }
      apply (elem_of_odict_get _ _ _ Hnd) in Hin0. congruence. }
    unfold table_sorted, live_ids in Hsorted. rewrite Htracks in Hsorted, Hin'.
    apply elem_of_app in Hin' as [Hin' | Hin'].
    + specialize (Hbefore _ _ Hin'). lia.
    + apply elem_of_cons in Hin' as [[= -> ->] | Hin']; [lia |].
      rewrite fmap_app, fmap_cons in Hsorted.
      apply StronglySorted_app in Hsorted as (_ & _ & Hsorted).
      apply StronglySorted_cons in Hsorted as [Hall _].
      rewrite Forall_forall in Hall. cbn [fst] in Hall.
      specialize (Hall id' (list_elem_of_fmap_2 fst _ _ Hin')). cbn [fst] in Hall. lia.
  - exfalso. apply (tracker_inv_fresh _ Hinv).
    apply (list_elem_of_fmap_2 fst _ _ Hin).
Qed.

Lemma assign_tracking_id_tie_to_smallest_witness :
  tracker_inv two_tracks ∧ table_sorted two_tracks ∧
  (_assign_tracking_id two_tracks (detection_at 30 0) 1).2 ≤ 1.
Proof.
  destruct (tracker_wf_run
    [Assign (detection_at 0 0) 0%Q; Assign (detection_at 60 0) 0%Q])
    as (Hinv & Hsorted & _).
  fold two_tracks in Hinv, Hsorted.
  split_and!; [exact Hinv | exact Hsorted |].
  apply (assign_tracking_id_tie_to_smallest two_tracks (detection_at 30 0) 1 Hinv Hsorted
           (track_of (detection_at 0 0) 0) 1 (track_of (detection_at 60 0) 0)).
  - vm_compute. apply list_elem_of_here.
  - vm_compute. apply list_elem_of_further, list_elem_of_here.
  - vm_compute. discriminate.
Defined.

(** X4: a vehicle detected again at the same center keeps its identity:
    assigning a second detection with the center of the one just assigned
    returns the same identity and creates no track, whatever the two clock
    readings are. *)
Theorem same_center_keeps_identity (self : VehicleDetector)
    (first second : Detection) (now later : Q)
    (Hinv : tracker_inv self) (Hcenter : det_center second = det_center first) :
  let r1 := _assign_tracking_id self first now in
  let r2 := _assign_tracking_id (fst r1) second later in
  snd r2 = snd r1 ∧
  next_vehicle_id (fst r2) = next_vehicle_id (fst r1) ∧
  live_ids (fst r2) = live_ids (fst r1) ∧
  odict_get (snd r1) (tracked_vehicles (fst r2)) = Some (track_of second later).
Proof.
  intros r1 r2. subst r1 r2.
  assert (∃ l1 id l2 next,
    _assign_tracking_id self first now =
      ({| tracked_vehicles := l1 ++ (id, track_of first now) :: l2;
          next_vehicle_id := next;
          total_detections := total_detections self |}, id) ∧
    (∀ id' t', (id', t') ∈ l1 → center t' ≠ det_center first))
    as (l1 & id & l2 & next & Hfirst & Hbefore).
  { destruct (assign_tracking_id_shape self first now Hinv)
      as [(l1 & id & t & l2 & _ & Heq & _ & Hbefore & _) | [Heq Hnone]].
    - exists l1, id, l2, (next_vehicle_id self). split; [exact Heq |].
      intros id' t' Hin Hsame. specialize (Hbefore _ _ Hin).
      rewrite Hsame, (proj2 (squared_distance_zero _ _) eq_refl) in Hbefore.
      pose proof (squared_distance_nonneg (det_center first) (center t)). lia.
    - exists (tracked_vehicles self), (next_vehicle_id self), [], (next_vehicle_id self + 1).
      split; [exact Heq |].
      intros id' t' Hin Hsame. apply (Hnone _ _ Hin). unfold within_threshold.
      rewrite Hsame, (proj2 (squared_distance_zero _ _) eq_refl).
      unfold config.TRACKING_MAX_DISTANCE. lia. }
  pose proof (assign_tracking_id_step self first now Hinv) as (Hinv1 & _).
  rewrite Hfirst in Hinv1 |- *. cbn [fst snd] in *.
  rewrite (assign_tracking_id_matched _ _ _ id).
  - cbn [fst snd tracked_vehicles next_vehicle_id]. unfold live_ids. cbn [tracked_vehicles].
    assert (id ∈ (l1 ++ (id, track_of first now) :: l2).*1) as Hlive.
    { rewrite fmap_app, fmap_cons. apply elem_of_app. right. apply list_elem_of_here. }
    split_and!; [reflexivity.. | | apply odict_get_set_eq].
    apply odict_set_keys_old, Hlive.
  - cbn [tracked_vehicles]. rewrite Hcenter.
    apply find_closest_zero; [reflexivity | exact Hbefore].
Qed.

Lemma same_center_keeps_identity_witness :
  tracker_inv two_tracks ∧
  (_assign_tracking_id
     (_assign_tracking_id two_tracks (detection_at 200 200) 1).1
     (detection_at 200 200) 900).2 = 2.
Proof.
  destruct (tracker_wf_run
    [Assign (detection_at 0 0) 0%Q; Assign (detection_at 60 0) 0%Q])
    as (Hinv & _).
  fold two_tracks in Hinv. split; [exact Hinv |].
  rewrite (proj1 (same_center_keeps_identity two_tracks
    (detection_at 200 200) (detection_at 200 200) 1 900 Hinv eq_refl)).
  reflexivity.
Defined.

(** ** Properties of eviction *)

Lemma odict_get_filter {V} (P : V → Prop) `{∀ v, Decision (P v)}
    (k : Z) (d : list (Z * V)) :
  NoDup d.*1 →
  odict_get k (filter (λ e, P e.2) d)
  = odict_get k d ≫= λ v, if decide (P v) then Some v else None.
Proof.
  induction d as [| [k' v'] d IH]; intros Hnd; [reflexivity |].
  rewrite fmap_cons in Hnd. apply NoDup_cons in Hnd as [Hfresh Hnd]. cbn [fst] in Hfresh.
  rewrite filter_cons. cbn [snd odict_get].
  destruct (decide (k = k')) as [-> | Hne].
  - cbn [mbind option_bind]. destruct (decide (P v')) as [HP | HP].
    + cbn [odict_get]. rewrite decide_True by reflexivity. reflexivity.
    + apply odict_get_None. intros Hin. apply Hfresh.
      eapply elem_of_sublist; [exact Hin |]. apply fmap_sublist, sublist_filter.
  - destruct (decide (P v')) as [HP | HP]; [| apply IH, Hnd].
    cbn [odict_get]. rewrite decide_False by assumption. apply IH, Hnd.
Qed.

(** What a cleanup leaves under an identity. *)
Lemma cleanup_tracks_lookup self current_time id :
  NoDup (live_ids self) →
  odict_get id (tracked_vehicles (cleanup_tracks self current_time))
  = odict_get id (tracked_vehicles self) ≫=
      λ track, if expired current_time track then None else Some track.
Proof.
  intros Hnd. rewrite cleanup_tracks_filter by assumption.
  pose proof (odict_get_filter (λ track, expired current_time track = false)
                id (tracked_vehicles self) Hnd) as Hfilter.
  cbn beta in Hfilter. rewrite Hfilter.
  destruct (odict_get id (tracked_vehicles self)) as [track |]; [| reflexivity].
  cbn [mbind option_bind]. destruct (expired current_time track); reflexivity.
Qed.

Lemma expired_later t1 t2 track :
  (t1 <= t2)%Q → expired t1 track = true → expired t2 track = true.
Proof.
  rewrite !expired_iff. intros Hle Hexp.
  eapply Qlt_le_trans; [exact Hexp |].
  apply Qplus_le_l. exact Hle.
Qed.

(** X5: cleanups compose: a cleanup followed by a cleanup at the same or a
    later clock reading leaves the tracker exactly as the later cleanup
    alone does; in particular a cleanup repeated at the same reading
    changes nothing. *)
Theorem cleanup_tracks_absorbs_earlier (self : VehicleDetector) (t1 t2 : Q)
    (Hkeys : NoDup (live_ids self)) (Horder : (t1 <= t2)%Q) :
  cleanup_tracks (cleanup_tracks self t1) t2 = cleanup_tracks self t2 ∧
  cleanup_tracks (cleanup_tracks self t2) t2 = cleanup_tracks self t2.
Proof.
  assert (∀ a b, (a <= b)%Q →
    cleanup_tracks (cleanup_tracks self a) b = cleanup_tracks self b) as Habsorb.
  { intros a b Hle.
    assert (NoDup (live_ids (cleanup_tracks self a))) as Hkeys'.
    { unfold live_ids. rewrite cleanup_tracks_filter by assumption.
      eapply sublist_NoDup; [exact Hkeys |]. apply fmap_sublist, sublist_filter. }
    pose proof (cleanup_tracks_filter (cleanup_tracks self a) b Hkeys') as Houter.
    rewrite (cleanup_tracks_filter self a Hkeys) in Houter.
    pose proof (cleanup_tracks_filter self b Hkeys) as Hinner.
    assert (tracked_vehicles (cleanup_tracks (cleanup_tracks self a) b)
            = tracked_vehicles (cleanup_tracks self b)) as Htracks.
    { rewrite Houter, Hinner, list_filter_filter.
      apply list_filter_iff. intros [id track]. cbn [snd]. split; [tauto |].
      intros Hfresh. split; [exact Hfresh |].
      destruct (expired a track) eqn:Hexp; [| reflexivity].
      rewrite (expired_later a b track Hle Hexp) in Hfresh. discriminate. }
    destruct (cleanup_tracks (cleanup_tracks self a) b) as [tr1 n1 c1] eqn:H1.
    destruct (cleanup_tracks self b) as [tr2 n2 c2] eqn:H2.
    cbn [tracked_vehicles] in Htracks. subst tr2.
    unfold cleanup_tracks in H1, H2. cbn [next_vehicle_id total_detections] in H1, H2.
    congruence. }
  split; [apply Habsorb, Horder | apply Habsorb, Qle_refl].
Qed.

Lemma cleanup_tracks_absorbs_earlier_witness :
  let self := (_assign_tracking_id init (detection_at 100 100) 0).1 in
  NoDup (live_ids self) ∧ (1 # 4 <= 1)%Q ∧
  cleanup_tracks (cleanup_tracks self (1 # 4)) 1 = cleanup_tracks self 1.
Proof.
  intros self.
  assert (NoDup (live_ids self)) as Hkeys by compute_done.
  assert (1 # 4 <= 1)%Q as Horder by (vm_compute; discriminate).
  split_and!; [exact Hkeys | exact Horder |].
  exact (proj1 (cleanup_tracks_absorbs_earlier self (1 # 4) 1 Hkeys Horder)).
Defined.

(** X6: a track survives every cleanup up to a third of a second after its
    last assignment and none after: a cleanup at most [eviction_window]
    after the assignment keeps the track with the center, bbox and time
    just stored, a later one removes it. *)
Theorem assigned_track_survives_window (self : VehicleDetector)
    (detection : Detection) (now current_time : Q) (Hinv : tracker_inv self) :
  let r := _assign_tracking_id self detection now in
  let self' := cleanup_tracks (fst r) current_time in
  ((current_time - now <= 1 # 3)%Q →
     odict_get (snd r) (tracked_vehicles self') = Some (track_of detection now)) ∧
  ((1 # 3 < current_time - now)%Q →
     odict_get (snd r) (tracked_vehicles self') = None).
Proof.
  intros r self'. subst r self'.
  pose proof (assign_tracking_id_step self detection now Hinv) as ((Hnd & _) & _).
  assert (odict_get (_assign_tracking_id self detection now).2
            (tracked_vehicles (_assign_tracking_id self detection now).1)
          = Some (track_of detection now)) as Hstored.
  { unfold _assign_tracking_id.
    destruct (find_closest _ _).2; cbn [fst snd tracked_vehicles]; apply odict_get_set_eq. }
  rewrite (cleanup_tracks_lookup _ _ _ Hnd), Hstored. cbn [mbind option_bind].
  assert (eviction_window == 1 # 3)%Q as Hwindow by reflexivity.
  split; intros Helapsed.
  - destruct (expired current_time (track_of detection now)) eqn:Hexp; [| reflexivity].
    apply expired_iff in Hexp. cbn [last_seen track_of] in Hexp.
    rewrite Hwindow in Hexp. exfalso. eapply Qlt_not_le; eassumption.
  - assert (expired current_time (track_of detection now) = true) as ->; [| reflexivity].
    apply expired_iff. cbn [last_seen track_of]. rewrite Hwindow. exact Helapsed.
Qed.

Lemma assigned_track_survives_window_witness :
  tracker_inv init ∧
  odict_get 0 (tracked_vehicles
    (cleanup_tracks (_assign_tracking_id init (detection_at 100 100) 5).1 (16 # 3)))
  = Some (track_of (detection_at 100 100) 5).
Proof.
  split; [exact init_inv |].
  apply (proj1 (assigned_track_survives_window init (detection_at 100 100) 5 (16 # 3) init_inv)).
  vm_compute. discriminate.
Defined.

(** ** Properties of a frame's detections *)

Lemma assign_tracking_id_total self detection now :
  total_detections (_assign_tracking_id self detection now).1 = total_detections self.
Proof. unfold _assign_tracking_id. destruct (find_closest _ _).2; reflexivity. Qed.

Lemma odict_set_key_in {V} (k : Z) (v : V) (d : list (Z * V)) :
  k ∈ (odict_set k v d).*1.
Proof.
  destruct (decide (k ∈ d.*1)) as [Hin | Hnin].
  - rewrite odict_set_keys_old by assumption. exact Hin.
  - rewrite odict_set_new, fmap_app by assumption.
    apply elem_of_app. right. apply list_elem_of_here.
Qed.

Lemma odict_set_keys_mono {V} (k k' : Z) (v : V) (d : list (Z * V)) :
  k' ∈ d.*1 → k' ∈ (odict_set k v d).*1.
Proof.
  intros Hin. destruct (decide (k ∈ d.*1)) as [Hold | Hnew].
  - rewrite odict_set_keys_old by assumption. exact Hin.
  - rewrite odict_set_new, fmap_app by assumption. apply elem_of_app. left. exact Hin.
Qed.

Lemma assign_tracking_id_live self detection now :
  (_assign_tracking_id self detection now).2
  ∈ live_ids (_assign_tracking_id self detection now).1.
Proof.
  unfold _assign_tracking_id, live_ids.
  destruct (find_closest _ _).2; cbn [fst snd tracked_vehicles]; apply odict_set_key_in.
Qed.

Lemma assign_tracking_id_keeps_live self detection now id :
  id ∈ live_ids self → id ∈ live_ids (_assign_tracking_id self detection now).1.
Proof.
  unfold _assign_tracking_id, live_ids.
  destruct (find_closest _ _).2; cbn [fst tracked_vehicles]; apply odict_set_keys_mono.
Qed.

Lemma detection_of_untagged box detection :
  detection_of box = Some detection → untagged detection = detection.
Proof.
  unfold detection_of. destruct (xyxy box) as [[[x1 y1] x2] y2].
  destruct (config.VEHICLE_CLASSES !! cls box); [| discriminate].
  intros [= <-]. reflexivity.
Qed.

(** The loop of [detect_vehicles] from any accumulator, without reference
    to the tracker's invariant. *)
Lemma detect_box_fold_detections boxes self detections :
  let r := foldl detect_box (self, detections) boxes in
  ∃ new, r.2 = detections ++ new ∧
    untagged <$> new = omap detection_of boxes.*1 ∧
    total_detections r.1 = total_detections self + Z.of_nat (length new) ∧
    (∀ id, id ∈ live_ids self → id ∈ live_ids r.1) ∧
    Forall (λ d, ∃ id, det_id d = Some id ∧ id ∈ live_ids r.1) new.
Proof.
  revert self detections. induction boxes as [| [box now] boxes IH];
    intros self detections; cbn [foldl].
  - exists []. rewrite app_nil_r. cbn [fst snd]. split_and!; try done. simpl. lia.
  - rewrite detect_box_eq, fmap_cons. cbn [fst omap list_omap].
    destruct (detection_of box) as [detection |] eqn:Hbox; [| apply IH].
    cbn zeta.
    destruct (IH (counted (_assign_tracking_id self detection now).1)
                 (detections ++ [tagged detection (_assign_tracking_id self detection now).2]))
      as (new & Hnew & Huntagged & Htotal & Hkeep & Hids).
    exists (tagged detection (_assign_tracking_id self detection now).2 :: new).
    split_and!.
    + rewrite Hnew, <- app_assoc. reflexivity.
    + rewrite fmap_cons, Huntagged. f_equal.
      transitivity (untagged detection); [reflexivity |].
      apply (detection_of_untagged box), Hbox.
    + rewrite Htotal. cbn [counted total_detections length].
      rewrite assign_tracking_id_total. lia.
    + intros id Hid. apply Hkeep. apply (assign_tracking_id_keeps_live _ detection now), Hid.
    + constructor; [| exact Hids].
      exists (_assign_tracking_id self detection now).2. split; [reflexivity |].
      apply Hkeep. apply assign_tracking_id_live.
Qed.

(** X7: what a frame's detections are, apart from their identities, does
    not depend on the tracker: for a frame whose boxes are in range they
    are the boxes of a vehicle class (2, 3, 5 or 7), in order, each with
    its truncated corners, its center computed in [float32] and its class
    name, and the detection counter grows by their number.  Boxes of any
    other class are dropped. *)
Theorem detect_vehicles_independent_of_tracks (self : VehicleDetector)
    (boxes : list (Box * Q)) (Hrange : frame_in_range boxes) :
  let r := detect_vehicles self boxes in
  untagged <$> r.2 = omap detection_of boxes.*1 ∧
  total_detections r.1 = total_detections self + Z.of_nat (length r.2) ∧
  (∀ other, length (detect_vehicles other boxes).2 = length r.2) ∧
  (∀ box, detection_of box = None ↔ cls box ∉ [2; 3; 5; 7]).
Proof.
  intros r. subst r. unfold detect_vehicles.
  destruct (detect_box_fold_detections boxes self [])
    as (new & Hnew & Huntagged & Htotal & _).
  cbn zeta in *. rewrite Hnew. cbn [app]. split_and!; [exact Huntagged | exact Htotal | |].
  - intros other.
    destruct (detect_box_fold_detections boxes other []) as (new' & -> & Huntagged' & _).
    cbn [app]. rewrite <- (length_fmap untagged new'), <- (length_fmap untagged new).
    congruence.
  - intros box. unfold detection_of. destruct (xyxy box) as [[[x1 y1] x2] y2].
    rewrite !not_elem_of_cons. unfold config.VEHICLE_CLASSES.
    destruct (decide (cls box = 2)) as [-> | H2]; [split; [discriminate | tauto] |].
    destruct (decide (cls box = 3)) as [-> | H3]; [split; [discriminate | tauto] |].
    destruct (decide (cls box = 5)) as [-> | H5]; [split; [discriminate | tauto] |].
    destruct (decide (cls box = 7)) as [-> | H7]; [split; [discriminate | tauto] |].
    rewrite !lookup_insert_ne, lookup_empty by congruence.
    split; [intros _ | reflexivity]. split_and!; try assumption. apply not_elem_of_nil.
Qed.

Lemma detect_vehicles_independent_of_tracks_witness :
  frame_in_range subpixel_frame ∧
  untagged <$> (detect_vehicles two_tracks subpixel_frame).2
  = omap detection_of subpixel_frame.*1 ∧
  det_center <$> (detect_vehicles two_tracks subpixel_frame).2 = [(315, 110)] ∧
  py_int (((629 # 2) + (10338303 # 32768)) / 2) = 314.
Proof.
  assert (frame_in_range subpixel_frame) as Hrange.
  { apply Forall_cons_2; [| apply Forall_nil_2].
    split_and!; [repeat constructor | vm_compute; discriminate..]. }
  split_and!; [exact Hrange | | reflexivity..].
  exact (proj1 (detect_vehicles_independent_of_tracks two_tracks subpixel_frame Hrange)).
Defined.

(** X8: every detection a frame returns carries an identity, and that
    identity is live in the tracker after the frame; no track that was
    live before the frame is lost. *)
Theorem detect_vehicles_identities_live (self : VehicleDetector)
    (boxes : list (Box * Q)) :
  let r := detect_vehicles self boxes in
  (∀ detection, detection ∈ r.2 →
     ∃ id, det_id detection = Some id ∧ id ∈ live_ids r.1) ∧
  (∀ id, id ∈ live_ids self → id ∈ live_ids r.1).
Proof.
  intros r. subst r. unfold detect_vehicles.
  destruct (detect_box_fold_detections boxes self [])
    as (new & Hnew & _ & _ & Hkeep & Hids).
  cbn zeta in *. rewrite Hnew. cbn [app]. split; [| exact Hkeep].
  rewrite Forall_forall in Hids. exact Hids.
Qed.

Lemma detect_box_fold_prefix boxes self detections :
  foldl detect_box (self, detections) boxes
  = ((foldl detect_box (self, []) boxes).1,
     detections ++ (foldl detect_box (self, []) boxes).2).
Proof.
  revert self detections. induction boxes as [| [box now] boxes IH];
    intros self detections; cbn [foldl].
  - rewrite app_nil_r. reflexivity.
  - rewrite !detect_box_eq. destruct (detection_of box) as [detection |]; [| apply IH].
    cbn zeta. rewrite IH. rewrite (IH _ ([] ++ _)). cbn [fst snd app].
    rewrite <- app_assoc. reflexivity.
Qed.

(** X9: a frame processed in two parts gives what it gives in one: the
    detections of [boxes1 ++ boxes2] are those of [boxes1] followed by those
    of [boxes2] on the tracker [boxes1] left, with the same final tracker. *)
Theorem detect_vehicles_app (self : VehicleDetector) (boxes1 boxes2 : list (Box * Q)) :
  let r1 := detect_vehicles self boxes1 in
  let r2 := detect_vehicles (fst r1) boxes2 in
  detect_vehicles self (boxes1 ++ boxes2) = (fst r2, snd r1 ++ snd r2).
Proof.
  intros r1 r2. subst r1 r2. unfold detect_vehicles. rewrite foldl_app.
  destruct (foldl detect_box (self, []) boxes1) as [self1 detections1].
  apply detect_box_fold_prefix.
Qed.

(** [int] on numbers is monotone: it is the floor of a non-negative number
    and the ceiling of a negative one. *)
Lemma py_int_floor_ceiling (x : Q) :
  py_int x = if decide (0 ≤ Qnum x) then Qfloor x else Qceiling x.
Proof.
  unfold py_int, Qceiling, Qfloor. destruct x as [n d]. cbn [Qnum Qden Qopp].
  case_decide as Hsign.
  - apply Z.quot_div_nonneg; lia.
  - rewrite <- (Z.opp_involutive n) at 1. rewrite Z.quot_opp_l by lia.
    rewrite Z.quot_div_nonneg by lia. reflexivity.
Qed.

Lemma py_int_le (x y : Q) : (x <= y)%Q → py_int x ≤ py_int y.
Proof.
  intros Hle. rewrite !py_int_floor_ceiling.
  assert (∀ q : Q, 0 ≤ Qnum q ↔ (0 <= q)%Q) as Hsign.
  { intros [n d]. unfold Qle. cbn [Qnum Qden]. lia. }
  repeat case_decide.
  - apply Qfloor_resp_le, Hle.
  - exfalso. rewrite Hsign in *. apply H0. eapply Qle_trans; eassumption.
  - transitivity 0.
    + change 0 with (Qceiling 0). apply Qceiling_resp_le.
      apply Qlt_le_weak, Qnot_le_lt. rewrite <- Hsign. assumption.
    + change 0 with (Qfloor 0). apply Qfloor_resp_le. rewrite <- Hsign. assumption.
  - apply Qceiling_resp_le, Hle.
Qed.

(** ** numpy [float32] rounding *)

Lemma pow2_pos (e : Z) : (0 < 2 ^ e)%Q.
Proof. apply Qpower_0_lt. reflexivity. Qed.

Lemma pow2_plus (a b : Z) : (2 ^ (a + b) == 2 ^ a * 2 ^ b)%Q.
Proof. apply Qpower_plus. discriminate. Qed.

Lemma pow2_le (a b : Z) : a ≤ b → (2 ^ a <= 2 ^ b)%Q.
Proof. intros Hle. apply Qpower_le_compat_l; [exact Hle | discriminate]. Qed.

Lemma pow2_Z (n : Z) : 0 ≤ n → (2 ^ n == inject_Z (2 ^ n))%Q.
Proof. intros Hn. symmetry. apply (Zpower_Qpower 2 n Hn). Qed.

(** [Qlog2] is the floor of the binary logarithm. *)
Lemma Qlog2_spec (x : Q) :
  ¬ (x == 0)%Q → (2 ^ Qlog2 x <= Qabs x)%Q ∧ (Qabs x < 2 ^ (Qlog2 x + 1))%Q.
Proof.
  intros Hx. unfold Qlog2.
  destruct x as [n d]. cbn [Qnum Qden].
  assert (n ≠ 0) as Hn. { intros ->. apply Hx. reflexivity. }
  set (a := Z.log2 (Z.abs n)). set (b := Z.log2 (Z.pos d)).
  assert (0 < Z.abs n) as Hpos by lia.
  destruct (Z.log2_spec (Z.abs n) Hpos) as [Ha1 Ha2].
  destruct (Z.log2_spec (Z.pos d) ltac:(lia)) as [Hb1 Hb2].
  fold a in Ha1, Ha2. fold b in Hb1, Hb2.
  assert (0 ≤ a) as Ha0 by apply Z.log2_nonneg.
  assert (0 ≤ b) as Hb0 by apply Z.log2_nonneg.
  set (X := Qabs (n # d)).
  assert (X * inject_Z (Z.pos d) == inject_Z (Z.abs n))%Q as HX.
  { unfold X. cbn [Qabs]. unfold Qeq, Qmult, inject_Z. cbn [Qnum Qden]. lia. }
  assert (0 <= X)%Q as HX0 by apply Qabs_nonneg.
  assert (inject_Z (2 ^ a) <= inject_Z (Z.abs n))%Q as HA1 by (rewrite <- Zle_Qle; exact Ha1).
  assert (inject_Z (Z.abs n) < inject_Z (2 ^ Z.succ a))%Q as HA2 by (rewrite <- Zlt_Qlt; exact Ha2).
  assert (inject_Z (2 ^ b) <= inject_Z (Z.pos d))%Q as HB1 by (rewrite <- Zle_Qle; exact Hb1).
  assert (inject_Z (Z.pos d) < inject_Z (2 ^ Z.succ b))%Q as HB2 by (rewrite <- Zlt_Qlt; exact Hb2).
  rewrite <- !pow2_Z in HA1, HA2, HB1, HB2 by lia.
  unfold Z.succ in *. rewrite pow2_plus in HA2, HB2.
  change (2 ^ 1)%Q with 2%Q in *.
  pose proof (pow2_pos a) as HpA. pose proof (pow2_pos b) as HpB.
  pose proof (pow2_pos (a - b)) as HpK.
  assert (2 ^ (a - b) * 2 ^ b == 2 ^ a)%Q as HK.
  { rewrite <- pow2_plus. replace (a - b + b) with a by lia. reflexivity. }
  set (D := inject_Z (Z.pos d)) in *. set (N := inject_Z (Z.abs n)) in *.
  set (A := (2 ^ a)%Q) in *. set (B := (2 ^ b)%Q) in *. set (K := (2 ^ (a - b))%Q) in *.
  destruct (Qle_bool K X) eqn:Hcmp.
  - apply Qle_bool_iff in Hcmp. split; [exact Hcmp |].
    rewrite pow2_plus. fold K. change (2 ^ 1)%Q with 2%Q.
    apply Qnot_le_lt. intros Hge. nra.
  - assert (X < K)%Q as Hlt.
    { apply Qnot_le_lt. intros Hle. apply Qle_bool_iff in Hle. congruence. }
    replace (a - b - 1 + 1) with (a - b) by lia. split; [| exact Hlt].
    assert (2 * 2 ^ (a - b - 1) == K)%Q as HK'.
    { unfold K. replace (a - b) with (1 + (a - b - 1)) at 2 by lia.
      rewrite pow2_plus. reflexivity. }
    pose proof (pow2_pos (a - b - 1)) as HpK'.
    set (K' := (2 ^ (a - b - 1))%Q) in *.
    apply Qnot_lt_le. intros Hgt. nra.
Qed.

Lemma round_half_even_bounds (x : Q) :
  Qfloor x ≤ round_half_even x ≤ Qceiling x.
Proof.
  unfold round_half_even.
  pose proof (Qfloor_le x) as Hfloor. pose proof (Qle_ceiling x) as Hceiling.
  assert (Qfloor x ≤ Qceiling x) as Hfc.
  { rewrite Zle_Qle. apply Qle_floor_ceiling. }
  assert ((0 < x - inject_Z (Qfloor x))%Q → Qfloor x + 1 ≤ Qceiling x) as Hup.
  { intros Hfrac. assert (inject_Z (Qfloor x) < inject_Z (Qceiling x))%Q as Hlt by lra.
    rewrite <- Zlt_Qlt in Hlt. lia. }
  destruct (x - inject_Z (Qfloor x) ?= 1 # 2)%Q eqn:Hcmp.
  - apply Qeq_alt in Hcmp. destruct (Z.even (Qfloor x)); [lia |].
    split; [lia | apply Hup; lra].
  - lia.
  - apply Qgt_alt in Hcmp. split; [lia | apply Hup; lra].
Qed.

Lemma float32_round_bounds (x : Q) :
  ¬ (x == 0)%Q →
  let e := float32_exponent x in
  (inject_Z (Qfloor (x / 2 ^ e)) * 2 ^ e <= float32_round x)%Q ∧
  (float32_round x <= inject_Z (Qceiling (x / 2 ^ e)) * 2 ^ e)%Q.
Proof.
  intros Hx e. unfold float32_round.
  destruct (Qeq_bool x 0) eqn:Hzero; [apply Qeq_bool_iff in Hzero; contradiction |].
  fold e. pose proof (pow2_pos e) as Hpos.
  destruct (round_half_even_bounds (x / 2 ^ e)) as [Hlo Hhi].
  rewrite Zle_Qle in Hlo, Hhi. split; nra.
Qed.

Lemma scaled_eq (x : Q) (e : Z) : (x / 2 ^ e * 2 ^ e == x)%Q.
Proof. pose proof (pow2_pos e). field. lra. Qed.

Lemma float32_exponent_scaled (x : Q) :
  ¬ (x == 0)%Q → (Qabs (x / 2 ^ float32_exponent x) < inject_Z (2 ^ 24))%Q.
Proof.
  intros Hx. destruct (Qlog2_spec x Hx) as [_ Hhi].
  set (e := float32_exponent x).
  assert (Qlog2 x + 1 ≤ e + 24) as He by (unfold e, float32_exponent; lia).
  apply pow2_le in He. rewrite (pow2_plus e 24), (pow2_Z 24) in He by lia.
  pose proof (pow2_pos e) as Hpos.
  unfold Qdiv. rewrite Qabs_Qmult, Qabs_Qinv, (Qabs_pos (2 ^ e)) by lra.
  apply Qlt_shift_div_r; [exact Hpos |]. lra.
Qed.

Lemma representable_opp (x : Q) : representable x → representable (- x).
Proof.
  intros (m & e & Hx & Hm & He). exists (- m), e.
  split_and!; [| lia | exact He]. rewrite Hx, inject_Z_opp. ring.
Qed.

Lemma representable_double (x : Q) : representable x → representable (2 * x).
Proof.
  intros (m & e & Hx & Hm & He). exists m, (e + 1).
  split_and!; [| exact Hm | lia]. rewrite Hx, pow2_plus. change (2 ^ 1)%Q with 2%Q. ring.
Qed.

Lemma is_float32_representable (x : Q) : is_float32 x = true → representable x.
Proof.
  unfold is_float32. intros [Hvalue _]%andb_true_iff.
  apply orb_true_iff in Hvalue as [Hzero | Hinteger].
  - apply Qeq_bool_iff in Hzero. exists 0, 0. split_and!; [| lia..]. rewrite Hzero. reflexivity.
  - destruct (Qeq_dec x 0) as [Hzero | Hx].
    { exists 0, 0. split_and!; [| lia..]. rewrite Hzero. reflexivity. }
    cbn zeta in Hinteger. apply Qeq_bool_iff in Hinteger.
    exists (Qfloor (x / 2 ^ float32_exponent x)), (float32_exponent x).
    split_and!.
    + rewrite Hinteger. symmetry. apply scaled_eq.
    + pose proof (float32_exponent_scaled x Hx) as Hlt.
      rewrite <- Hinteger in Hlt. apply Qabs_Qlt_condition in Hlt as [Hlo Hhi].
      rewrite <- inject_Z_opp in Hlo. rewrite <- Zlt_Qlt in Hlo, Hhi. lia.
    + unfold float32_exponent. lia.
Qed.

(** The [float32] values on either side of a number: none lies above
    the number's floor in units of its last place, nor below its ceiling. *)
Lemma float32_grid_below (x a : Q) :
  ¬ (x == 0)%Q → representable a → (a <= x)%Q →
  (a <= inject_Z (Qfloor (x / 2 ^ float32_exponent x)) * 2 ^ float32_exponent x)%Q.
Proof.
  intros Hx (m & e' & Ha & Hm & He') Hle.
  set (e := float32_exponent x).
  pose proof (pow2_pos e) as Hpos. pose proof (pow2_pos e') as Hpos'.
  pose proof (scaled_eq x e) as Hscaled.
  pose proof (Qfloor_le (x / 2 ^ e)) as Hfloor.
  destruct (Z_le_gt_dec e e') as [Hge | Hlt].
  - assert (2 ^ e' == inject_Z (2 ^ (e' - e)) * 2 ^ e)%Q as Hpow.
    { rewrite <- pow2_Z, <- pow2_plus by lia. replace (e' - e + e) with e' by lia. reflexivity. }
    assert (a == inject_Z (m * 2 ^ (e' - e)) * 2 ^ e)%Q as Ha'.
    { rewrite Ha, Hpow, inject_Z_mult. ring. }
    assert (inject_Z (m * 2 ^ (e' - e)) <= x / 2 ^ e)%Q as Hn.
    { apply Qle_shift_div_l; [exact Hpos |]. rewrite <- Ha'. exact Hle. }
    apply Qfloor_resp_le in Hn. rewrite Qfloor_Z in Hn. rewrite Zle_Qle in Hn.
    rewrite Ha'. nra.
  - assert (e = Qlog2 x - 23) as He by (unfold e, float32_exponent in *; lia).
    destruct (Qlog2_spec x Hx) as [Hlo _].
    replace (Qlog2 x) with (e + 23) in Hlo by lia.
    rewrite pow2_plus, (pow2_Z 23) in Hlo by lia.
    assert (2 * 2 ^ e' <= 2 ^ e)%Q as Hstep.
    { change 2%Q with (2 ^ 1)%Q at 1. rewrite <- pow2_plus. apply pow2_le. lia. }
    assert (- inject_Z (2 ^ 24) < inject_Z m ∧ inject_Z m < inject_Z (2 ^ 24))%Q as [Hm1 Hm2].
    { rewrite <- inject_Z_opp, <- !Zlt_Qlt. lia. }
    change (inject_Z (2 ^ 24)) with (2 * inject_Z (2 ^ 23))%Q in Hm1, Hm2.
    set (c := inject_Z (2 ^ 23)) in *.
    assert (0 < c)%Q as Hc by reflexivity.
    destruct (Qlt_le_dec 0 x) as [Hsign | Hsign].
    + rewrite Qabs_pos in Hlo by lra.
      assert (c <= x / 2 ^ e)%Q as Hn.
      { apply Qle_shift_div_l; [exact Hpos |]. lra. }
      apply Qfloor_resp_le in Hn. unfold c in Hn. rewrite Qfloor_Z in Hn.
      rewrite Zle_Qle in Hn. fold c in Hn.
      rewrite Ha. nra.
    + rewrite Qabs_neg in Hlo by exact Hsign. rewrite Ha in Hle. exfalso. nra.
Qed.

Lemma float32_exponent_opp (x : Q) : float32_exponent (- x) = float32_exponent x.
Proof.
  unfold float32_exponent, Qlog2. destruct x as [n d].
  cbn [Qopp Qnum Qden Qabs]. rewrite Z.abs_opp. reflexivity.
Qed.

Lemma float32_grid_above (x a : Q) :
  ¬ (x == 0)%Q → representable a → (x <= a)%Q →
  (inject_Z (Qceiling (x / 2 ^ float32_exponent x)) * 2 ^ float32_exponent x <= a)%Q.
Proof.
  intros Hx Ha Hle.
  assert (¬ (- x == 0)%Q) as Hx' by (intros Hzero; apply Hx; lra).
  pose proof (float32_grid_below (- x) (- a) Hx' (representable_opp a Ha) ltac:(lra)) as Hbelow.
  rewrite float32_exponent_opp in Hbelow.
  assert (- x / 2 ^ float32_exponent x == - (x / 2 ^ float32_exponent x))%Q as Hopp.
  { pose proof (pow2_pos (float32_exponent x)). field. lra. }
  rewrite (Qfloor_comp _ _ Hopp) in Hbelow.
  unfold Qceiling. rewrite inject_Z_opp. lra.
Qed.

(** Rounding is monotone and leaves no [float32] value between a number
    and its rounding: a value below the number is at most the rounding, a
    value above it at least. *)
Lemma float32_round_ge (x a : Q) :
  representable a → (a <= x)%Q → (a <= float32_round x)%Q.
Proof.
  intros Ha Hle. destruct (Qeq_dec x 0) as [Hzero | Hx].
  - unfold float32_round. apply Qeq_bool_iff in Hzero as Hbool. rewrite Hbool. lra.
  - eapply Qle_trans; [apply (float32_grid_below x a Hx Ha Hle) |].
    apply (float32_round_bounds x Hx).
Qed.

Lemma float32_round_le (x a : Q) :
  representable a → (x <= a)%Q → (float32_round x <= a)%Q.
Proof.
  intros Ha Hle. destruct (Qeq_dec x 0) as [Hzero | Hx].
  - unfold float32_round. apply Qeq_bool_iff in Hzero as Hbool. rewrite Hbool. lra.
  - eapply Qle_trans; [| apply (float32_grid_above x a Hx Ha Hle)].
    apply (float32_round_bounds x Hx).
Qed.

(** A [float32] value is its own rounding. *)
Lemma float32_round_representable (x : Q) : representable x → (float32_round x == x)%Q.
Proof.
  intros Hx. apply Qle_antisym.
  - apply float32_round_le; [exact Hx | lra].
  - apply float32_round_ge; [exact Hx | lra].
Qed.

(** The [float32] midpoint of two [float32] values lies between them. *)
Lemma float32_midpoint_between (x y : Q) :
  representable x → representable y → (x <= y)%Q →
  (x <= float32_div (float32_add x y) 2)%Q ∧ (float32_div (float32_add x y) 2 <= y)%Q.
Proof.
  intros Hx Hy Hle. unfold float32_div, float32_add.
  assert (2 * x <= float32_round (x + y))%Q as Hlo.
  { apply float32_round_ge; [apply representable_double, Hx | lra]. }
  assert (float32_round (x + y) <= 2 * y)%Q as Hhi.
  { apply float32_round_le; [apply representable_double, Hy | lra]. }
  set (s := float32_round (x + y)) in *.
  change (s / 2)%Q with (s * (1 # 2))%Q.
  split; [apply float32_round_ge | apply float32_round_le]; try assumption; lra.
Qed.

(** No integer is nearer to a number than [round_half_even] of it. *)
Lemma round_half_even_nearest (x : Q) (n : Z) :
  (Qabs (inject_Z (round_half_even x) - x) <= Qabs (inject_Z n - x))%Q.
Proof.
  unfold round_half_even.
  pose proof (Qfloor_le x) as Hfloor. pose proof (Qlt_floor x) as Hlt.
  rewrite inject_Z_plus in Hlt. change (inject_Z 1) with 1%Q in Hlt.
  set (f := Qfloor x) in *.
  assert (inject_Z n <= inject_Z f ∨ inject_Z f + 1 <= inject_Z n)%Q as Hn.
  { destruct (Z_le_gt_dec n f) as [Hle | Hgt]; [left | right].
    - rewrite <- Zle_Qle. exact Hle.
    - change 1%Q with (inject_Z 1). rewrite <- inject_Z_plus, <- Zle_Qle. lia. }
  pose proof (Qle_Qabs (inject_Z n - x)) as Habs1.
  pose proof (Qle_Qabs (- (inject_Z n - x))) as Habs2. rewrite Qabs_opp in Habs2.
  apply Qabs_Qle_condition.
  destruct (x - inject_Z f ?= 1 # 2)%Q eqn:Hcmp.
  - apply Qeq_alt in Hcmp. destruct (Z.even f).
    + destruct Hn; split; lra.
    + rewrite inject_Z_plus. change (inject_Z 1) with 1%Q. destruct Hn; split; lra.
  - apply Qlt_alt in Hcmp. destruct Hn; split; lra.
  - apply Qgt_alt in Hcmp. rewrite inject_Z_plus. change (inject_Z 1) with 1%Q.
    destruct Hn; split; lra.
Qed.

(** [float32_round] gives a [float32] value, and none is nearer to the
    number. *)
Lemma float32_round_is_representable (x : Q) : representable (float32_round x).
Proof.
  unfold float32_round. destruct (Qeq_bool x 0) eqn:Hzero.
  { exists 0, 0. split_and!; [reflexivity | lia..]. }
  assert (¬ (x == 0)%Q) as Hx.
  { intros Heq. apply Qeq_bool_iff in Heq. congruence. }
  cbn zeta. set (e := float32_exponent x).
  pose proof (float32_exponent_scaled x Hx) as Hscaled. fold e in Hscaled.
  apply Qabs_Qlt_condition in Hscaled as [Hlo Hhi].
  destruct (round_half_even_bounds (x / 2 ^ e)) as [Hfloor Hceiling].
  assert (- 2 ^ 24 ≤ Qfloor (x / 2 ^ e)) as Hf.
  { rewrite <- (Qfloor_Z (- 2 ^ 24)). apply Qfloor_resp_le.
    rewrite inject_Z_opp. lra. }
  assert (Qceiling (x / 2 ^ e) ≤ 2 ^ 24) as Hc.
  { rewrite <- (Qceiling_Z (2 ^ 24)). apply Qceiling_resp_le. lra. }
  set (m := round_half_even (x / 2 ^ e)) in *.
  assert (-149 ≤ e) as He by (unfold e, float32_exponent; lia).
  destruct (decide (Z.abs m < 2 ^ 24)) as [Hm | Hm].
  - exists m, e. split_and!; [reflexivity | exact Hm | exact He].
  - exists (m `div` 2), (e + 1). split_and!; [| | lia].
    + rewrite pow2_plus. change (2 ^ 1)%Q with 2%Q.
      assert (m = 2 * (m `div` 2)) as Heven.
      { assert (m = 2 ^ 24 ∨ m = - 2 ^ 24) as [-> | ->] by lia; reflexivity. }
      rewrite Heven at 1. rewrite inject_Z_mult. change (inject_Z 2) with 2%Q. ring.
    + assert (m = 2 ^ 24 ∨ m = - 2 ^ 24) as [-> | ->] by lia; reflexivity.
Qed.

Lemma float32_round_nearest (x a : Q) :
  representable a → (Qabs (float32_round x - x) <= Qabs (a - x))%Q.
Proof.
  intros Ha. destruct (Qeq_dec x 0) as [Hzero | Hx].
  { unfold float32_round. apply Qeq_bool_iff in Hzero as Hbool. rewrite Hbool.
    assert (0 - x == 0)%Q as -> by lra. apply Qabs_nonneg. }
  pose proof (float32_grid_below x a Hx Ha) as Hbelow.
  pose proof (float32_grid_above x a Hx Ha) as Habove.
  unfold float32_round. destruct (Qeq_bool x 0) eqn:Hzero.
  { apply Qeq_bool_iff in Hzero. contradiction. }
  cbn zeta. set (e := float32_exponent x) in *.
  pose proof (pow2_pos e) as Hpos. pose proof (scaled_eq x e) as Hscaled.
  set (t := (x / 2 ^ e)%Q) in *.
  pose proof (round_half_even_nearest t (Qfloor t)) as Hnear1.
  pose proof (round_half_even_nearest t (Qceiling t)) as Hnear2.
  pose proof (Qfloor_le t) as Hfloor. pose proof (Qle_ceiling t) as Hceiling.
  rewrite (Qabs_neg (inject_Z (Qfloor t) - t)) in Hnear1 by lra.
  rewrite (Qabs_pos (inject_Z (Qceiling t) - t)) in Hnear2 by lra.
  apply Qabs_Qle_condition in Hnear1 as [Hn1 Hn1'].
  apply Qabs_Qle_condition in Hnear2 as [Hn2 Hn2'].
  pose proof (Qle_Qabs (a - x)) as Habs1.
  pose proof (Qle_Qabs (- (a - x))) as Habs2. rewrite Qabs_opp in Habs2.
  set (r := inject_Z (round_half_even t)) in *.
  set (f := inject_Z (Qfloor t)) in *. set (c := inject_Z (Qceiling t)) in *.
  apply Qabs_Qle_condition.
  destruct (Qlt_le_dec x a) as [Hcmp | Hcmp].
  - specialize (Habove ltac:(lra)). split; nra.
  - specialize (Hbelow Hcmp). split; nra.
Qed.

Lemma box_in_range_representable (box : Box) :
  box_in_range box →
  let '(x1, y1, x2, y2) := xyxy box in
  representable x1 ∧ representable y1 ∧ representable x2 ∧ representable y2.
Proof.
  unfold box_in_range. destruct (xyxy box) as [[[x1 y1] x2] y2].
  intros [Hvalues _]. rewrite !Forall_cons in Hvalues.
  destruct Hvalues as (Hx1 & Hy1 & Hx2 & Hy2 & _).
  split_and!; apply is_float32_representable; assumption.
Qed.

(** X10: a detection's center lies inside its bounding box.  The center
    is computed in [float32]: the sum of two corners is rounded before it
    is halved and truncated.  For boxes in range whose corners are in
    order, the rounded sum lies between the doubled corners, which are
    [float32] values, so the truncated center is between the truncated
    corners, on both axes. *)
Theorem detect_vehicles_center_inside_bbox (self : VehicleDetector)
    (boxes : list (Box * Q))
    (Hboxes : Forall (λ input, box_in_range input.1 ∧ corners_ordered input.1) boxes) :
  ∀ detection, detection ∈ (detect_vehicles self boxes).2 →
    ∃ x1 y1 x2 y2, det_bbox detection = [x1; y1; x2; y2] ∧
      x1 ≤ (det_center detection).1 ≤ x2 ∧
      y1 ≤ (det_center detection).2 ≤ y2.
Proof.
  intros detection Hin. unfold detect_vehicles in Hin.
  destruct (detect_box_fold_detections boxes self []) as (new & Hnew & Huntagged & _).
  cbn zeta in Hnew. rewrite Hnew in Hin. cbn [app] in Hin.
  apply (list_elem_of_fmap_2 untagged) in Hin. rewrite Huntagged in Hin.
  apply list_elem_of_omap in Hin as (box & Hbox & Hdet).
  apply list_elem_of_fmap in Hbox as ([box' now] & -> & Hbox). cbn [fst] in Hdet.
  rewrite Forall_forall in Hboxes. specialize (Hboxes _ Hbox). cbn [fst] in Hboxes.
  destruct Hboxes as [Hrange Hordered].
  apply box_in_range_representable in Hrange.
  unfold corners_ordered, detection_of in *.
  destruct (xyxy box') as [[[x1 y1] x2] y2].
  destruct Hordered as [Hx Hy]. destruct Hrange as (Hx1 & Hy1 & Hx2 & Hy2).
  destruct (config.VEHICLE_CLASSES !! cls box'); [| discriminate].
  cbn [mbind option_bind] in Hdet.
  injection Hdet as Hbbox _ _ _ Hcenter. rewrite <- Hcenter.
  exists (py_int x1), (py_int y1), (py_int x2), (py_int y2). cbn [fst snd].
  split_and!; [symmetry; exact Hbbox | apply py_int_le, float32_midpoint_between; assumption..].
Qed.

Lemma detect_vehicles_center_inside_bbox_witness :
  let boxes := subpixel_frame ++ second_frame in
  Forall (λ input, box_in_range input.1 ∧ corners_ordered input.1) boxes ∧
  det_center <$> (detect_vehicles init boxes).2 = [(315, 110); (140, 100); (180, 100)] ∧
  ∀ detection, detection ∈ (detect_vehicles init boxes).2 →
    ∃ x1 y1 x2 y2, det_bbox detection = [x1; y1; x2; y2] ∧
      x1 ≤ (det_center detection).1 ≤ x2 ∧
      y1 ≤ (det_center detection).2 ≤ y2.
Proof.
  intros boxes.
  assert (Forall (λ input, box_in_range input.1 ∧ corners_ordered input.1) boxes) as Hboxes.
  { repeat apply Forall_cons_2; [| | | apply Forall_nil_2];
      (split; [split_and!; [repeat constructor | vm_compute; discriminate..]
              | split; vm_compute; discriminate]). }
  split_and!; [exact Hboxes | reflexivity |].
  exact (detect_vehicles_center_inside_bbox init boxes Hboxes).
Defined.

Lemma tracks_bounded_box self detection now :
  tracker_inv self ∧ tracks_bounded self →
  let self' := counted (_assign_tracking_id self detection now).1 in
  tracker_inv self' ∧ tracks_bounded self'.
Proof.
  intros (Hinv & Hlen & Hnext) self'. subst self'.
  split; [apply (assign_tracking_id_step self detection now Hinv) |].
  unfold tracks_bounded in *.
  destruct (assign_tracking_id_shape self detection now Hinv)
    as [(l1 & id & t & l2 & Htracks & -> & _) | [-> _]];
    cbn [fst counted tracked_vehicles next_vehicle_id total_detections].
  - rewrite Htracks in Hlen. rewrite length_app in Hlen |- *. cbn [length] in *. lia.
  - rewrite length_app. cbn [length]. lia.
Qed.

Lemma tracks_bounded_frame boxes self detections :
  tracker_inv self ∧ tracks_bounded self →
  let self' := (foldl detect_box (self, detections) boxes).1 in
  tracker_inv self' ∧ tracks_bounded self'.
Proof.
  revert self detections. induction boxes as [| [box now] boxes IH];
    intros self detections H; [exact H |].
  cbn [foldl]. rewrite detect_box_eq.
  destruct (detection_of box) as [detection |]; [| apply IH, H].
  apply IH, tracks_bounded_box, H.
Qed.

Lemma tracks_bounded_cleanup self current_time :
  tracker_inv self ∧ tracks_bounded self →
  tracker_inv (cleanup_tracks self current_time) ∧
  tracks_bounded (cleanup_tracks self current_time).
Proof.
  intros (Hinv & Hlen & Hnext).
  split; [apply cleanup_tracks_inv, Hinv |].
  unfold tracks_bounded. rewrite cleanup_tracks_filter by apply Hinv.
  cbn [cleanup_tracks next_vehicle_id total_detections].
  split; [| exact Hnext].
  pose proof (length_filter (λ item : Z * Track, expired current_time item.2 = false)
                (tracked_vehicles self)). lia.
Qed.

(** X11: the tracker never holds more tracks than it has counted
    detections: after any sequence of frames and cleanups on a fresh
    detector, the number of live tracks is at most the identity counter,
    which is at most [total_detections]. *)
Theorem active_tracks_at_most_detections (ops : list operation)
    (Hpublic : Forall is_public ops) :
  let self := run init ops in
  Z.of_nat (length (tracked_vehicles self)) ≤ next_vehicle_id self ∧
  next_vehicle_id self ≤ total_detections self.
Proof.
  intros self. subst self.
  assert (tracker_inv init ∧ tracks_bounded init) as Hinit.
  { split; [exact init_inv |]. unfold tracks_bounded, init. simpl. lia. }
  revert Hinit. generalize init as self.
  induction Hpublic as [| op ops Hop _ IH]; intros self H; [apply H |].
  change (run self (op :: ops)) with (run (apply_operation self op) ops).
  apply IH. destruct op as [detection now | boxes | current_time];
    cbn [apply_operation is_public] in *.
  - destruct Hop.
  - apply tracks_bounded_frame, H.
  - apply tracks_bounded_cleanup, H.
Qed.

Lemma active_tracks_at_most_detections_witness :
  let ops := [Detect first_frame; Cleanup 5; Detect second_frame] in
  Forall is_public ops ∧
  Z.of_nat (length (tracked_vehicles (run init ops))) ≤ total_detections (run init ops).
Proof.
  intros ops.
  assert (Forall is_public ops) as Hpublic by (repeat constructor).
  split; [exact Hpublic |].
  destruct (active_tracks_at_most_detections ops Hpublic) as [Hlen Hnext].
  cbn zeta in *. lia.
Defined.

(** ** Properties of the planner and the recommendations *)

Lemma density_rank_values :
  density_rank "LOW" = 1 ∧ density_rank "MEDIUM" = 2 ∧
  density_rank "HIGH" = 3 ∧ density_rank "CRITICAL" = 4.
Proof. vm_compute. repeat split. Qed.

Lemma timing_for_values :
  timing_for "LOW" = config.mkTiming 15 3 10 ∧
  timing_for "MEDIUM" = config.mkTiming 30 3 20 ∧
  timing_for "HIGH" = config.mkTiming 45 3 30 ∧
  timing_for "CRITICAL" = config.mkTiming 60 3 40.
Proof. vm_compute. repeat split. Qed.

(** X12: more vehicles never mean a lower priority or a shorter green: the
    classifier is monotone in the count, both for the planner's rank of the
    level and for the green duration of the level's timing. *)
Theorem classify_density_monotone (count1 count2 : Z) (Hle : count1 ≤ count2) :
  density_rank (_classify_density count1) ≤ density_rank (_classify_density count2) ∧
  config.green (timing_for (_classify_density count1))
  ≤ config.green (timing_for (_classify_density count2)).
Proof.
  destruct density_rank_values as (Hlow & Hmedium & Hhigh & Hcritical).
  destruct timing_for_values as (Tlow & Tmedium & Thigh & Tcritical).
  unfold _classify_density.
  repeat case_match; try lia;
    rewrite ?Hlow, ?Hmedium, ?Hhigh, ?Hcritical, ?Tlow, ?Tmedium, ?Thigh, ?Tcritical;
    cbn [config.green]; lia.
Qed.

Lemma classify_density_monotone_witness :
  4 ≤ 17 ∧
  density_rank (_classify_density 4) ≤ density_rank (_classify_density 17).
Proof.
  split; [lia |].
  apply (classify_density_monotone 4 17). lia.
Defined.

(** X13: when every entry's density level is the classification of its
    count, the planned sequence is simply in order of count, descending: no
    direction is planned before one with more vehicles. *)
Theorem classified_sequence_follows_counts (ta : TrafficAnalysis)
    (Hkeys : NoDup ta.*1) (Hclassified : classified ta) :
  let sequence := _calculate_optimal_sequence ta in
  ∀ i j di dj ai aj,
    (i < j)%nat → sequence !! i = Some di → sequence !! j = Some dj →
    as_mapping ta !! di = Some ai → as_mapping ta !! dj = Some aj →
    count aj ≤ count ai.
Proof.
  intros sequence i j di dj ai aj Hij Hi Hj Hai Haj. subst sequence.
  unfold _calculate_optimal_sequence in Hi, Hj.
  pose proof (sorted_Permutation tuple_lt sequence_key true ta) as Hperm.
  apply list_lookup_fmap_Some_1 in Hi as ([di' ai'] & -> & Hi).
  apply list_lookup_fmap_Some_1 in Hj as ([dj' aj'] & -> & Hj).
  cbn [fst] in *.
  assert ((di', ai') ∈ ta) as Hini by (rewrite <- Hperm; eapply list_elem_of_lookup_2, Hi).
  assert ((dj', aj') ∈ ta) as Hinj by (rewrite <- Hperm; eapply list_elem_of_lookup_2, Hj).
  pose proof (as_mapping_lookup ta _ _ Hkeys Hini) as Hai'.
  pose proof (as_mapping_lookup ta _ _ Hkeys Hinj) as Haj'.
  simplify_eq.
  unfold classified in Hclassified. rewrite Forall_forall in Hclassified.
  pose proof (Hclassified _ Hini) as Hci. pose proof (Hclassified _ Hinj) as Hcj.
  cbn [snd] in Hci, Hcj.
  assert (ranks_before ai aj) as Hranks.
  { apply (sequence_key_ranks_before (di', ai) (dj', aj)).
    eapply (StronglySorted_lookup
              (λ a b, placed_after tuple_lt sequence_key true a b = false) _ i j);
      [| exact Hij | exact Hi | exact Hj].
    apply sorted_StronglySorted; [apply tuple_lt_asym | apply tuple_lt_negtrans]. }
  destruct Hranks as [Hlt | [_ Hle]]; [| exact Hle].
  rewrite Hci, Hcj in Hlt.
  destruct (Z_le_gt_dec (count aj) (count ai)) as [Hle | Hgt]; [exact Hle |].
  destruct density_rank_values as (Hlow & Hmedium & Hhigh & Hcritical).
  exfalso. revert Hlt. unfold _classify_density.
  repeat case_match; try lia; rewrite ?Hlow, ?Hmedium, ?Hhigh, ?Hcritical; lia.
Qed.

Lemma classified_sequence_follows_counts_witness :
  let ta := [("SOUTH", mkAnalysis 3 "LOW"); ("NORTH", mkAnalysis 28 "CRITICAL")] in
  NoDup ta.*1 ∧ classified ta ∧
  ∀ ai aj, as_mapping ta !! "NORTH" = Some ai → as_mapping ta !! "SOUTH" = Some aj →
    count aj ≤ count ai.
Proof.
  intros ta.
  assert (NoDup ta.*1) as Hkeys by compute_done.
  assert (classified ta) as Hclassified by (repeat constructor).
  split_and!; [exact Hkeys | exact Hclassified |].
  intros ai aj.
  apply (classified_sequence_follows_counts ta Hkeys Hclassified 0 1 "NORTH" "SOUTH" ai aj);
    [lia | reflexivity | reflexivity].
Defined.

Lemma sorted_of_sorted {A K} (lt : K → K → bool) (key : A → K) (reverse : bool)
    (l : list A) :
  StronglySorted (λ a b, placed_after lt key reverse a b = false) l →
  sorted lt key reverse l = l.
Proof.
  induction 1 as [| x l Hs IH Hall]; [reflexivity |].
  cbn [sorted foldr]. fold (sorted lt key reverse l). rewrite IH.
  destruct l as [| y l]; [reflexivity |].
  cbn [insert_stable]. apply Forall_cons in Hall as [-> _]. reflexivity.
Qed.

(** X14: planning is idempotent: a summary whose entries are re-inserted
    in their planned order is planned in exactly that order again, ties
    included. *)
Theorem calculate_optimal_sequence_replanned (ta : TrafficAnalysis) :
  _calculate_optimal_sequence (in_planned_order ta) = _calculate_optimal_sequence ta ∧
  (in_planned_order ta).*1 = _calculate_optimal_sequence ta ∧
  in_planned_order ta ≡ₚ ta.
Proof.
  unfold _calculate_optimal_sequence, in_planned_order. split_and!.
  - rewrite sorted_of_sorted; [reflexivity |].
    apply sorted_StronglySorted; [apply tuple_lt_asym | apply tuple_lt_negtrans].
  - reflexivity.
  - apply sorted_Permutation.
Qed.

Lemma timing_for_cases density :
  timing_for density ∈
    [config.mkTiming 15 3 10; config.mkTiming 30 3 20;
     config.mkTiming 45 3 30; config.mkTiming 60 3 40].
Proof.
  destruct timing_for_values as (Tlow & Tmedium & Thigh & Tcritical).
  destruct (decide (density ∈ DENSITY_LEVELS)) as [Hin | Hnin].
  - unfold DENSITY_LEVELS in Hin. rewrite !elem_of_cons in Hin.
    destruct Hin as [-> | [-> | [-> | [-> | Hin]]]];
      [rewrite Tlow | rewrite Tmedium | rewrite Thigh | rewrite Tcritical
       | apply elem_of_nil in Hin as []];
      rewrite !elem_of_cons; tauto.
  - destruct (unexpected_density_absent _ Hnin) as [Habsent _].
    unfold timing_for, dict_get_default. rewrite Habsent. apply list_elem_of_here.
Qed.

(** X15: whatever the density values are, every recommended green
    duration is one of 15, 30, 45 and 60 seconds and so within
    [MIN_GREEN_DURATION, MAX_GREEN_DURATION]; yellow is always 3 seconds
    and the total at most 63. *)
Theorem recommendations_within_limits (ta : TrafficAnalysis) (Hkeys : NoDup ta.*1) :
  ∃ recs, _generate_signal_recommendations ta = Ok recs ∧
    ∀ direction r, recs !! direction = Some (RecEntry r) →
      green_duration r ∈ [15; 30; 45; 60] ∧
      config.MIN_GREEN_DURATION ≤ green_duration r ≤ config.MAX_GREEN_DURATION ∧
      yellow_duration r = 3 ∧
      18 ≤ total_duration r ≤ 63.
Proof.
  destruct (generate_signal_recommendations_ok ta Hkeys) as (recs & Hrun & Hseq & Hrecs).
  exists recs. split; [exact Hrun |]. intros direction r Hr.
  destruct (decide (direction = "optimal_sequence")) as [-> | Hne]; [congruence |].
  rewrite (Hrecs direction Hne) in Hr.
  destruct (as_mapping ta !! direction) as [data |]; [| discriminate Hr].
  cbn [fmap option_fmap option_map] in Hr. unfold entry_of in Hr.
  injection Hr as <-. cbn [green_duration yellow_duration total_duration].
  unfold config.MIN_GREEN_DURATION, config.MAX_GREEN_DURATION.
  pose proof (timing_for_cases (density data)) as Hcases.
  rewrite !elem_of_cons in Hcases.
  destruct Hcases as [-> | [-> | [-> | [-> | Hin]]]];
    [| | | | apply elem_of_nil in Hin as []];
    cbn [config.green config.yellow]; rewrite !elem_of_cons; split_and!; (tauto || lia).
Qed.

Lemma recommendations_within_limits_witness :
  let ta := [("EAST", mkAnalysis 40 "JAMMED"); ("WEST", mkAnalysis 20 "HIGH")] in
  NoDup ta.*1 ∧
  ∃ recs, _generate_signal_recommendations ta = Ok recs ∧
    ∀ direction r, recs !! direction = Some (RecEntry r) →
      10 ≤ green_duration r ≤ 90.
Proof.
  intros ta.
  assert (NoDup ta.*1) as Hkeys by compute_done.
  split; [exact Hkeys |].
  destruct (recommendations_within_limits ta Hkeys) as (recs & Hrun & Hlimits).
  exists recs. split; [exact Hrun |].
  intros direction r Hr. apply (Hlimits direction r Hr).
Defined.

(** X16: the keys of the recommendations are the directions of the summary
    and ["optimal_sequence"]; that key always holds the sequence, so a
    direction of that name gets no entry; and an empty summary is not an
    error: it gives the empty sequence and nothing else. *)
Theorem recommendations_keys (ta : TrafficAnalysis) (Hkeys : NoDup ta.*1) :
  (∃ recs, _generate_signal_recommendations ta = Ok recs ∧
     dom recs = list_to_set ta.*1 ∪ {["optimal_sequence"]} ∧
     ∀ r, recs !! "optimal_sequence" ≠ Some (RecEntry r)) ∧
  _generate_signal_recommendations []
  = Ok (<["optimal_sequence" := RecSequence []]> ∅).
Proof.
  split; [| reflexivity].
  destruct (generate_signal_recommendations_ok ta Hkeys) as (recs & Hrun & Hseq & Hrecs).
  exists recs. split_and!; [exact Hrun | | intros r; rewrite Hseq; discriminate].
  apply set_eq. intros k.
  rewrite elem_of_dom, elem_of_union, elem_of_singleton, elem_of_list_to_set.
  destruct (decide (k = "optimal_sequence")) as [-> | Hne].
  - rewrite Hseq. split; [right; reflexivity | intros _; eexists; reflexivity].
  - rewrite (Hrecs k Hne), fmap_is_Some.
    unfold as_mapping. rewrite <- elem_of_dom, dom_list_to_map_L, elem_of_list_to_set.
    tauto.
Qed.

Lemma recommendations_keys_witness :
  let ta := [("optimal_sequence", mkAnalysis 9 "MEDIUM"); ("NORTH", mkAnalysis 1 "LOW")] in
  NoDup ta.*1 ∧
  ∃ recs, _generate_signal_recommendations ta = Ok recs ∧
    ∀ r, recs !! "optimal_sequence" ≠ Some (RecEntry r).
Proof.
  intros ta.
  assert (NoDup ta.*1) as Hkeys by compute_done.
  split; [exact Hkeys |].
  destruct (proj1 (recommendations_keys ta Hkeys)) as (recs & Hrun & _ & Hreserved).
  exists recs. split; assumption.
Defined.

(** ** Properties of the processing of uploads *)

Lemma dict_setitem_new {K V} `{EqDecision K} (k : K) (v : V) (d : list (K * V)) :
  k ∉ d.*1 → dict_setitem k v d = d ++ [(k, v)].
Proof.
  induction d as [| [k' v'] d IH]; intros Hnin; [reflexivity |].
  rewrite fmap_cons in Hnin. apply not_elem_of_cons in Hnin as [Hne Hnin].
  cbn [dict_setitem]. rewrite decide_False by assumption.
  rewrite IH by assumption. reflexivity.
Qed.

Lemma detect_vehicles_length self (frame : Frame) :
  Z.of_nat (length (detect_vehicles self frame).2) = vehicles_in frame.
Proof.
  unfold detect_vehicles, vehicles_in.
  destruct (detect_box_fold_detections frame self []) as (new & Hnew & Huntagged & _).
  cbn zeta in Hnew. rewrite Hnew. cbn [app].
  rewrite <- Huntagged, length_fmap. reflexivity.
Qed.

Lemma process_direction_image_readable detector (frame : Frame) image_path direction :
  process_direction_image detector (Some frame) image_path direction
  = Return ((detect_vehicles detector frame).1,
            {| image_direction := direction;
               image_vehicle_count := vehicles_in frame;
               image_density_level := _classify_density (vehicles_in frame);
               image_detections := (detect_vehicles detector frame).2 |}).
Proof.
  unfold process_direction_image.
  pose proof (detect_vehicles_length detector frame) as Hlength.
  destruct (detect_vehicles detector frame) as [detector' detections].
  cbn [fst snd] in *. rewrite Hlength. reflexivity.
Qed.

(** X17: the vehicle count and density level reported for an image do not
    depend on the detector's tracks, which all directions share: for any
    detector state and an image whose boxes are in range, the count is the
    number of boxes of a vehicle class and the level is its classification;
    only the identities in the detections depend on the state.  An image
    that cannot be read raises [ValueError] with its path. *)
Theorem process_direction_image_count (detector : VehicleDetector)
    (frame : option Frame) (image_path direction : string)
    (Hrange : ∀ boxes, frame = Some boxes → frame_in_range boxes) :
  match frame with
  | None =>
      process_direction_image detector frame image_path direction
      = Raise (ValueError (String.append "Cannot read image: " image_path))
  | Some boxes =>
      ∃ detector' result,
        process_direction_image detector frame image_path direction
        = Return (detector', result) ∧
        image_direction result = direction ∧
        image_vehicle_count result = vehicles_in boxes ∧
        image_density_level result = _classify_density (vehicles_in boxes) ∧
        untagged <$> image_detections result = omap detection_of boxes.*1 ∧
        total_detections detector' = total_detections detector + vehicles_in boxes
  end.
Proof.
  destruct frame as [boxes |]; [| reflexivity].
  rewrite process_direction_image_readable. eexists _, _.
  split; [reflexivity |]. cbn [image_direction image_vehicle_count image_density_level
                               image_detections].
  split_and!; [reflexivity.. | |].
  - unfold detect_vehicles.
    destruct (detect_box_fold_detections boxes detector []) as (new & -> & Huntagged & _).
    exact Huntagged.
  - rewrite <- (detect_vehicles_length detector boxes). unfold detect_vehicles.
    destruct (detect_box_fold_detections boxes detector []) as (new & -> & _ & Htotal & _).
    exact Htotal.
Qed.

Lemma process_direction_image_count_witness :
  let frame := subpixel_frame ++ second_frame in
  (∀ boxes, Some frame = Some boxes → frame_in_range boxes) ∧
  ∃ detector' result,
    process_direction_image two_tracks (Some frame) "uploads/north.jpg" "NORTH"
    = Return (detector', result) ∧
    image_vehicle_count result = 3 ∧
    image_density_level result = "LOW" ∧
    det_center <$> image_detections result = [(315, 110); (140, 100); (180, 100)] ∧
    total_detections detector' = total_detections two_tracks + 3.
Proof.
  intros frame.
  assert (∀ boxes, Some frame = Some boxes → frame_in_range boxes) as Hrange.
  { intros boxes [= <-]. repeat apply Forall_cons_2; [| | | apply Forall_nil_2];
      (split_and!; [repeat constructor | vm_compute; discriminate..]). }
  split; [exact Hrange |].
  destruct (process_direction_image_count two_tracks (Some frame)
              "uploads/north.jpg" "NORTH" Hrange)
    as (detector' & result & Hrun & _ & Hcount & Hlevel & Hdetections & Htotal).
  exists detector', result.
  split_and!; [exact Hrun | exact Hcount | exact Hlevel | | exact Htotal].
  transitivity (det_center <$> (untagged <$> image_detections result)).
  - rewrite <- list_fmap_compose. reflexivity.
  - rewrite Hdetections. reflexivity.
Defined.

Lemma analyse_direction_eq ta direction result :
  analyse_direction ta (direction, result)
  = dict_setitem direction (analysis_entry result) ta.
Proof. unfold analyse_direction, analysis_entry. destruct result; reflexivity. Qed.

Lemma build_traffic_analysis_fold (results : list (string * DirectionResult))
    (start : TrafficAnalysis) :
  NoDup (start.*1 ++ results.*1) →
  foldl analyse_direction start results
  = start ++ ((λ item, (item.1, analysis_entry item.2)) <$> results).
Proof.
  revert start. induction results as [| [direction result] results IH];
    intros start Hnd.
  - cbn [foldl fmap list_fmap]. rewrite app_nil_r. reflexivity.
  - cbn [foldl]. rewrite fmap_cons in Hnd. cbn [fst] in Hnd.
    rewrite analyse_direction_eq.
    apply NoDup_app in Hnd as (Hstart & Hdisj & [Hfresh Hrest]%NoDup_cons).
    rewrite dict_setitem_new.
    2: { intros Hin. apply (Hdisj _ Hin). apply list_elem_of_here. }
    rewrite IH.
    + rewrite fmap_cons, <- app_assoc. reflexivity.
    + rewrite fmap_app. cbn [fmap list_fmap fst]. rewrite <- app_assoc. cbn [app].
      apply NoDup_app. split_and!; [exact Hstart | | apply NoDup_cons; split; assumption].
      exact Hdisj.
Qed.

(** With every image readable, the loop returns one image result per
    upload, in upload order. *)
Lemma process_images_readable (uploaded_files : list (string * Upload))
    detector (direction_results : list (string * DirectionResult)) :
  Forall (λ item : string * Upload, is_Some item.2.2) uploaded_files →
  NoDup (direction_results.*1 ++ uploaded_files.*1) →
  ∃ detector' results,
    process_images detector direction_results uploaded_files
    = Return (detector', direction_results ++ results) ∧
    results.*1 = uploaded_files.*1 ∧
    Forall2 (λ (item : string * DirectionResult) (source : string * Frame),
               item.1 = source.1 ∧
               ∃ r, item.2 = FromImage r ∧
                    image_vehicle_count r = vehicles_in source.2 ∧
                    image_density_level r = _classify_density (vehicles_in source.2))
            results (readable uploaded_files).
Proof.
  revert detector direction_results.
  induction uploaded_files as [| [direction [filepath frame]] rest IH];
    intros detector direction_results Hreadable Hnd.
  - exists detector, []. rewrite app_nil_r. split_and!; [reflexivity.. | constructor].
  - apply Forall_cons in Hreadable as [[boxes Hframe] Hreadable].
    cbn [fst snd] in Hframe. subst frame.
    rewrite fmap_cons in Hnd. cbn [fst] in Hnd.
    apply NoDup_app in Hnd as (Hstart & Hdisj & [Hfresh Hrest]%NoDup_cons).
    cbn [process_images]. rewrite process_direction_image_readable.
    cbn [mbind outcome_bind]. rewrite dict_setitem_new.
    2: { intros Hin. apply (Hdisj _ Hin). apply list_elem_of_here. }
    match goal with
    | |- context [FromImage ?r] =>
        destruct (IH (detect_vehicles detector boxes).1
                    (direction_results ++ [(direction, FromImage r)]) Hreadable)
          as (detector' & results & Hrun & Hkeys & Hresults)
    end.
    { rewrite fmap_app. cbn [fmap list_fmap fst]. rewrite <- app_assoc. cbn [app].
      apply NoDup_app. split_and!; [exact Hstart | exact Hdisj |].
      apply NoDup_cons. split; assumption. }
    eexists detector', (_ :: results). split_and!.
    + rewrite Hrun, <- app_assoc. reflexivity.
    + rewrite !fmap_cons, Hkeys. reflexivity.
    + unfold readable. cbn [omap list_omap fst snd mbind option_bind].
      constructor; [| exact Hresults].
      cbn [fst snd]. split; [reflexivity |]. eexists. split; [reflexivity |].
      split; reflexivity.
Qed.

Lemma process_images_analysis (detector : VehicleDetector)
    (uploaded_files : list (string * Upload)) :
  NoDup uploaded_files.*1 →
  Forall (λ item : string * Upload, is_Some item.2.2) uploaded_files →
  ∃ detector' results,
    process_images detector [] uploaded_files = Return (detector', results) ∧
    build_traffic_analysis results
    = (λ source, (source.1, analysis_of_frame source.2)) <$> readable uploaded_files.
Proof.
  intros Hkeys Hreadable.
  destruct (process_images_readable uploaded_files detector [] Hreadable Hkeys)
    as (detector' & results & Hrun & Hdirs & Hresults).
  exists detector', results. split; [exact Hrun |].
  unfold build_traffic_analysis. rewrite build_traffic_analysis_fold.
  - cbn [app]. clear -Hresults. induction Hresults as [| [d r] [d' f] results sources
      (Hd & r' & Hr & Hcount & Hlevel) _ IH]; [reflexivity |].
    cbn [fst snd] in *. subst d' r. rewrite !fmap_cons, IH. f_equal.
    unfold analysis_of_frame, analysis_entry. cbn [fst snd].
    rewrite Hcount, Hlevel. reflexivity.
  - cbn [app fmap list_fmap]. rewrite Hdirs. exact Hkeys.
Qed.

Lemma readable_directions (uploaded_files : list (string * Upload)) :
  Forall (λ item : string * Upload, is_Some item.2.2) uploaded_files →
  ((λ source : string * Frame, (source.1, analysis_of_frame source.2))
     <$> readable uploaded_files).*1 = uploaded_files.*1.
Proof.
  induction uploaded_files as [| [direction [filepath frame]] rest IH];
    intros Hreadable; [reflexivity |].
  apply Forall_cons in Hreadable as [[boxes Hframe] Hreadable].
  cbn [fst snd] in Hframe. subst frame.
  unfold readable. cbn [omap list_omap fst snd mbind option_bind].
  rewrite !fmap_cons. cbn [fst]. f_equal. apply IH, Hreadable.
Qed.

(** X18: in image mode, with distinct directions and every image readable,
    the processing loop never fails and the traffic analysis built from its
    results has, for each upload in order, the number of vehicle boxes of
    that image as count and its classification as density: one direction's
    entry depends on that direction's image alone, although all images go
    through the same detector. *)
Theorem image_uploads_analysis (detector : VehicleDetector)
    (uploaded_files : list (string * Upload))
    (Hkeys : NoDup uploaded_files.*1)
    (Hreadable : Forall (λ item : string * Upload, is_Some item.2.2) uploaded_files) :
  ∃ detector' results,
    process_images detector [] uploaded_files = Return (detector', results) ∧
    build_traffic_analysis results
    = (λ source, (source.1, analysis_of_frame source.2)) <$> readable uploaded_files ∧
    (build_traffic_analysis results).*1 = uploaded_files.*1 ∧
    classified (build_traffic_analysis results).
Proof.
  destruct (process_images_analysis detector uploaded_files Hkeys Hreadable)
    as (detector' & results & Hrun & Hbuild).
  exists detector', results. split_and!; [exact Hrun | exact Hbuild | |].
  - rewrite Hbuild. apply readable_directions, Hreadable.
  - rewrite Hbuild. unfold classified. apply Forall_fmap, Forall_forall.
    intros [direction frame] _. reflexivity.
Qed.

Lemma image_uploads_analysis_witness :
  let uploaded_files :=
    [("NORTH", ("north.jpg", Some second_frame)); ("EAST", ("east.jpg", Some first_frame))] in
  NoDup uploaded_files.*1 ∧
  ∃ detector' results,
    process_images init [] uploaded_files = Return (detector', results) ∧
    build_traffic_analysis results
    = [("NORTH", mkAnalysis 2 "LOW"); ("EAST", mkAnalysis 1 "LOW")].
Proof.
  intros uploaded_files.
  assert (NoDup uploaded_files.*1) as Hkeys by compute_done.
  assert (Forall (λ item : string * Upload, is_Some item.2.2) uploaded_files) as Hreadable.
  { repeat constructor; eexists; reflexivity. }
  split; [exact Hkeys |].
  destruct (image_uploads_analysis init uploaded_files Hkeys Hreadable)
    as (detector' & results & Hrun & Hbuild & _).
  exists detector', results. split; [exact Hrun |]. rewrite Hbuild. reflexivity.
Defined.

(** X19: the first image that cannot be read aborts the whole loop: the
    result is the [ValueError] naming that file, whatever comes after it,
    and no direction's result is returned. *)
Theorem process_images_first_unreadable (detector : VehicleDetector)
    (direction_results : list (string * DirectionResult))
    (before after : list (string * Upload)) (direction filepath : string)
    (Hbefore : Forall (λ item : string * Upload, is_Some item.2.2) before) :
  process_images detector direction_results
    (before ++ (direction, (filepath, None)) :: after)
  = Raise (ValueError (String.append "Cannot read image: " filepath)).
Proof.
  revert detector direction_results.
  induction Hbefore as [| [d [p frame]] before [boxes Hframe] _ IH];
    intros detector direction_results.
  - reflexivity.
  - cbn [fst snd] in Hframe. subst frame.
    cbn [app process_images]. rewrite process_direction_image_readable.
    cbn [mbind outcome_bind]. apply IH.
Qed.

Lemma process_images_first_unreadable_witness :
  process_images init []
    [("NORTH", ("north.jpg", Some first_frame)); ("EAST", ("east.jpg", None));
     ("WEST", ("west.jpg", Some second_frame))]
  = Raise (ValueError "Cannot read image: east.jpg").
Proof.
  apply (process_images_first_unreadable init []
           [("NORTH", ("north.jpg", Some first_frame))]
           [("WEST", ("west.jpg", Some second_frame))] "EAST" "east.jpg").
  repeat constructor. eexists. reflexivity.
Defined.

(** X20: in image mode the recommendation for a direction is determined by
    that direction's image alone: for distinct accepted directions and
    readable images, the recommendations generated from the traffic
    analysis built from the results give each direction the number of
    vehicle boxes of its image, the classification of that number, and the
    green and yellow durations of that level. *)
Theorem image_recommendations (detector : VehicleDetector)
    (uploaded_files : list (string * Upload))
    (Hkeys : NoDup uploaded_files.*1)
    (Hdirections : Forall (λ item, item.1 ∈ DIRECTIONS) uploaded_files)
    (Hreadable : Forall (λ item : string * Upload, is_Some item.2.2) uploaded_files) :
  ∃ detector' results recs,
    process_images detector [] uploaded_files = Return (detector', results) ∧
    _generate_signal_recommendations (build_traffic_analysis results) = Ok recs ∧
    ∀ direction filepath boxes,
      (direction, (filepath, Some boxes)) ∈ uploaded_files →
      let level := _classify_density (vehicles_in boxes) in
      recs !! direction = Some (RecEntry {|
        density_level := level;
        vehicle_count := vehicles_in boxes;
        green_duration := config.green (timing_for level);
        yellow_duration := 3;
        total_duration := config.green (timing_for level) + 3 |}).
Proof.
  destruct (process_images_analysis detector uploaded_files Hkeys Hreadable)
    as (detector' & results & Hrun & Hbuild).
  assert (NoDup (build_traffic_analysis results).*1) as Hkeys'.
  { rewrite Hbuild, readable_directions by assumption. exact Hkeys. }
  destruct (generate_signal_recommendations_ok _ Hkeys') as (recs & Hrecs & _ & Hentries).
  exists detector', results, recs. split_and!; [exact Hrun | exact Hrecs |].
  intros direction filepath boxes Hin level. subst level.
  assert (direction ≠ "optimal_sequence") as Hne.
  { rewrite Forall_forall in Hdirections. specialize (Hdirections _ Hin).
    cbn [fst] in Hdirections. unfold DIRECTIONS in Hdirections.
    rewrite !elem_of_cons in Hdirections. intros ->.
    destruct Hdirections as [? | [? | [? | [? | Hnil]]]];
      [discriminate.. | apply elem_of_nil in Hnil as []]. }
  rewrite (Hentries direction Hne).
  rewrite (as_mapping_lookup _ direction (analysis_of_frame boxes) Hkeys').
  - cbn [fmap option_fmap option_map]. unfold entry_of, analysis_of_frame.
    cbn [density count]. repeat f_equal.
    + pose proof (timing_for_cases (_classify_density (vehicles_in boxes))) as Hcases.
      rewrite !elem_of_cons in Hcases.
      destruct Hcases as [-> | [-> | [-> | [-> | Hnil]]]];
        [reflexivity.. | apply elem_of_nil in Hnil as []].
    + pose proof (timing_for_cases (_classify_density (vehicles_in boxes))) as Hcases.
      rewrite !elem_of_cons in Hcases.
      destruct Hcases as [-> | [-> | [-> | [-> | Hnil]]]];
        [reflexivity.. | apply elem_of_nil in Hnil as []].
  - rewrite Hbuild.
    apply (list_elem_of_fmap_2
             (λ source : string * Frame, (source.1, analysis_of_frame source.2))
             _ (direction, boxes)).
    unfold readable. apply list_elem_of_omap.
    exists (direction, (filepath, Some boxes)). split; [exact Hin | reflexivity].
Qed.

Lemma image_recommendations_witness :
  let uploaded_files :=
    [("NORTH", ("north.jpg", Some second_frame)); ("EAST", ("east.jpg", Some first_frame))] in
  NoDup uploaded_files.*1 ∧
  ∃ detector' results recs,
    process_images init [] uploaded_files = Return (detector', results) ∧
    _generate_signal_recommendations (build_traffic_analysis results) = Ok recs ∧
    recs !! "NORTH" = Some (RecEntry {|
      density_level := "LOW"; vehicle_count := 2;
      green_duration := 15; yellow_duration := 3; total_duration := 18 |}).
Proof.
  intros uploaded_files.
  assert (NoDup uploaded_files.*1) as Hkeys by compute_done.
  assert (Forall (λ item : string * Upload, item.1 ∈ DIRECTIONS) uploaded_files)
    as Hdirections.
  { repeat constructor; unfold DIRECTIONS; cbn [fst]; rewrite !elem_of_cons; tauto. }
  assert (Forall (λ item : string * Upload, is_Some item.2.2) uploaded_files) as Hreadable.
  { repeat constructor; eexists; reflexivity. }
  split; [exact Hkeys |].
  destruct (image_recommendations init uploaded_files Hkeys Hdirections Hreadable)
    as (detector' & results & recs & Hrun & Hrecs & Hentries).
  exists detector', results, recs. split_and!; [exact Hrun | exact Hrecs |].
  apply (Hentries "NORTH" "north.jpg" second_frame).
  apply list_elem_of_here.
Defined.

(** ** Properties of the frame loop *)

(** What the loop does to its variables from any state: it reads at most
    [max_frames - frame_count] further frames and runs detection on those
    whose index is a multiple of [frame_skip]. *)
Lemma frame_loop_spec max_frames frame_skip (remaining : list Frame) st :
  let r := frame_loop max_frames frame_skip remaining st in
  let read := take (Z.to_nat (max_frames - frame_count st)) remaining in
  let processed := every_nth frame_skip (frame_count st) read in
  frame_count r = frame_count st + Z.of_nat (length read) ∧
  vehicle_counts r = vehicle_counts st ++ (vehicles_in <$> processed) ∧
  Z.of_nat (length (all_detections r))
  = Z.of_nat (length (all_detections st)) + sum_counts (vehicles_in <$> processed) ∧
  ∃ new, sample_frames r = sample_frames st ++ new ∧
    Forall (λ index, frame_count st ≤ index < frame_count r ∧
                     (index = 0 ∨ index = max_frames `div` 2) ∧
                     index `mod` frame_skip = 0) new ∧
    StronglySorted Z.lt new.
Proof.
  revert st. induction remaining as [| frame remaining IH]; intros st; cbn zeta.
  - rewrite take_nil. cbn [frame_loop every_nth length fmap list_fmap sum_counts foldr].
    rewrite app_nil_r. split_and!; [lia | reflexivity | lia |].
    exists []. rewrite app_nil_r. split_and!; [reflexivity | constructor | constructor].
  - cbn [frame_loop]. destruct (frame_count st <? max_frames) eqn:Hcond.
    + apply Z.ltb_lt in Hcond.
      replace (Z.to_nat (max_frames - frame_count st))
        with (S (Z.to_nat (max_frames - (frame_count st + 1)))) by lia.
      cbn [take every_nth length].
      destruct (frame_count st `mod` frame_skip =? 0) eqn:Hmod; cbn [negb].
      * apply Z.eqb_eq in Hmod.
        pose proof (detect_vehicles_length (loop_detector st) frame) as Hlength.
        destruct (detect_vehicles (loop_detector st) frame) as [detector detections].
        cbn [snd] in Hlength. cbn [negb]. rewrite orb_false_r.
        destruct ((frame_count st =? 0) || (frame_count st =? max_frames `div` 2))
          eqn:Hsample;
        match goal with
        | |- context [frame_loop _ _ remaining ?s] =>
            destruct (IH s) as (Hcount & Hcounts & Hall & new & Hsamples & Hnew & Hsorted)
        end;
        cbn [frame_count vehicle_counts all_detections sample_frames] in *;
        (split_and!;
         [ rewrite Hcount; lia
         | rewrite Hcounts, fmap_cons, <- app_assoc, Hlength; reflexivity
         | rewrite Hall, length_app, fmap_cons; cbn [sum_counts foldr];
           fold (sum_counts (vehicles_in <$>
                   every_nth frame_skip (frame_count st + 1)
                     (take (Z.to_nat (max_frames - (frame_count st + 1))) remaining)));
           lia
         | ]).
        -- exists (frame_count st :: new). split_and!.
           ++ rewrite Hsamples, <- app_assoc. reflexivity.
           ++ constructor.
              { split_and!; [lia | lia | | exact Hmod].
                apply orb_true_iff in Hsample as [H0 | Hhalf]; [left | right]; lia. }
              eapply Forall_impl; [exact Hnew |]. cbn beta. intros index. lia.
           ++ apply StronglySorted_cons. split; [| exact Hsorted].
              eapply Forall_impl; [exact Hnew |]. cbn beta. intros index. lia.
        -- exists new. split_and!; [exact Hsamples | | exact Hsorted].
           eapply Forall_impl; [exact Hnew |]. cbn beta. intros index. lia.
      * match goal with
        | |- context [frame_loop _ _ remaining ?s] =>
            destruct (IH s) as (Hcount & Hcounts & Hall & new & Hsamples & Hnew & Hsorted)
        end.
        cbn [frame_count vehicle_counts all_detections sample_frames] in *.
        split_and!; [rewrite Hcount; lia | exact Hcounts | exact Hall |].
        exists new. split_and!; [exact Hsamples | | exact Hsorted].
        eapply Forall_impl; [exact Hnew |]. cbn beta. intros index. lia.
    + apply Z.ltb_ge in Hcond.
      replace (Z.to_nat (max_frames - frame_count st)) with 0%nat by lia.
      cbn [take every_nth length fmap list_fmap sum_counts foldr].
      rewrite app_nil_r. split_and!; [lia | reflexivity | lia |].
      exists []. rewrite app_nil_r. split_and!; [reflexivity | constructor | constructor].
Qed.

Lemma process_video_frames_opened detector cap video_path max_frames :
  is_opened cap = true → max_frames ≠ 0 →
  process_video_frames detector cap video_path max_frames
  = Return (frame_loop max_frames (Z.max 1 (total_frames cap `div` max_frames))
              (frames cap)
              {| loop_detector := detector; all_detections := [];
                 vehicle_counts := []; frame_count := 0; sample_frames := [] |}).
Proof.
  intros Hopened Hmax. unfold process_video_frames. rewrite Hopened. cbn [negb].
  apply Z.eqb_neq in Hmax. rewrite Hmax. reflexivity.
Qed.

(** X21: the frames of a video that are looked at: at most [max_frames]
    frames are read, all from the start of the video; detection runs on
    those read frames whose index is a multiple of [frame_skip], and the
    per-frame counts are the numbers of vehicle boxes of those frames,
    whatever tracks the shared detector holds. *)
Theorem process_video_frames_counts (detector : VehicleDetector)
    (cap : VideoCapture) (video_path : string) (max_frames : Z)
    (Hopened : is_opened cap = true) (Hmax : max_frames ≠ 0) :
  let frame_skip := Z.max 1 (total_frames cap `div` max_frames) in
  let read := take (Z.to_nat max_frames) (frames cap) in
  ∃ r, process_video_frames detector cap video_path max_frames = Return r ∧
    frame_count r = Z.of_nat (length read) ∧
    frame_count r = Z.max 0 (Z.min max_frames (Z.of_nat (length (frames cap)))) ∧
    vehicle_counts r = vehicles_in <$> every_nth frame_skip 0 read.
Proof.
  intros frame_skip read. subst frame_skip read.
  rewrite process_video_frames_opened by assumption. eexists. split; [reflexivity |].
  match goal with
  | |- context [frame_loop ?m ?k ?l ?s] =>
      destruct (frame_loop_spec m k l s) as (Hcount & Hcounts & _)
  end.
  cbn [frame_count vehicle_counts app] in Hcount, Hcounts.
  rewrite Z.sub_0_r in Hcount, Hcounts.
  split_and!; [rewrite Hcount; lia | | exact Hcounts].
  rewrite Hcount, length_take. lia.
Qed.

Lemma process_video_frames_counts_witness :
  let cap := mkVideoCapture true 6 [first_frame; second_frame; first_frame; second_frame] in
  is_opened cap = true ∧ 3 ≠ 0 ∧
  ∃ r, process_video_frames init cap "north.mp4" 3 = Return r ∧
    frame_count r = 3 ∧ vehicle_counts r = [1; 1].
Proof.
  intros cap.
  assert (is_opened cap = true) as Hopened by reflexivity.
  assert (3 ≠ 0) as Hmax by lia.
  split_and!; [exact Hopened | exact Hmax |].
  destruct (process_video_frames_counts init cap "north.mp4" 3 Hopened Hmax)
    as (r & Hrun & Hcount & _ & Hcounts).
  exists r. split_and!; [exact Hrun | exact Hcount | exact Hcounts].
Defined.

Lemma ceiling_step (frame_skip index : Z) :
  0 < frame_skip →
  (index + 1 + frame_skip - 1) `div` frame_skip
  = (index + frame_skip - 1) `div` frame_skip
    + (if index `mod` frame_skip =? 0 then 1 else 0).
Proof.
  intros Hskip.
  pose proof (Z.div_mod index frame_skip ltac:(lia)) as Hdiv.
  pose proof (Z.mod_pos_bound index frame_skip Hskip) as Hbound.
  destruct (index `mod` frame_skip =? 0) eqn:Hmod.
  - apply Z.eqb_eq in Hmod.
    symmetry. apply (Z.div_unique _ _ _ 0); [lia |].
    assert ((index + frame_skip - 1) `div` frame_skip = index `div` frame_skip) as ->.
    { symmetry. apply (Z.div_unique _ _ _ (frame_skip - 1)); lia. }
    lia.
  - apply Z.eqb_neq in Hmod.
    rewrite Z.add_0_r. symmetry.
    apply (Z.div_unique _ _ _ (index `mod` frame_skip)); [lia |].
    assert ((index + frame_skip - 1) `div` frame_skip = index `div` frame_skip + 1) as ->.
    { symmetry. apply (Z.div_unique _ _ _ (index `mod` frame_skip - 1)); lia. }
    lia.
Qed.

Lemma every_nth_length (frame_skip index : Z) (remaining : list Frame) :
  0 < frame_skip →
  Z.of_nat (length (every_nth frame_skip index remaining))
  = (index + Z.of_nat (length remaining) + frame_skip - 1) `div` frame_skip
    - (index + frame_skip - 1) `div` frame_skip.
Proof.
  intros Hskip. revert index. induction remaining as [| frame remaining IH]; intros index.
  - cbn [every_nth length]. replace (index + Z.of_nat 0) with index by lia. lia.
  - cbn [every_nth]. pose proof (ceiling_step frame_skip index Hskip) as Hstep.
    replace (index + Z.of_nat (length (frame :: remaining)) + frame_skip - 1)
      with (index + 1 + Z.of_nat (length remaining) + frame_skip - 1)
      by (cbn [length]; lia).
    destruct (index `mod` frame_skip =? 0); cbn [length]; rewrite ?Nat2Z.inj_succ, IH; lia.
Qed.

(** X22: detection runs on one frame in [frame_skip]: the number of
    per-frame counts is the number of frames read divided by [frame_skip],
    rounded up.  With [total_frames] ten times [max_frames], a tenth of the
    first [max_frames] frames is analysed and nothing of the rest of the
    video. *)
Theorem process_video_frames_detection_runs (detector : VehicleDetector)
    (cap : VideoCapture) (video_path : string) (max_frames : Z)
    (Hopened : is_opened cap = true) (Hmax : max_frames ≠ 0) :
  let frame_skip := Z.max 1 (total_frames cap `div` max_frames) in
  ∃ r, process_video_frames detector cap video_path max_frames = Return r ∧
    Z.of_nat (length (vehicle_counts r))
    = (frame_count r + frame_skip - 1) `div` frame_skip ∧
    Z.of_nat (length (vehicle_counts r)) ≤ frame_count r ≤ Z.max 0 max_frames.
Proof.
  intros frame_skip. subst frame_skip.
  rewrite process_video_frames_opened by assumption. eexists. split; [reflexivity |].
  match goal with
  | |- context [frame_loop ?m ?k ?l ?s] =>
      destruct (frame_loop_spec m k l s) as (Hcount & Hcounts & _)
  end.
  cbn [frame_count vehicle_counts app] in Hcount, Hcounts.
  rewrite Z.sub_0_r in Hcount, Hcounts.
  set (frame_skip := Z.max 1 (total_frames cap `div` max_frames)) in *.
  assert (0 < frame_skip) as Hskip by (subst frame_skip; lia).
  rewrite Hcounts, length_fmap, every_nth_length by assumption.
  rewrite Hcount. cbn [frame_count].
  assert ((0 + frame_skip - 1) `div` frame_skip = 0) as ->
    by (apply Z.div_small; lia).
  rewrite Z.sub_0_r, Z.add_0_l. split; [reflexivity |].
  rewrite length_take. split; [| lia].
  set (n := Z.of_nat (Nat.min (Z.to_nat max_frames) (length (frames cap)))).
  assert (0 ≤ n) as Hn by (subst n; lia).
  destruct (decide (n = 0)) as [-> | Hpos].
  - rewrite Z.add_0_l, Z.div_small; lia.
  - apply Z.div_le_upper_bound; [lia |]. nia.
Qed.

Lemma process_video_frames_detection_runs_witness :
  let cap := mkVideoCapture true 1000 (replicate 150 first_frame) in
  is_opened cap = true ∧ 100 ≠ 0 ∧
  ∃ r, process_video_frames init cap "north.mp4" 100 = Return r ∧
    Z.of_nat (length (vehicle_counts r)) = (frame_count r + 10 - 1) `div` 10.
Proof.
  intros cap.
  assert (is_opened cap = true) as Hopened by reflexivity.
  assert (100 ≠ 0) as Hmax by lia.
  split_and!; [exact Hopened | exact Hmax |].
  destruct (process_video_frames_detection_runs init cap "north.mp4" 100 Hopened Hmax)
    as (r & Hrun & Hlength & _).
  exists r. split; [exact Hrun | exact Hlength].
Defined.

(** X23: a capture that did not open raises [ValueError] with the path,
    whatever [max_frames] is; an opened capture with [max_frames = 0]
    raises [ZeroDivisionError] from the computation of [frame_skip]; with a
    negative [max_frames], or no readable frame, the loop reads nothing and
    the counts are empty. *)
Theorem process_video_frames_edges (detector : VehicleDetector)
    (cap : VideoCapture) (video_path : string) (max_frames : Z) :
  (is_opened cap = false →
     process_video_frames detector cap video_path max_frames
     = Raise (ValueError (String.append "Cannot open video: " video_path))) ∧
  (is_opened cap = true → max_frames = 0 →
     process_video_frames detector cap video_path max_frames = Raise ZeroDivisionError) ∧
  (is_opened cap = true → (max_frames < 0) ∨ (max_frames ≠ 0 ∧ frames cap = []) →
     process_video_frames detector cap video_path max_frames
     = Return {| loop_detector := detector; all_detections := [];
                 vehicle_counts := []; frame_count := 0; sample_frames := [] |}).
Proof.
  split_and!.
  - intros Hclosed. unfold process_video_frames. rewrite Hclosed. reflexivity.
  - intros Hopened ->. unfold process_video_frames. rewrite Hopened. reflexivity.
  - intros Hopened Hnothing.
    rewrite process_video_frames_opened by (try assumption; lia). f_equal.
    destruct Hnothing as [Hnegative | [_ ->]]; [| reflexivity].
    destruct (frames cap) as [| frame remaining]; [reflexivity |].
    cbn [frame_loop frame_count].
    assert ((0 <? max_frames) = false) as -> by (apply Z.ltb_ge; lia). reflexivity.
Qed.

(** X24: only frame 0 and frame [max_frames // 2] can be sample frames,
    and only when detection ran on them; so there are at most two sample
    frames, in order, and the last frame read is not a sample unless it is
    one of these two. *)
Theorem process_video_frames_samples (detector : VehicleDetector)
    (cap : VideoCapture) (video_path : string) (max_frames : Z)
    (Hopened : is_opened cap = true) (Hmax : max_frames ≠ 0) :
  let frame_skip := Z.max 1 (total_frames cap `div` max_frames) in
  ∃ r, process_video_frames detector cap video_path max_frames = Return r ∧
    (∀ index, index ∈ sample_frames r →
       (index = 0 ∨ index = max_frames `div` 2) ∧
       0 ≤ index < frame_count r ∧ index `mod` frame_skip = 0) ∧
    StronglySorted Z.lt (sample_frames r) ∧
    (length (sample_frames r) ≤ 2)%nat.
Proof.
  intros frame_skip. subst frame_skip.
  rewrite process_video_frames_opened by assumption. eexists. split; [reflexivity |].
  match goal with
  | |- context [frame_loop ?m ?k ?l ?s] =>
      destruct (frame_loop_spec m k l s) as (_ & _ & _ & new & -> & Hnew & Hsorted)
  end.
  cbn [sample_frames frame_count app] in *. rewrite Forall_forall in Hnew.
  split_and!; [| exact Hsorted |].
  - intros index Hin. destruct (Hnew index Hin) as (Hrange & Hwhich & Hmod).
    split_and!; [exact Hwhich | lia | lia | exact Hmod].
  - destruct new as [| a [| b [| c new]]]; cbn [length]; try lia.
    exfalso.
    apply StronglySorted_cons in Hsorted as [Hab Hsorted].
    apply StronglySorted_cons in Hsorted as [Hbc _].
    apply Forall_cons in Hab as [Hab Hac]. apply Forall_cons in Hac as [Hac _].
    apply Forall_cons in Hbc as [Hbc _].
    destruct (Hnew a) as (_ & Ha & _); [apply list_elem_of_here |].
    destruct (Hnew b) as (_ & Hb & _); [apply list_elem_of_further, list_elem_of_here |].
    destruct (Hnew c) as (_ & Hc & _);
      [apply list_elem_of_further, list_elem_of_further, list_elem_of_here |].
    lia.
Qed.

Lemma process_video_frames_samples_witness :
  let cap := mkVideoCapture true 4 [first_frame; second_frame; first_frame; second_frame] in
  is_opened cap = true ∧ 4 ≠ 0 ∧
  ∃ r, process_video_frames init cap "north.mp4" 4 = Return r ∧
    (length (sample_frames r) ≤ 2)%nat.
Proof.
  intros cap.
  assert (is_opened cap = true) as Hopened by reflexivity.
  assert (4 ≠ 0) as Hmax by lia.
  split_and!; [exact Hopened | exact Hmax |].
  destruct (process_video_frames_samples init cap "north.mp4" 4 Hopened Hmax)
    as (r & Hrun & _ & _ & Hlength).
  exists r. split; [exact Hrun | exact Hlength].
Defined.

Lemma max_vehicles_bounds (counts : list Z) :
  Forall (λ c, 0 ≤ c) counts →
  Forall (λ c, c ≤ max_vehicles counts) counts ∧
  0 ≤ max_vehicles counts ≤ sum_counts counts ∧
  (counts ≠ [] → max_vehicles counts ∈ counts).
Proof.
  intros Hpos. destruct counts as [| first rest].
  - split_and!; [constructor | reflexivity | reflexivity | congruence].
  - apply Forall_cons in Hpos as [Hfirst Hrest]. cbn [max_vehicles sum_counts foldr].
    fold (sum_counts rest).
    assert (first ≤ foldl Z.max first rest ∧
            Forall (λ c, c ≤ foldl Z.max first rest) rest ∧
            foldl Z.max first rest ≤ first + sum_counts rest ∧
            foldl Z.max first rest ∈ first :: rest) as (H1 & H2 & H3 & H4).
    { revert first Hfirst.
      induction Hrest as [| c rest Hc Hrest IH]; intros first Hfirst.
      - cbn [foldl sum_counts foldr].
        split_and!; [lia | constructor | lia | apply list_elem_of_here].
      - cbn [foldl sum_counts foldr]. fold (sum_counts rest).
        destruct (IH (Z.max first c) ltac:(lia)) as (I1 & I2 & I3 & I4).
        pose proof (Z.le_max_l first c) as Hl. pose proof (Z.le_max_r first c) as Hr.
        set (m := foldl Z.max (Z.max first c) rest) in *.
        split_and!.
        + lia.
        + constructor; [lia | exact I2].
        + assert (0 ≤ sum_counts rest) as Hsum.
          { clear -Hrest. induction Hrest as [| x l Hx _ IH']; cbn [sum_counts foldr];
              [lia |]. fold (sum_counts l). lia. }
          lia.
        + apply elem_of_cons in I4 as [Heq | Hin].
          * rewrite Heq. destruct (Z.max_spec first c) as [[_ ->] | [_ ->]].
            -- apply list_elem_of_further, list_elem_of_here.
            -- apply list_elem_of_here.
          * apply list_elem_of_further, list_elem_of_further, Hin. }
    split_and!; [constructor; assumption | lia | exact H3 | intros _; exact H4].
Qed.

(** X25: the totals reported for a video agree with each other:
    [all_detections] is the sum of the per-frame counts, and
    [max_vehicles] is one of the counts, bounds every count, and is at most
    [all_detections]. *)
Theorem process_video_frames_totals (detector : VehicleDetector)
    (cap : VideoCapture) (video_path : string) (max_frames : Z)
    (Hopened : is_opened cap = true) (Hmax : max_frames ≠ 0) :
  ∃ r, process_video_frames detector cap video_path max_frames = Return r ∧
    Z.of_nat (length (all_detections r)) = sum_counts (vehicle_counts r) ∧
    (∀ c, c ∈ vehicle_counts r → 0 ≤ c ≤ max_vehicles (vehicle_counts r)) ∧
    (vehicle_counts r ≠ [] → max_vehicles (vehicle_counts r) ∈ vehicle_counts r) ∧
    max_vehicles (vehicle_counts r) ≤ Z.of_nat (length (all_detections r)).
Proof.
  rewrite process_video_frames_opened by assumption. eexists. split; [reflexivity |].
  match goal with
  | |- context [frame_loop ?m ?k ?l ?s] =>
      destruct (frame_loop_spec m k l s) as (_ & Hcounts & Hall & _)
  end.
  cbn [vehicle_counts all_detections app length] in Hcounts, Hall.
  rewrite Hall, Hcounts. cbn [Z.of_nat]. rewrite Z.add_0_l.
  match goal with |- context [vehicles_in <$> ?l] => set (counts := vehicles_in <$> l) end.
  assert (Forall (λ c, 0 ≤ c) counts) as Hpos.
  { subst counts. apply Forall_fmap, Forall_forall. intros frame _.
    unfold compose, vehicles_in. lia. }
  destruct (max_vehicles_bounds counts Hpos) as (Hbound & Hrange & Hmember).
  rewrite Forall_forall in Hpos, Hbound.
  split_and!; [reflexivity | | exact Hmember | lia].
  intros c Hc. split; [apply Hpos, Hc | apply Hbound, Hc].
Qed.

Lemma process_video_frames_totals_witness :
  let cap := mkVideoCapture true 2 [first_frame; second_frame] in
  is_opened cap = true ∧ 5 ≠ 0 ∧
  ∃ r, process_video_frames init cap "north.mp4" 5 = Return r ∧
    Z.of_nat (length (all_detections r)) = sum_counts (vehicle_counts r).
Proof.
  intros cap.
  assert (is_opened cap = true) as Hopened by reflexivity.
  assert (5 ≠ 0) as Hmax by lia.
  split_and!; [exact Hopened | exact Hmax |].
  destruct (process_video_frames_totals init cap "north.mp4" 5 Hopened Hmax)
    as (r & Hrun & Hsum & _).
  exists r. split; [exact Hrun | exact Hsum].
Defined.

(** ** Properties of [allowed_file] *)

Lemma contains_dot_rpartition s :
  contains_dot s = true ↔ is_Some (rpartition_dot s).
Proof.
  induction s as [| c s IH]; cbn [contains_dot rpartition_dot].
  - split; [discriminate | intros [? [=]]].
  - rewrite orb_true_iff, IH.
    destruct (rpartition_dot s) as [[b a] |].
    + split; [intros _; eexists; reflexivity | intros _; right; eexists; reflexivity].
    + destruct (Ascii.eqb c "."%char).
      * split; [intros _; eexists; reflexivity | intros _; left; reflexivity].
      * split; [intros [[=] | [? [=]]] | intros [? [=]]].
Qed.

Lemma rpartition_dot_None s : rpartition_dot s = None ↔ contains_dot s = false.
Proof.
  pose proof (contains_dot_rpartition s) as Hdot.
  destruct (contains_dot s), (rpartition_dot s) as [[b a] |]; split; try done.
  - intros _. destruct (proj1 Hdot eq_refl) as [? Hnone]. discriminate Hnone.
  - intros _. assert (false = true) as Habsurd; [| discriminate Habsurd].
    apply Hdot. eexists. reflexivity.
Qed.

Lemma rpartition_dot_Some s before after :
  rpartition_dot s = Some (before, after) ↔
  s = String.append before (String "."%char after) ∧ contains_dot after = false.
Proof.
  split.
  - revert before after. induction s as [| c s IH]; intros before after; [discriminate |].
    cbn [rpartition_dot]. destruct (rpartition_dot s) as [[b a] |] eqn:Hs.
    + intros [= <- <-]. destruct (IH b a eq_refl) as [Heq Hnodot].
      split; [rewrite Heq at 1; reflexivity | exact Hnodot].
    + destruct (Ascii.eqb c "."%char) eqn:Hc; [| discriminate].
      apply Ascii.eqb_eq in Hc. intros [= <- <-]. subst c.
      split; [reflexivity | apply rpartition_dot_None, Hs].
  - intros [-> Hnodot]. induction before as [| c before IH].
    + change (rpartition_dot (String "."%char after) = Some (EmptyString, after)).
      cbn [rpartition_dot]. rewrite (proj2 (rpartition_dot_None after) Hnodot).
      rewrite Ascii.eqb_refl. reflexivity.
    + change (rpartition_dot
                (String c (String.append before (String "."%char after)))
              = Some (String c before, after)).
      cbn [rpartition_dot]. rewrite IH. reflexivity.
Qed.

(** The extensions a file type admits. *)
Lemma allowed_file_eq filename file_type :
  allowed_file filename file_type
  = Return match rpartition_dot filename with
           | None => false
           | Some (_, ext) =>
               if String.eqb file_type "video"
               then bool_decide (lower ext ∈ ALLOWED_VIDEO_EXTENSIONS)
               else if String.eqb file_type "image"
               then bool_decide (lower ext ∈ ALLOWED_IMAGE_EXTENSIONS)
               else bool_decide (lower ext ∈ ALLOWED_VIDEO_EXTENSIONS)
                    || bool_decide (lower ext ∈ ALLOWED_IMAGE_EXTENSIONS)
           end.
Proof.
  unfold allowed_file, rsplit_dot.
  pose proof (contains_dot_rpartition filename) as Hdot.
  destruct (contains_dot filename); cbn [negb].
  - destruct (proj1 Hdot eq_refl) as [[before after] ->].
    cbn [list_index lookup list_lookup mbind outcome_bind].
    repeat case_match; reflexivity.
  - destruct (rpartition_dot filename) as [[b a] |]; [| reflexivity].
    assert (false = true) as Habsurd; [| discriminate Habsurd].
    apply Hdot. eexists. reflexivity.
Qed.

(** X26: [allowed_file] never raises, and a file name of ASCII characters
    is allowed as a video exactly when it has a dot and the text after its
    last dot, lowercased, is one of mp4, avi, mov, mkv; likewise for
    images with jpg, jpeg, png, bmp.  A name without a dot, or ending in a
    dot, is never allowed; a name that begins with its only dot is. *)
Theorem allowed_file_extension (filename file_type : string)
    (Hascii : is_ascii filename = true) :
  ∃ allowed, allowed_file filename file_type = Return allowed ∧
    (file_type = "video" →
       allowed = true ↔
       ∃ stem ext, filename = String.append stem (String "."%char ext) ∧
         contains_dot ext = false ∧ lower ext ∈ ALLOWED_VIDEO_EXTENSIONS) ∧
    (file_type = "image" →
       allowed = true ↔
       ∃ stem ext, filename = String.append stem (String "."%char ext) ∧
         contains_dot ext = false ∧ lower ext ∈ ALLOWED_IMAGE_EXTENSIONS) ∧
    (contains_dot filename = false → allowed = false) ∧
    ((∃ stem, filename = String.append stem ".") → allowed = false).
Proof.
  rewrite allowed_file_eq. eexists. split; [reflexivity |].
  split_and!.
  - intros ->. cbn [String.eqb Ascii.eqb Bool.eqb andb].
    destruct (rpartition_dot filename) as [[before after] |] eqn:Hpart.
    + apply rpartition_dot_Some in Hpart as [-> Hnodot].
      rewrite bool_decide_eq_true. split.
      * intros Hin. exists before, after. split_and!; [reflexivity | exact Hnodot | exact Hin].
      * intros (stem & ext & Heq & Hnodot' & Hin).
        assert (rpartition_dot (String.append before (String "."%char after)) = Some (stem, ext))
          as Hpart' by (apply rpartition_dot_Some; split; assumption).
        assert (rpartition_dot (String.append before (String "."%char after))
                = Some (before, after)) as Hpart''
          by (apply rpartition_dot_Some; split; [reflexivity | assumption]).
        rewrite Hpart'' in Hpart'. injection Hpart' as -> ->. exact Hin.
    + split; [discriminate |]. intros (stem & ext & Heq & Hnodot & _).
      assert (rpartition_dot filename = Some (stem, ext)) as Hpart'
        by (apply rpartition_dot_Some; split; assumption).
      congruence.
  - intros ->. cbn [String.eqb Ascii.eqb Bool.eqb andb].
    destruct (rpartition_dot filename) as [[before after] |] eqn:Hpart.
    + apply rpartition_dot_Some in Hpart as [-> Hnodot].
      rewrite bool_decide_eq_true. split.
      * intros Hin. exists before, after. split_and!; [reflexivity | exact Hnodot | exact Hin].
      * intros (stem & ext & Heq & Hnodot' & Hin).
        assert (rpartition_dot (String.append before (String "."%char after)) = Some (stem, ext))
          as Hpart' by (apply rpartition_dot_Some; split; assumption).
        assert (rpartition_dot (String.append before (String "."%char after))
                = Some (before, after)) as Hpart''
          by (apply rpartition_dot_Some; split; [reflexivity | assumption]).
        rewrite Hpart'' in Hpart'. injection Hpart' as -> ->. exact Hin.
    + split; [discriminate |]. intros (stem & ext & Heq & Hnodot & _).
      assert (rpartition_dot filename = Some (stem, ext)) as Hpart'
        by (apply rpartition_dot_Some; split; assumption).
      congruence.
  - intros Hnodot. destruct (rpartition_dot filename) as [[before after] |] eqn:Hpart;
      [| reflexivity].
    assert (contains_dot filename = true) as Hdot
      by (apply contains_dot_rpartition; rewrite Hpart; eexists; reflexivity).
    congruence.
  - intros (stem & ->).
    assert (rpartition_dot (String.append stem ".") = Some (stem, EmptyString)) as ->
      by (apply rpartition_dot_Some; split; reflexivity).
    cbn [lower]. repeat case_match; reflexivity.
Qed.

Lemma allowed_file_extension_witness :
  is_ascii "Clip.North.MP4" = true ∧
  allowed_file "Clip.North.MP4" "video" = Return true.
Proof.
  split; [reflexivity |].
  destruct (allowed_file_extension "Clip.North.MP4" "video" eq_refl)
    as (allowed & -> & Hvideo & _).
  f_equal. apply (Hvideo eq_refl).
  exists "Clip.North", "MP4". split_and!; [reflexivity | reflexivity |].
  vm_compute. apply list_elem_of_further, list_elem_of_here || apply list_elem_of_here.
Defined.

(** X27: no file name is allowed both as a video and as an image, and
    with any other file type a name is allowed exactly when it is allowed
    as one of the two. *)
Theorem allowed_file_types_exclusive (filename file_type : string)
    (Hascii : is_ascii filename = true) :
  ∃ as_video as_image as_other,
    allowed_file filename "video" = Return as_video ∧
    allowed_file filename "image" = Return as_image ∧
    allowed_file filename file_type = Return as_other ∧
    as_video && as_image = false ∧
    (file_type ≠ "video" → file_type ≠ "image" → as_other = as_video || as_image).
Proof.
  rewrite !allowed_file_eq. eexists _, _, _. split_and!; [reflexivity.. | |].
  - cbn [String.eqb Ascii.eqb Bool.eqb andb].
    destruct (rpartition_dot filename) as [[before after] |]; [| reflexivity].
    apply andb_false_iff.
    destruct (bool_decide (lower after ∈ ALLOWED_VIDEO_EXTENSIONS)) eqn:Hvideo;
      [| left; reflexivity].
    right. apply bool_decide_eq_false. apply bool_decide_eq_true in Hvideo.
    unfold ALLOWED_VIDEO_EXTENSIONS, ALLOWED_IMAGE_EXTENSIONS in *.
    rewrite !elem_of_cons in Hvideo. rewrite !not_elem_of_cons.
    destruct Hvideo as [-> | [-> | [-> | [-> | Hnil]]]];
      [| | | | apply elem_of_nil in Hnil as []];
      split_and!; try discriminate; apply not_elem_of_nil.
  - intros Hvideo Himage.
    apply String.eqb_neq in Hvideo, Himage. rewrite Hvideo, Himage.
    cbn [String.eqb Ascii.eqb Bool.eqb andb].
    destruct (rpartition_dot filename) as [[before after] |]; reflexivity.
Qed.

Lemma allowed_file_types_exclusive_witness :
  is_ascii "north.jpeg" = true ∧
  ∃ as_video as_image,
    allowed_file "north.jpeg" "video" = Return as_video ∧
    allowed_file "north.jpeg" "image" = Return as_image ∧
    as_video && as_image = false.
Proof.
  split; [reflexivity |].
  destruct (allowed_file_types_exclusive "north.jpeg" "any" eq_refl)
    as (as_video & as_image & as_other & Hvideo & Himage & _ & Hexclusive & _).
  exists as_video, as_image. split_and!; assumption.
Defined.

(** ** Matching does not look at the clock *)



